(** * The ray tracing demo of GL_Template ([src/apps/raytracerdemo/main.cpp])

    A shallow embedding of the path integrator of [main]: the two
    [System::forParallel] passes (shading, then normalisation and gamma
    correction), the per-sample path loop, and the arithmetic they are written
    in.  Around it, the command line of the demo ([RaytracerConfig] and the
    start of [main]) and pieces of the engine the repository holds:
    directional lights, scene objects, the frame-time ring of the atmosphere
    demo, the colour conversion [System::hslToRgb], the shadow map passes and
    the key events of the renderer.

    [float] is IEEE-754 binary32.  It is modelled bit for bit with the
    Standard Library's [SpecFloat] at precision 24 and maximal exponent 128,
    in the default rounding mode (to nearest, ties to even), every operation
    of the source rounded on its own (no fused multiply-add, no wider
    intermediate format): zero divided by zero, overflow and the rounding of
    each addition and product are those of the compiled program.

    The file has two parts: the definitions (arithmetic, GLM, the interfaces
    of the engine, the integrator, the terms the statements are written
    with, a few small scenes, then the command line and the engine), then
    the lemmas: under "The claims", the statements C1 to C10, and after
    them the further properties X1 to X23. *)
From Stdlib Require Import ZArith Bool Lia SpecFloat.
From Stdlib Require DecimalString.
From stdpp Require Import base list strings.

Local Open Scope Z_scope.

(** ** binary32 *)

Definition prec : Z := 24.
Definition emax : Z := 128.

Definition float := spec_float.

Definition fzero : float := S754_zero false.
Definition fone : float := S754_finite false 8388608 (-23).
Definition fnan : float := S754_nan.

Definition fadd : float -> float -> float := SFadd prec emax.
Definition fsub : float -> float -> float := SFsub prec emax.
Definition fmul : float -> float -> float := SFmul prec emax.
Definition fdiv : float -> float -> float := SFdiv prec emax.
Definition fsqrt : float -> float := SFsqrt prec emax.
Definition flt : float -> float -> bool := SFltb.
Definition fle : float -> float -> bool := SFleb.

(** [float(n)] for an unsigned integer [n] (round to nearest even). *)
Definition float_of_Z (n : Z) : float := binary_normalize prec emax n 0 false.
Definition float_of_nat (n : nat) : float := float_of_Z (Z.of_nat n).

(** A well-formed binary32 value: the mantissa is canonical for its exponent
    and the exponent is in range. *)
Definition valid (x : float) : bool := valid_binary prec emax x.

(** The literal [2.2f]: the binary32 nearest to 2.2 is 9227469 * 2^-22. *)
Definition f2_2 : float := S754_finite false 9227469 (-22).
(** [1.0f/2.2f], evaluated in binary32 as the compiler folds it. *)
Definition inv_gamma : float := fdiv fone f2_2.

(** *** [std::pow] on [float]

    The C library's [powf] is not part of the repository.  Its results on the
    special operands are fixed by ISO C Annex F (F.10.4.4); they are written
    out below.  On the remaining operands (x finite, non-zero and different
    from 1, y finite and non-zero, and x positive or y an integer) the result
    is whatever the platform's libm returns: [pow_fin], a parameter of the
    model. *)

Definition is_integer (y : float) : bool :=
  match y with
  | S754_zero _ => true
  | S754_finite _ m e =>
      if 0 <=? e then true else (Z.pos m mod 2 ^ (- e) =? 0)
  | _ => false
  end.

Definition is_odd_integer (y : float) : bool :=
  match y with
  | S754_finite _ m e =>
      if 0 <? e then false
      else if e =? 0 then Z.odd (Z.pos m)
      else (Z.pos m mod 2 ^ (- e) =? 0) && Z.odd (Z.pos m / 2 ^ (- e))
  | _ => false
  end.

Definition is_one (x : float) : bool :=
  match x with
  | S754_finite false 8388608 (-23) => true
  | _ => false
  end.
Definition is_minus_one (x : float) : bool :=
  match x with
  | S754_finite true 8388608 (-23) => true
  | _ => false
  end.

Definition powf (pow_fin : float -> float -> float) (x y : float) : float :=
  if is_one x then fone
  else match y with
  | S754_zero _ => fone
  | S754_nan => fnan
  | S754_infinity sy =>
      match x with
      | S754_nan => fnan
      | S754_zero _ => if sy then S754_infinity false else fzero
      | S754_infinity _ => if sy then fzero else S754_infinity false
      | S754_finite _ _ _ =>
          if is_minus_one x then fone
          else if flt (SFabs x) fone
               then (if sy then S754_infinity false else fzero)
               else (if sy then fzero else S754_infinity false)
      end
  | S754_finite sy _ _ =>
      match x with
      | S754_nan => fnan
      | S754_zero sx =>
          if sy then S754_infinity (sx && is_odd_integer y)
          else S754_zero (sx && is_odd_integer y)
      | S754_infinity sx =>
          if sy then S754_zero (sx && is_odd_integer y)
          else S754_infinity (sx && is_odd_integer y)
      | S754_finite sx _ _ =>
          if sx && negb (is_integer y) then fnan else pow_fin x y
      end
  end.

(** *** Number of binary digits, exponent of the format, sign *)

(** The number of binary digits of a mantissa, and the exponent binary32
    gives to a number of [d] digits above the binary point. *)
Definition digits (m : Z) : Z := Zdigits2 m.
Definition fexp32 (d : Z) : Z := SpecFloat.fexp prec emax d.

(** [x < 0] is false: [x] is zero, positive, +infinity or NaN. *)
Definition notneg (x : float) : bool := negb (flt x fzero).

(** A well-formed binary32 value that is not negative. *)
Definition good (x : float) : Prop := valid x = true /\ notneg x = true.

(** ** GLM vectors

    [glm::vec2] and [glm::vec3] with the operators the demo uses, each written
    as GLM's reference (non-SIMD) implementation computes it. *)

Record vec2 := Vec2 { v2x : float; v2y : float }.
Record vec3 := Vec3 { vx : float; vy : float; vz : float }.

(** [glm::vec3(s)] *)
Definition vec3_of (s : float) : vec3 := Vec3 s s s.

Definition vmap (f : float -> float) (a : vec3) : vec3 :=
  Vec3 (f (vx a)) (f (vy a)) (f (vz a)).
Definition vmap2 (f : float -> float -> float) (a b : vec3) : vec3 :=
  Vec3 (f (vx a) (vx b)) (f (vy a) (vy b)) (f (vz a) (vz b)).

Definition vadd : vec3 -> vec3 -> vec3 := vmap2 fadd.
Definition vsub : vec3 -> vec3 -> vec3 := vmap2 fsub.
Definition vmul : vec3 -> vec3 -> vec3 := vmap2 fmul.
(** [s * v] and [v * s] *)
Definition smul (s : float) (a : vec3) : vec3 := vmap (fmul s) a.
Definition vmuls (a : vec3) (s : float) : vec3 := vmap (fun c => fmul c s) a.
(** [v / s] *)
Definition vdivs (a : vec3) (s : float) : vec3 := vmap (fun c => fdiv c s) a.

(** [glm::dot]: [tmp = a * b; tmp.x + tmp.y + tmp.z]. *)
Definition dot (a b : vec3) : float :=
  fadd (fadd (fmul (vx a) (vx b)) (fmul (vy a) (vy b))) (fmul (vz a) (vz b)).

(** [glm::inversesqrt(x)] is [1 / sqrt(x)]. *)
Definition inversesqrt (x : float) : float := fdiv fone (fsqrt x).

(** [glm::normalize(v)] is [v * inversesqrt(dot(v, v))]. *)
Definition normalize (v : vec3) : vec3 := vmuls v (inversesqrt (dot v v)).

(** [glm::max(x, y)] is [(x < y) ? y : x]. *)
Definition fmax (x y : float) : float := if flt x y then y else x.

(** [glm::pow(v, e)], component by component. *)
Definition vpow (pow_fin : float -> float -> float) (a e : vec3) : vec3 :=
  vmap2 (powf pow_fin) a e.

(** Channel by channel: well-formed and not negative, well-formed. *)
Definition vgood (v : vec3) : Prop := good (vx v) /\ good (vy v) /\ good (vz v).
Definition vvalid (v : vec3) : Prop :=
  valid (vx v) = true /\ valid (vy v) = true /\ valid (vz v) = true.
(** [a < b] is false, channel by channel. *)
Definition vnot_less (a b : vec3) : Prop :=
  flt (vx a) (vx b) = false /\ flt (vy a) (vy b) = false /\ flt (vz a) (vz b) = false.

(** ** The output image

    Modelled from the spec: the engine's [Image] class (absent from the
    sources; section 3 of the specification describes it as a 2D array of
    floating-point RGB accumulators, width by height, initialised to zero).
    Pixels are stored row by row; [rgb(x, y)] is the pixel of column [x] in
    row [y]. *)

Record Image := mkImage { width : nat; height : nat; pixels : list vec3 }.

Definition Image_new (w h : nat) : Image :=
  mkImage w h (replicate (w * h) (vec3_of fzero)).

Definition pixel_index (img : Image) (x y : nat) : nat := (y * width img + x)%nat.

Definition rgb (img : Image) (x y : nat) : vec3 :=
  default (vec3_of fzero) (pixels img !! pixel_index img x y).

Definition set_rgb (img : Image) (x y : nat) (c : vec3) : Image :=
  mkImage (width img) (height img) (<[pixel_index img x y := c]> (pixels img)).

(** The buffer holds one pixel per position. *)
Definition wf_image (img : Image) : Prop :=
  length (pixels img) = (width img * height img)%nat.

(** Same dimensions, and a buffer of that size. *)
Definition same_shape (a b : Image) : Prop :=
  width a = width b /\ height a = height b /\ wf_image a.

(** ** Lights

    [light->visible(p, raycaster, direction, attenuation)] returns whether the
    light reaches [p] and, when it does, fills the two output arguments;
    [light->intensity()] is the light's colour. *)

Record Light := mkLight {
  visible : vec3 -> option (vec3 * float);
  intensity : vec3
}.

Inductive Background := COLOR | IMAGE.

(** [for(size_t i = 0; i < n; ++i) body(i)] over a state. *)
Definition for_loop {S : Type} (n : nat) (body : nat -> S -> S) (s : S) : S :=
  fold_left (fun st i => body i st) (seq 0 n) s.

(** Modelled from the spec: [System::forParallel] (absent from the sources;
    section 4.4 of the specification: the worker is invoked for every index of
    the interval, no ordering between rows is promised).  The rows are run
    one after the other, in increasing order: the single-threaded schedule. *)
Definition forParallel {S : Type} (low high : nat) (worker : nat -> S -> S) (s : S) : S :=
  fold_left (fun st y => worker y st) (seq low (high - low)) s.

(** [size_t] is 64 bits wide: [depth - 1] wraps around at [depth = 0]. *)
Definition size_t_sub (a b : nat) : Z := (Z.of_nat a - Z.of_nat b) mod 2 ^ 64.

(** ** What the demo receives from the engine

    None of the following is defined in this program's file: the ray caster,
    the interpolation of vertex attributes, texture lookup and libm.  They are
    the fields of [Engine]; nothing is assumed about them. *)

Record Engine := mkEngine {
  (** [Raycaster::RayHit], of which the demo reads [hit], [dist], [meshId] *)
  RayHit : Type;
  hit : RayHit -> bool;
  dist : RayHit -> float;
  meshId : RayHit -> nat;
  Mesh : Type;
  Texture : Type;
  interpolateNormal : RayHit -> Mesh -> vec3;
  interpolateUV : RayHit -> Mesh -> vec2;
  (** [image.rgbl(u, v)] *)
  rgbl : Texture -> float -> float -> vec3;
  (** libm's [powf] on ordinary operands *)
  pow_fin : float -> float -> float
}.

(** The global generator behind [Random::Float()] and
    [Random::sampleSphere()]: a draw returns a value and the next state. *)
Record Random := mkRandom {
  Rng : Type;
  Random_Float : Rng -> float * Rng;
  Random_sampleSphere : Rng -> vec3 * Rng
}.

(** The loaded scene with its ray caster ([raycaster.intersects] once the
    hierarchy is built), [scene.objects[i].mesh()->geometry],
    [scene.objects[i].textures()[0]->images[0]], the lights and the
    background. *)
Record Scene (E : Engine) := mkScene {
  intersects : vec3 -> vec3 -> RayHit E;
  objectMesh : nat -> Mesh E;
  objectTexture : nat -> Texture E;
  lights : list Light;
  backgroundMode : Background;
  backgroundImage : Texture E;
  backgroundColor : vec3
}.
Arguments intersects {E}.
Arguments objectMesh {E}.
Arguments objectTexture {E}.
Arguments lights {E}.
Arguments backgroundMode {E}.
Arguments backgroundImage {E}.
Arguments backgroundColor {E}.

(** The camera: its position and the result of [camera.pixelShifts]. *)
Record Camera := mkCamera {
  cameraPosition : vec3;
  corner : vec3;
  dx : vec3;
  dy : vec3
}.

(** The state of one path: the variables of lines 136-140 and the generator. *)
Record PathState (R : Random) := mkPath {
  rayPos : vec3;
  rayDir : vec3;
  sampleColor : vec3;
  attenColor : vec3;
  rng : Rng R
}.
Arguments mkPath {R}.
Arguments rayPos {R}.
Arguments rayDir {R}.
Arguments sampleColor {R}.
Arguments attenColor {R}.
Arguments rng {R}.

Section Integrator.

Context {E : Engine} {R : Random}.
Variable scene : Scene E.
Variable camera : Camera.
(** [config.samples] and [config.depth] *)
Variables samples depth : nat.

(** *** The path loop (main.cpp, lines 142-196) *)

(** Lines 170-178: the light loop at the point [p] with normal [n]. *)
Definition light_step (p n : vec3) (illumination : vec3) (light : Light) : vec3 :=
  match visible light p with
  | Some (direction, attenuation) =>
      let diffuse := fmax (dot n direction) fzero in
      vadd illumination (smul (fmul attenuation diffuse) (intensity light))
  | None => illumination
  end.

Definition compute_lighting (p n : vec3) : vec3 :=
  fold_left (light_step p n) (lights scene) (vec3_of fzero).

(** Lines 150-158: what a missing ray does to the sample colour. *)
Definition on_miss (ndcPos : vec2) (color : vec3) : vec3 :=
  if (depth =? 0)%nat then
    match backgroundMode scene with
    | IMAGE => rgbl E (backgroundImage scene) (v2x ndcPos) (v2y ndcPos)
    | COLOR => backgroundColor scene
    end
  else color.

(** One iteration of [for(size_t did = 0; did < depth; ++did)]: the new
    state, and [false] when the iteration ends in [break]. *)
Definition bounce (ndcPos : vec2) (did : nat) (st : PathState R) : PathState R * bool :=
  let h := intersects scene (rayPos st) (rayDir st) in
  if negb (hit E h) then
    (mkPath (rayPos st) (rayDir st) (on_miss ndcPos (sampleColor st))
            (attenColor st) (rng st), false)
  else
    let mesh := objectMesh scene (meshId E h) in
    let p := vadd (rayPos st) (smul (dist E h) (rayDir st)) in
    let n := interpolateNormal E h mesh in
    let uv := interpolateUV E h mesh in
    let illumination := compute_lighting p n in
    let image := objectTexture scene (meshId E h) in
    let baseColor := vpow (pow_fin E) (rgbl E image (v2x uv) (v2y uv)) (vec3_of f2_2) in
    let attenColor' := vmul (attenColor st) baseColor in
    let sampleColor' := vadd (sampleColor st) (vmul attenColor' illumination) in
    if Z.of_nat did <? size_t_sub depth 1 then
      let '(s, rng') := Random_sampleSphere R (rng st) in
      (mkPath p (normalize (vadd n s)) sampleColor' attenColor' rng', true)
    else
      (mkPath (rayPos st) (rayDir st) sampleColor' attenColor' (rng st), true).

(** The loop itself: [fuel] iterations are left, the next one has index [did]. *)
Fixpoint path_loop (ndcPos : vec2) (fuel did : nat) (st : PathState R) : PathState R :=
  match fuel with
  | O => st
  | S fuel' =>
      let '(st', continue) := bounce ndcPos did st in
      if continue then path_loop ndcPos fuel' (S did) st' else st'
  end.

(** *** One sample of one pixel (lines 128-198) *)

Definition ndc_of (w h x y : nat) (jx jy : float) : vec2 :=
  Vec2 (fdiv (fadd (float_of_nat x) jx) (float_of_nat w))
       (fdiv (fadd (float_of_nat y) jy) (float_of_nat h)).

Definition primary_ray (ndcPos : vec2) (g : Rng R) : PathState R :=
  let worldPos := vadd (vadd (corner camera) (smul (v2x ndcPos) (dx camera)))
                       (smul (v2y ndcPos) (dy camera)) in
  mkPath (cameraPosition camera)
         (normalize (vsub worldPos (cameraPosition camera)))
         (vec3_of fzero) (vec3_of fone) g.

Definition trace_sample (w h x y : nat) (g : Rng R) : vec3 * Rng R :=
  let '(jx, g1) := Random_Float R g in
  let '(jy, g2) := Random_Float R g1 in
  let ndcPos := ndc_of w h x y jx jy in
  let st := path_loop ndcPos depth 0 (primary_ray ndcPos g2) in
  (sampleColor st, rng st).

Definition shade_sample (x y : nat) (_sid : nat) (s : Image * Rng R) : Image * Rng R :=
  let '(render, g) := s in
  let '(color, g') := trace_sample (width render) (height render) x y g in
  (set_rgb render x y (vadd (rgb render x y) color), g').

(** *** The two passes (lines 124-201 and 205-210) *)

Definition shading_row (y : nat) (s : Image * Rng R) : Image * Rng R :=
  for_loop (width (fst s)) (fun x => for_loop samples (shade_sample x y)) s.

Definition normalize_pixel (y x : nat) (render : Image) : Image :=
  let color := vdivs (rgb render x y) (float_of_nat samples) in
  set_rgb render x y (vpow (pow_fin E) color (vec3_of inv_gamma)).

Definition gamma_row (y : nat) (render : Image) : Image :=
  for_loop (width render) (normalize_pixel y) render.

Definition shading_pass (render : Image) (g : Rng R) : Image * Rng R :=
  forParallel 0 (height render) shading_row (render, g).

Definition gamma_pass (render : Image) : Image :=
  forParallel 0 (height render) gamma_row render.

(** The image handed to [saveLDRImage], and the generator's final state. *)
Definition render (w h : nat) (g : Rng R) : Image * Rng R :=
  let '(img, g') := shading_pass (Image_new w h) g in
  (gamma_pass img, g').

End Integrator.

(** ** The two passes as functions of the samples

    What the passes leave in a pixel, written without the image: the colours
    of the pixel's samples, the state of the generator when a row and a
    column are reached, and the accumulated and the encoded colour. *)

Section PassTerms.

Context {E : Engine} {R : Random}.
Variable scene : Scene E.
Variable camera : Camera.
Variables samples depth : nat.

(** The colours of the samples of one pixel, drawn one after the other from
    the generator, without the image. *)
Definition sample_step (w h x y : nat) (_sid : nat) (acc : list vec3 * Rng R)
  : list vec3 * Rng R :=
  let '(c, g') := trace_sample scene camera depth w h x y (snd acc) in
  (fst acc ++ [c], g').

Definition samples_of (n w h x y : nat) (g : Rng R) : list vec3 * Rng R :=
  for_loop n (sample_step w h x y) ([], g).

Definition pixel_samples (w h x y : nat) (g : Rng R) : list vec3 * Rng R :=
  samples_of samples w h x y g.

(** [render.rgb(x,y) += sampleColor], sample after sample. *)
Definition accumulate_pixel (old : vec3) (colors : list vec3) : vec3 :=
  fold_left vadd colors old.

(** The generator when row [y] reaches column [x], and when the pass
    reaches row [y]. *)
Definition row_rng (w h y : nat) (g : Rng R) (x : nat) : Rng R :=
  for_loop x (fun x' g' => snd (pixel_samples w h x' y g')) g.

Definition pass_rng (w h : nat) (g : Rng R) (y : nat) : Rng R :=
  for_loop y (fun y' g' => row_rng w h y' g' w) g.

(** The accumulated colour of pixel (x, y) at the end of the pass. *)
Definition accumulated (img : Image) (g : Rng R) (x y : nat) : vec3 :=
  let w := width img in
  let h := height img in
  accumulate_pixel (rgb img x y)
    (fst (pixel_samples w h x y (row_rng w h y (pass_rng w h g y) x))).

(** What lines 207-208 compute from an accumulated colour. *)
Definition gamma_encode (c : vec3) : vec3 :=
  vpow (pow_fin E) (vdivs c (float_of_nat samples)) (vec3_of inv_gamma).

End PassTerms.

(** ** The spec's reading of throughput (claim C2)

    The hits met along a path, each with its base colour and the illumination
    gathered there, and two ways of folding them into a colour: the order of
    the program's lines 185-186, and the order of the specification's
    sentence (accumulate [throughput * illumination], multiply the throughput
    by the base colour after the bounce). *)

Section PathTerms.

Context {E : Engine} {R : Random}.
Variable scene : Scene E.
Variable depth : nat.

(** Base colour and illumination at the hit [h] of the ray of [st]. *)
Definition hit_terms (st : PathState R) : vec3 * vec3 :=
  let h := intersects scene (rayPos st) (rayDir st) in
  let mesh := objectMesh scene (meshId E h) in
  let p := vadd (rayPos st) (smul (dist E h) (rayDir st)) in
  let n := interpolateNormal E h mesh in
  let uv := interpolateUV E h mesh in
  let image := objectTexture scene (meshId E h) in
  (vpow (pow_fin E) (rgbl E image (v2x uv) (v2y uv)) (vec3_of f2_2),
   compute_lighting scene p n).

Fixpoint path_hits (ndcPos : vec2) (fuel did : nat) (st : PathState R) : list (vec3 * vec3) :=
  match fuel with
  | O => []
  | S fuel' =>
      if negb (hit E (intersects scene (rayPos st) (rayDir st))) then []
      else hit_terms st :: path_hits ndcPos fuel' (S did) (fst (bounce scene depth ndcPos did st))
  end.

End PathTerms.

(** The program: multiply, then accumulate. *)
Definition accumulate (acc : vec3 * vec3) (t : vec3 * vec3) : vec3 * vec3 :=
  let throughput := vmul (fst acc) (fst t) in
  (throughput, vadd (snd acc) (vmul throughput (snd t))).

(** The specification's sentence: accumulate, then multiply. *)
Definition spec_accumulate (acc : vec3 * vec3) (t : vec3 * vec3) : vec3 * vec3 :=
  (vmul (fst acc) (fst t), vadd (snd acc) (vmul (fst acc) (snd t))).

(** ** The illumination as a sum (claim C6) *)

(** The lights that reach [p], each with its direction, attenuation and
    colour, in the order of [scene.lights]. *)
Definition visible_lights (ls : list Light) (p : vec3) : list (vec3 * float * vec3) :=
  omap (fun l => match visible l p with
                 | Some (direction, attenuation) => Some (direction, attenuation, intensity l)
                 | None => None
                 end) ls.

(** [attenuation * max(dot(n, direction), 0) * intensity], added to [acc]. *)
Definition add_contribution (n : vec3) (acc : vec3) (l : vec3 * float * vec3) : vec3 :=
  let '(direction, attenuation, colour) := l in
  vadd acc (smul (fmul attenuation (fmax (dot n direction) fzero)) colour).

(** Whether the visibility query of [l] succeeds at [p]. *)
Definition reaches (p : vec3) (l : Light) : bool :=
  match visible l p with Some _ => true | None => false end.

(** ** Assumptions on the inputs (claim C10) *)

(** The assumption of the claim: texture samples, light intensities and
    attenuations are well-formed and not negative; libm's power of such a
    value is one too; normals and light directions are well-formed. *)
Definition nonneg_inputs {E : Engine} (scene : Scene E) : Prop :=
  (forall i u v, vgood (rgbl E (objectTexture scene i) u v))
  /\ (forall x y, good x -> good (pow_fin E x y))
  /\ (forall h, vvalid (interpolateNormal E h (objectMesh scene (meshId E h))))
  /\ (forall l, In l (lights scene) ->
        vgood (intensity l) /\
        forall p d a, visible l p = Some (d, a) -> good a /\ vvalid d).

(** ** Two generators that draw the same values (claim C9)

    A relation [sim] between the states of two generators, lifted to the
    state of a path and to the state of the shading pass. *)

Definition path_sim {R1 R2 : Random} (sim : Rng R1 -> Rng R2 -> Prop)
    (a : PathState R1) (b : PathState R2) : Prop :=
  rayPos a = rayPos b /\ rayDir a = rayDir b /\
  sampleColor a = sampleColor b /\ attenColor a = attenColor b /\
  sim (rng a) (rng b).

Definition pass_sim {R1 R2 : Random} (sim : Rng R1 -> Rng R2 -> Prop)
    (a : Image * Rng R1) (b : Image * Rng R2) : Prop :=
  fst a = fst b /\ sim (snd a) (snd b).

(** ** Small scenes to run the program on *)

Module Demo.

(** A ray caster result: hit flag, distance, object. *)
Record hit_record := mkHit { h_hit : bool; h_dist : float; h_mesh : nat }.

(** An engine whose meshes are flat (one normal each), whose textures are
    of one colour, and whose libm returns the square of the base for
    ordinary operands. *)
Definition engine : Engine :=
  mkEngine hit_record h_hit h_dist h_mesh vec3 vec3
           (fun _ n => n) (fun _ _ => Vec2 fzero fzero)
           (fun t _ _ => t)
           (fun x _ => fmul x x).

Definition fhalf : float := S754_finite false 8388608 (-24).
Definition fminus_one : float := S754_finite true 8388608 (-23).

(** A linear congruential generator on 31 bits.  [Float] scales the state
    to [0, 1); [sampleSphere] picks one of the six axis directions. *)
Definition lcg_next (s : Z) : Z := (1103515245 * s + 12345) mod 2 ^ 31.
Definition axis (k : Z) : vec3 :=
  match k with
  | 0 => Vec3 fone fzero fzero
  | 1 => Vec3 fminus_one fzero fzero
  | 2 => Vec3 fzero fone fzero
  | 3 => Vec3 fzero fminus_one fzero
  | 4 => Vec3 fzero fzero fone
  | _ => Vec3 fzero fzero fminus_one
  end.
Definition lcg : Random :=
  mkRandom Z
    (fun s => (fdiv (float_of_Z (s mod 2 ^ 24)) (float_of_Z (2 ^ 24)), lcg_next s))
    (fun s => (axis (s mod 6), lcg_next s)).


Definition white : vec3 := vec3_of fone.
Definition black : vec3 := vec3_of fzero.
Definition up : vec3 := Vec3 fzero fzero fone.

(** A light shining straight down the z axis, never occluded. *)
Definition sun : Light := mkLight (fun _ => Some (up, fone)) white.
(** A light that reaches no point. *)
Definition hidden : Light := mkLight (fun _ => None) white.

Definition miss : hit_record := mkHit false fzero 0.

(** Nothing to hit, a white background. *)
Definition empty_scene : Scene engine :=
  mkScene engine (fun _ _ => miss) (fun _ => up) (fun _ => white)
          [sun] COLOR white white.

(** The plane z = 0 facing +z: a ray going down hits it at distance
    [pos.z / -dir.z], any other ray misses.  Object 0 carries [colour]. *)
Definition floor_hit (pos dir : vec3) : hit_record :=
  if flt (vz dir) fzero
  then mkHit true (fdiv (vz pos) (fsub fzero (vz dir))) 0
  else miss.

Definition floor_scene (colour : vec3) (ls : list Light) : Scene engine :=
  mkScene engine floor_hit (fun _ => up) (fun _ => colour) ls COLOR white white.

(** A camera at (0, 0, 2) looking down the z axis through the unit window
    centred on the axis in the plane z = 1. *)
Definition ftwo : float := float_of_Z 2.
Definition camera : Camera :=
  mkCamera (Vec3 fzero fzero ftwo)
           (Vec3 (S754_finite true 8388608 (-24)) (S754_finite true 8388608 (-24)) fone)
           (Vec3 fone fzero fzero) (Vec3 fzero fone fzero).

(** The largest binary32 number, and a light of that intensity. *)
Definition fhuge : float := S754_finite false 16777215 104.
Definition blaze : Light := mkLight (fun _ => Some (up, fone)) (vec3_of fhuge).

(** A ray from (0, 0, 2) straight down. *)
Definition down_ray (g : Z) : PathState lcg :=
  mkPath (R := lcg) (Vec3 fzero fzero ftwo) (Vec3 fzero fzero fminus_one) black white g.

End Demo.

(** ** Pixels, rows and schedules

    Terms in which the statements on whole passes are written: the ray a
    sample starts with and the hit it finds, a worker that records its row,
    the two passes with their rows taken in a given order, and the shading
    pass under way. *)

Section SampleTerms.

Context {E : Engine} {R : Random}.
Variable scene : Scene E.
Variable camera : Camera.

(** The hit point [p] and the normal [n] there (lines 163-165), for the ray
    of [st]. *)
Definition hit_position (st : PathState R) : vec3 :=
  vadd (rayPos st) (smul (dist E (intersects scene (rayPos st) (rayDir st))) (rayDir st)).

Definition hit_normal (st : PathState R) : vec3 :=
  let h := intersects scene (rayPos st) (rayDir st) in
  interpolateNormal E h (objectMesh scene (meshId E h)).

(** The state in which a sample enters the path loop: the two jitter draws
    of lines 129-130 and the ray of lines 131-140. *)
Definition sample_ray (w h x y : nat) (g : Rng R) : PathState R :=
  let '(jx, g1) := Random_Float R g in
  let '(jy, g2) := Random_Float R g1 in
  primary_ray camera (ndc_of w h x y jx jy) g2.

End SampleTerms.

(** A worker that also records the row it was invoked for. *)
Definition logged {S : Type} (worker : nat -> S -> S) (y : nat) (st : S * list nat)
  : S * list nat :=
  (worker y (fst st), snd st ++ [y]).



(** Every pixel of the image is well-formed and not negative. *)
Definition all_good (img : Image) : Prop :=
  forall x y, (x < width img)%nat -> (y < height img)%nat -> vgood (rgb img x y).

Section Schedules.

Context {E : Engine} {R : Random}.
Variable scene : Scene E.
Variable camera : Camera.
Variables samples depth : nat.





(** The shading pass under way: [j] rows are done, then [i] pixels of row
    [j], then [n] samples of pixel [(i, j)]. *)
Definition pass_state (w h j i n : nat) (g : Rng R) : Image * Rng R :=
  for_loop n (shade_sample scene camera depth i j)
    (for_loop i (fun x => for_loop samples (shade_sample scene camera depth x j))
       (for_loop j (shading_row scene camera samples depth) (Image_new w h, g))).

End Schedules.


(** ** Terms for further properties of the integrator *)

(** The scene with another background: [backgroundMode], the background
    image and [backgroundColor] replaced, everything else kept. *)
Definition with_background {E : Engine} (scene : Scene E)
    (mode : Background) (image : Texture E) (color : vec3) : Scene E :=
  mkScene E (intersects scene) (objectMesh scene) (objectTexture scene)
          (lights scene) mode image color.

(** A generator that counts its draws: the state of [R] with the number of
    calls of [Random::Float] and of [Random::sampleSphere] made so far. *)
Record Draws := mkDraws { floats : nat; spheres : nat }.

Definition counted (R : Random) : Random :=
  mkRandom (Rng R * Draws)
    (fun s => let '(v, g') := Random_Float R (fst s) in
              (v, (g', mkDraws (S (floats (snd s))) (spheres (snd s)))))
    (fun s => let '(v, g') := Random_sampleSphere R (fst s) in
              (v, (g', mkDraws (floats (snd s)) (S (spheres (snd s)))))).

(** The draws made between two states of the shading pass: [n] samples
    were traced from [s0] to [s], two jitter values each and at most
    [depth - 1] sphere samples each; the image kept its dimensions. *)
Definition drawn (depth n : nat) {R : Random}
    (s0 s : Image * Rng (counted R)) : Prop :=
  width (fst s) = width (fst s0) /\ height (fst s) = height (fst s0) /\
  floats (snd (snd s)) = (floats (snd (snd s0)) + 2 * n)%nat /\
  (spheres (snd (snd s)) <= spheres (snd (snd s0)) + n * (depth - 1))%nat.

(** The pixel updates of the normalisation pass (lines 207-208), run in the
    order of a list of positions (x, y). *)
Definition normalize_pixels {E : Engine} (samples : nat) (order : list (nat * nat))
    (render : Image) : Image :=
  fold_left (fun img p => normalize_pixel (E := E) samples (snd p) (fst p) img) order render.

(** ** The command line ([RaytracerConfig], main.cpp, lines 25-70)

    The constructor reads the arguments the base class [Config] has split
    into keys and values ([_rawArguments]), converts the numbers with
    [std::stoi] and builds a default output path with [std::to_string]. *)

(** *** Exceptions

    A call returns a value or throws; a statement that throws ends the
    function it is in. *)

Inductive exception := invalid_argument | out_of_range.

Inductive outcome (A : Type) :=
  | Returns (a : A)
  | Throws (e : exception).
Arguments Returns {A}.
Arguments Throws {A}.

Definition bind {A B : Type} (m : outcome A) (k : A -> outcome B) : outcome B :=
  match m with
  | Returns a => k a
  | Throws e => Throws e
  end.

Notation "'let!' x := m 'in' k" := (bind m (fun x => k))
  (at level 10, x name, m at level 200, k at level 200).

(** [for(const auto & x : l) body(x)] over a state, with a body that may
    throw. *)
Fixpoint for_each {A S : Type} (body : S -> A -> outcome S) (l : list A) (s : S)
  : outcome S :=
  match l with
  | [] => Returns s
  | x :: l' => let! s' := body s x in for_each body l' s'
  end.

(** *** [std::stoi] and [std::to_string]

    The standard library is not part of the repository.  [std::stoi(str)]
    is [strtol] in base 10 narrowed to [int] ([string.conversions]): white
    space is skipped, an optional sign is read, then the longest run of
    decimal digits; what follows is ignored.  No digit at all throws
    [invalid_argument], a value that does not fit an [int] throws
    [out_of_range]. *)

Definition INT_MIN : Z := - 2 ^ 31.
Definition INT_MAX : Z := 2 ^ 31 - 1.

(** [isspace] in the C locale: space, and [\t \n \v \f \r]. *)
Definition isspace (c : Ascii.ascii) : bool :=
  let n := Ascii.N_of_ascii c in
  (n =? 32)%N || ((9 <=? n)%N && (n <=? 13)%N).

Definition digit_value (c : Ascii.ascii) : option Z :=
  let n := Z.of_N (Ascii.N_of_ascii c) in
  if (48 <=? n) && (n <=? 57) then Some (n - 48) else None.

Fixpoint skip_spaces (s : string) : string :=
  match s with
  | String c s' => if isspace c then skip_spaces s' else s
  | EmptyString => s
  end.

(** The value of the longest prefix of digits, [acc] being the value read
    so far ([None]: no digit yet). *)
Fixpoint read_digits (s : string) (acc : option Z) : option Z :=
  match s with
  | String c s' =>
      match digit_value c with
      | Some d => read_digits s' (Some (10 * default 0 acc + d))
      | None => acc
      end
  | EmptyString => acc
  end.

(** The sign, and what follows it. *)
Definition read_sign (s : string) : bool * string :=
  match s with
  | String c s' =>
      if Ascii.eqb c (Ascii.ascii_of_N 45) then (true, s')
      else if Ascii.eqb c (Ascii.ascii_of_N 43) then (false, s')
      else (false, s)
  | EmptyString => (false, s)
  end.

Definition stoi (str : string) : outcome Z :=
  let '(negative, s) := read_sign (skip_spaces str) in
  match read_digits s None with
  | None => Throws invalid_argument
  | Some n =>
      let v := if negative then - n else n in
      if (INT_MIN <=? v) && (v <=? INT_MAX) then Returns v else Throws out_of_range
  end.

(** [std::to_string] of an [int] or a [size_t]: decimal, with a minus sign
    for a negative number. *)
Definition to_string (n : Z) : string :=
  DecimalString.NilEmpty.string_of_int (Z.to_int n).

(** [size_t(n)] for an [int] [n]: [size_t] is 64 bits wide. *)
Definition size_t_of_int (n : Z) : Z := n mod 2 ^ 64.

(** *** The configuration *)

(** [KeyValues]: a key, its values, and the nested elements of a scene
    description (none on the command line). *)
#[warnings="-register-all"]
Inductive KeyValues := mkKeyValues {
  key : string;
  values : list string;
  elements : list KeyValues
}.

(** A command line argument. *)
Definition argument (key : string) (values : list string) : KeyValues :=
  mkKeyValues key values [].

(** [values[i]], read after the test on [values.size()]. *)
Definition value_at (values : list string) (i : nat) : string :=
  default EmptyString (values !! i).

Module RaytracerConfig.

(** The members of lines 64-68: [size] is a [glm::ivec2], [samples] and
    [depth] are [size_t]. *)
Record t := mk {
  size : Z * Z;
  samples : Z;
  depth : Z;
  outputPath : string;
  scene : string
}.

(** The member initialisers. *)
Definition initial : t := mk (1024, 1024) 8 5 EmptyString EmptyString.

(** Lines 32-46: one argument. *)
Definition process (c : t) (arg : KeyValues) : outcome t :=
  let key := key arg in
  let values := values arg in
  if String.eqb key "samples" && (1 <=? length values)%nat then
    let! n := stoi (value_at values 0) in
    Returns (mk (size c) (size_t_of_int n) (depth c) (outputPath c) (scene c))
  else if String.eqb key "depth" && (1 <=? length values)%nat then
    let! n := stoi (value_at values 0) in
    Returns (mk (size c) (samples c) (size_t_of_int n) (outputPath c) (scene c))
  else if String.eqb key "scene" && (1 <=? length values)%nat then
    Returns (mk (size c) (samples c) (depth c) (outputPath c) (value_at values 0))
  else if String.eqb key "output" && (1 <=? length values)%nat then
    Returns (mk (size c) (samples c) (depth c) (value_at values 0) (scene c))
  else if String.eqb key "wxh" && (2 <=? length values)%nat then
    let! w := stoi (value_at values 0) in
    let! h := stoi (value_at values 1) in
    Returns (mk (w, h) (samples c) (depth c) (outputPath c) (scene c))
  else Returns c.

(** Lines 50-51. *)
Definition default_path (c : t) : string :=
  "./test_" +:+ scene c +:+ "_" +:+ to_string (samples c) +:+ "_" +:+ to_string (depth c)
  +:+ "_" +:+ to_string (fst (size c)) +:+ "x" +:+ to_string (snd (size c)) +:+ ".png".

(** Lines 49-52: [if(outputPath.empty())]. *)
Definition set_default_path (c : t) : t :=
  match outputPath c with
  | EmptyString => mk (size c) (samples c) (depth c) (default_path c) (scene c)
  | _ => c
  end.

(** The constructor, from [_rawArguments] (the help texts of lines 55-60,
    which nothing in the program reads back, are left out). *)
Definition new (rawArguments : list KeyValues) : outcome t :=
  let! c := for_each process rawArguments initial in
  Returns (set_default_path c).

End RaytracerConfig.

(** *** The start of [main] (lines 81-89)

    [main] builds the configuration; it returns 0 at once when help was
    asked for ([config.showHelp()], a method of the base class), logs an
    error and returns 1 when no scene is named, and goes on to render
    otherwise. *)

Inductive Start :=
  | Exits (code : Z) (log : list string)
  | Renders (config : RaytracerConfig.t).

Definition main_start (showHelp : bool) (rawArguments : list KeyValues) : outcome Start :=
  let! config := RaytracerConfig.new rawArguments in
  if showHelp then Returns (Exits 0 [])
  else match RaytracerConfig.scene config with
       | EmptyString => Returns (Exits 1 ["Missing scene name."])
       | _ => Returns (Renders config)
       end.

(** *** What an argument can be *)

(** An argument without values, or whose key is none of the five (a lone
    value after "wxh" counts as none), changes nothing. *)
Definition unrecognised (arg : KeyValues) : Prop :=
  values arg = [] \/
  (key arg <> "samples" /\ key arg <> "depth" /\ key arg <> "scene" /\
   key arg <> "output" /\ (key arg <> "wxh" \/ (length (values arg) < 2)%nat)).

(** An argument whose number does not parse: the value of "samples" or
    "depth", or one of the two values of "wxh" ([e] is the exception of the
    first conversion that fails). *)
Definition bad_number (a : KeyValues) (e : exception) : Prop :=
  ((key a = "samples" \/ key a = "depth") /\
   exists v, values a !! 0%nat = Some v /\ stoi v = Throws e)
  \/ (key a = "wxh" /\
      exists v1 v2, values a !! 0%nat = Some v1 /\ values a !! 1%nat = Some v2 /\
        (stoi v1 = Throws e \/ ((exists n, stoi v1 = Returns n) /\ stoi v2 = Throws e))).

(** An argument that names no scene: another key, no value, or an empty
    value. *)
Definition names_no_scene (a : KeyValues) : Prop :=
  key a <> "scene" \/ values a !! 0%nat = None \/ values a !! 0%nat = Some "".

(** ** Directional lights ([DirectionalLight], engine/lights/DirectionalLight.cpp)

    The constructor and [update] compute the light's matrices with GLM; the
    remaining methods only issue OpenGL calls and are not modelled. *)

(** [glm::vec4], and [glm::mat4] as its four columns ([m[i]] is column [i],
    [m[i][j]] its component [j]). *)
Record vec4 := Vec4 { v4x : float; v4y : float; v4z : float; v4w : float }.
Record mat4 := Mat4 { col0 : vec4; col1 : vec4; col2 : vec4; col3 : vec4 }.

(** [-x] on a [float] and on a [glm::vec3]. *)
Definition fneg (x : float) : float := SFopp x.
Definition vneg (v : vec3) : vec3 := vmap fneg v.

(** [glm::cross(x, y)]. *)
Definition cross (x y : vec3) : vec3 :=
  Vec3 (fsub (fmul (vy x) (vz y)) (fmul (vy y) (vz x)))
       (fsub (fmul (vz x) (vx y)) (fmul (vz y) (vx x)))
       (fsub (fmul (vx x) (vy y)) (fmul (vx y) (vy x))).

(** [glm::lookAt(eye, center, up)] (right-handed, GLM's default): the rows
    of the rotation are [s], [u] and [-f]. *)
Definition lookAt (eye center up : vec3) : mat4 :=
  let f := normalize (vsub center eye) in
  let s := normalize (cross f up) in
  let u := cross s f in
  Mat4 (Vec4 (vx s) (vx u) (fneg (vx f)) fzero)
       (Vec4 (vy s) (vy u) (fneg (vy f)) fzero)
       (Vec4 (vz s) (vz u) (fneg (vz f)) fzero)
       (Vec4 (fneg (dot s eye)) (fneg (dot u eye)) (dot f eye) fone).

(** [glm::ortho(left, right, bottom, top, zNear, zFar)] (right-handed,
    depth in [-1, 1], GLM's default). *)
Definition ortho (left right bottom top zNear zFar : float) : mat4 :=
  let two := float_of_Z 2 in
  Mat4 (Vec4 (fdiv two (fsub right left)) fzero fzero fzero)
       (Vec4 fzero (fdiv two (fsub top bottom)) fzero fzero)
       (Vec4 fzero fzero (fdiv (fneg two) (fsub zFar zNear)) fzero)
       (Vec4 (fdiv (fneg (fadd right left)) (fsub right left))
             (fdiv (fneg (fadd top bottom)) (fsub top bottom))
             (fdiv (fneg (fadd zFar zNear)) (fsub zFar zNear))
             fone).

(** [v * s] and [a + b] on [glm::vec4], and the product of two matrices:
    column [j] of [m1 * m2] is
    [m1[0] * m2[j][0] + m1[1] * m2[j][1] + m1[2] * m2[j][2] + m1[3] * m2[j][3]]. *)
Definition v4muls (a : vec4) (s : float) : vec4 :=
  Vec4 (fmul (v4x a) s) (fmul (v4y a) s) (fmul (v4z a) s) (fmul (v4w a) s).
Definition v4add (a b : vec4) : vec4 :=
  Vec4 (fadd (v4x a) (v4x b)) (fadd (v4y a) (v4y b))
       (fadd (v4z a) (v4z b)) (fadd (v4w a) (v4w b)).
Definition mat_col (m1 : mat4) (c : vec4) : vec4 :=
  v4add (v4add (v4add (v4muls (col0 m1) (v4x c)) (v4muls (col1 m1) (v4y c)))
               (v4muls (col2 m1) (v4z c)))
        (v4muls (col3 m1) (v4w c)).
Definition mat_mul (m1 m2 : mat4) : mat4 :=
  Mat4 (mat_col m1 (col0 m2)) (mat_col m1 (col1 m2))
       (mat_col m1 (col2 m2)) (mat_col m1 (col3 m2)).

Module DirectionalLight.

(** The members the constructor and [update] write ([_color] belongs to the
    base class [Light]). *)
Record t := mk {
  _color : vec3;
  _lightDirection : vec3;
  _projectionMatrix : mat4;
  _viewMatrix : mat4;
  _mvp : mat4
}.

(** Lines 11-17. *)
Definition new (worldDirection color : vec3) (extent near far : float) : t :=
  let projectionMatrix := ortho (fneg extent) extent (fneg extent) extent near far in
  let viewMatrix := lookAt (vneg worldDirection) (Vec3 fzero fzero fzero)
                           (Vec3 fzero fone fzero) in
  mk color worldDirection projectionMatrix viewMatrix (mat_mul projectionMatrix viewMatrix).

(** Lines 80-84. *)
Definition update (l : t) (newDirection : vec3) : t :=
  let viewMatrix := lookAt (vneg newDirection) (Vec3 fzero fzero fzero)
                           (Vec3 fzero fone fzero) in
  mk (_color l) newDirection (_projectionMatrix l) viewMatrix
     (mat_mul (_projectionMatrix l) viewMatrix).

End DirectionalLight.

(** A direction along the y axis, as [(+-0, y, +-0)]. *)
Definition vertical (sx sz : bool) (y : float) : vec3 :=
  Vec3 (S754_zero sx) y (S754_zero sz).

(** Every entry of the rows [s] and [u] of a view matrix is NaN. *)
Definition rows_s_u_nan (m : mat4) : Prop :=
  v4x (col0 m) = fnan /\ v4x (col1 m) = fnan /\ v4x (col2 m) = fnan /\ v4x (col3 m) = fnan /\
  v4y (col0 m) = fnan /\ v4y (col1 m) = fnan /\ v4y (col2 m) = fnan /\ v4y (col3 m) = fnan.

(** [x] is a zero or NaN. *)
Definition zero_or_nan (x : float) : Prop := x = fnan \/ exists s, x = S754_zero s.

(** Every entry is NaN. *)
Definition nan4 : vec4 := Vec4 fnan fnan fnan fnan.
Definition nan_matrix : mat4 := Mat4 nan4 nan4 nan4 nan4.

(** ** Scene objects ([Object], engine/scene/Object.cpp)

    [decode] reads an object from a scene description, [update] runs its
    animations.  What they call in the engine is not in the sources: the
    decoders of [Codable], the resources manager and [Animation]; they are
    the fields of [Decoders], and nothing is assumed about them.  Meshes and
    textures are handled through pointers, which stay abstract. *)

(** [double] values are only passed along. *)
Definition double := spec_float.

Record Decoders := mkDecoders {
  Storage : Type;
  MeshInfos : Type;
  TextureInfos : Type;
  Animation : Type;
  (** [Codable::decodeTransformation(params.elements)] *)
  decodeTransformation : list KeyValues -> mat4;
  (** [Resources::manager().getMesh(name, mode)] *)
  getMesh : string -> Storage -> MeshInfos;
  (** [Codable::decodeBool(param)] *)
  decodeBool : KeyValues -> bool;
  (** [Codable::decodeTexture(param, mode)] *)
  decodeTexture : KeyValues -> Storage -> TextureInfos;
  (** [Animation::decode(param.elements)] *)
  Animation_decode : list KeyValues -> list Animation;
  (** [anim->apply(model, fullTime, frameTime)] *)
  Animation_apply : Animation -> mat4 -> double -> double -> mat4
}.

Module Object.

(** [Object::Type], as far as [decode] names it (lines 15-20). *)
Inductive Type_ := Common | PBRRegular | PBRParallax | PBRNoUVs.

(** The map [types]: [types.count(name) > 0] and [types.at(name)]. *)
Definition types : list (string * Type_) :=
  [("Common", Common); ("PBRRegular", PBRRegular);
   ("PBRParallax", PBRParallax); ("PBRNoUVs", PBRNoUVs)].

Fixpoint types_at (m : list (string * Type_)) (name : string) : option Type_ :=
  match m with
  | [] => None
  | (k, v) :: m' => if String.eqb name k then Some v else types_at m' name
  end.

Section WithDecoders.

Context {D : Decoders}.

Record t := mk {
  _mesh : MeshInfos D;
  _textures : list (TextureInfos D);
  _animations : list (Animation D);
  _model : mat4;
  _material : Type_;
  _castShadow : bool;
  _twoSided : bool;
  _masked : bool
}.

(** Lines 56-58 and 60-62. *)
Definition addTexture (o : t) (infos : TextureInfos D) : t :=
  mk (_mesh o) (_textures o ++ [infos]) (_animations o) (_model o) (_material o)
     (_castShadow o) (_twoSided o) (_masked o).

Definition addAnimation (o : t) (anim : Animation D) : t :=
  mk (_mesh o) (_textures o) (_animations o ++ [anim]) (_model o) (_material o)
     (_castShadow o) (_twoSided o) (_masked o).

(** Lines 27-52: one parameter. *)
Definition decode_param (mode : Storage D) (o : t) (param : KeyValues) : t :=
  if String.eqb (key param) "type" && negb (length (values param) =? 0)%nat then
    let typeString := value_at (values param) 0 in
    match types_at types typeString with
    | Some ty =>
        mk (_mesh o) (_textures o) (_animations o) (_model o) ty
           (_castShadow o) (_twoSided o) (_masked o)
    | None => o
    end
  else if String.eqb (key param) "mesh" && negb (length (values param) =? 0)%nat then
    let meshString := value_at (values param) 0 in
    mk (getMesh D meshString mode) (_textures o) (_animations o) (_model o) (_material o)
       (_castShadow o) (_twoSided o) (_masked o)
  else if String.eqb (key param) "shadows" then
    mk (_mesh o) (_textures o) (_animations o) (_model o) (_material o)
       (decodeBool D param) (_twoSided o) (_masked o)
  else if String.eqb (key param) "textures" then
    fold_left (fun o' paramTex => addTexture o' (decodeTexture D paramTex mode))
              (elements param) o
  else if String.eqb (key param) "animations" then
    mk (_mesh o) (_textures o) (Animation_decode D (elements param)) (_model o) (_material o)
       (_castShadow o) (_twoSided o) (_masked o)
  else if String.eqb (key param) "twosided" then
    mk (_mesh o) (_textures o) (_animations o) (_model o) (_material o)
       (_castShadow o) (decodeBool D param) (_masked o)
  else if String.eqb (key param) "masked" then
    mk (_mesh o) (_textures o) (_animations o) (_model o) (_material o)
       (_castShadow o) (_twoSided o) (decodeBool D param)
  else o.

(** Lines 12-54. *)
Definition decode (o : t) (params : KeyValues) (mode : Storage D) : t :=
  let o1 := mk (_mesh o) (_textures o) (_animations o)
               (decodeTransformation D (elements params)) (_material o)
               (_castShadow o) (_twoSided o) (_masked o) in
  fold_left (decode_param mode) (elements params) o1.

(** Lines 64-70. *)
Definition update (o : t) (fullTime frameTime : double) : t :=
  let model := fold_left (fun model anim => Animation_apply D anim model fullTime frameTime)
                         (_animations o) (_model o) in
  mk (_mesh o) (_textures o) (_animations o) model (_material o)
     (_castShadow o) (_twoSided o) (_masked o).

(** The textures a parameter describes, and the type it names. *)
Definition described_textures (mode : Storage D) (param : KeyValues) : list (TextureInfos D) :=
  if String.eqb (key param) "textures"
  then map (fun paramTex => decodeTexture D paramTex mode) (elements param)
  else [].

Definition named_type (param : KeyValues) : option Type_ :=
  if String.eqb (key param) "type"
  then match values param with
       | typeString :: _ => types_at types typeString
       | [] => None
       end
  else None.

End WithDecoders.

Arguments t : clear implicits.

End Object.

(** Decoders over strings, to run [decode] on: a texture is the key of its
    description, an animation the key of its description; applying an
    animation keeps the matrix. *)
Definition text_decoders : Decoders :=
  mkDecoders unit string string string
    (fun _ => Mat4 (Vec4 fone fzero fzero fzero) (Vec4 fzero fone fzero fzero)
                   (Vec4 fzero fzero fone fzero) (Vec4 fzero fzero fzero fone))
    (fun name _ => name)
    (fun p => match values p with v :: _ => String.eqb v "true" | [] => false end)
    (fun p _ => key p)
    (map key)
    (fun _ m _ _ => m).

(** ** Frame timing (atmosphere demo, apps/atmosphere/main.cpp)

    The display loop of [main] keeps the last [frameCount] frame times in a
    ring ([timings], lines 72-76 and 99-104).  [double] is IEEE-754
    binary64; [unsigned int] is 32 bits wide. *)

Definition dzero : double := S754_zero false.
Definition dadd : double -> double -> double := SFadd 53 1024.
Definition dsub : double -> double -> double := SFsub 53 1024.
Definition dmul : double -> double -> double := SFmul 53 1024.
(** The literal [1000.0]. *)
Definition d1000 : double := binary_normalize 53 1024 1000 0 false.

Definition frameCount : Z := 20.

(** Arithmetic on [unsigned int]. *)
Definition unsigned_int (n : Z) : Z := n mod 2 ^ 32.

(** [timings], [currentTiming] and [smoothedFrameTime]. *)
Record Timing := mkTiming {
  timings : list double;
  currentTiming : Z;
  smoothedFrameTime : double
}.

(** Lines 74-76. *)
Definition Timing_start : Timing :=
  mkTiming (replicate (Z.to_nat frameCount) dzero) 0 dzero.

(** Lines 100-103, for a frame that took [frameTime].  [timings[i]] is
    [std::vector::operator[]], which checks nothing: an index outside the
    vector has no defined behaviour, and the step has no result. *)
Definition Timing_frame (frameTime : double) (t : Timing) : option Timing :=
  let i := Z.to_nat (currentTiming t) in
  match timings t !! i with
  | None => None
  | Some old =>
      let smoothed := dsub (smoothedFrameTime t) old in
      let timings' := <[i := dmul d1000 frameTime]> (timings t) in
      match timings' !! i with
      | None => None
      | Some new =>
          Some (mkTiming timings'
                  (unsigned_int (currentTiming t + 1) mod frameCount)
                  (dadd smoothed new))
      end
  end.

(** The frames of a run, one after the other. *)
Definition Timing_frames (frameTimes : list double) (t : Timing) : option Timing :=
  fold_left (fun ot frameTime =>
               match ot with Some t' => Timing_frame frameTime t' | None => None end)
            frameTimes (Some t).

(** ** [System::hslToRgb] (engine/helpers/System.cpp, lines 306-337)

    The conversion is written with [std::abs], [std::floor] and [std::fmod]
    on [float], the conversion of a [float] to [int], and [%] on [int].
    The three library functions are exact (their result is a binary32
    number, no rounding takes place); they are written out below. *)

(** [std::abs]. *)
Definition fabs (x : float) : float := SFabs x.

(** [std::floor]: the largest integer not above [x], as a [float]; zeros,
    infinities and NaN are returned as they are. *)
Definition ffloor (x : float) : float :=
  match x with
  | S754_finite s m e =>
      if 0 <=? e then x
      else
        let q := Z.pos m / 2 ^ (- e) in
        let exact := Z.pos m mod 2 ^ (- e) =? 0 in
        if s then binary_normalize prec emax (- (if exact then q else q + 1)) 0 true
        else binary_normalize prec emax q 0 false
  | _ => x
  end.

(** [std::fmod(x, y)]: [x - n * y] for the integer [n] obtained by
    truncating [x / y], computed exactly; the result has the sign of [x].
    NaN when [x] is infinite or [y] is zero. *)
Definition ffmod (x y : float) : float :=
  match x, y with
  | S754_nan, _ => fnan
  | _, S754_nan => fnan
  | S754_infinity _, _ => fnan
  | _, S754_zero _ => fnan
  | S754_zero _, _ => x
  | S754_finite _ _ _, S754_infinity _ => x
  | S754_finite sx mx ex, S754_finite _ my ey =>
      let e := Z.min ex ey in
      let r := (Z.pos mx * 2 ^ (ex - e)) mod (Z.pos my * 2 ^ (ey - e)) in
      binary_normalize prec emax (if sx then - r else r) e sx
  end.

(** [int(x)]: the fractional part is discarded; the conversion has no
    defined behaviour when the result does not fit an [int], or for an
    infinity or NaN. *)
Definition int_of_float (x : float) : option Z :=
  match x with
  | S754_zero _ => Some 0
  | S754_finite s m e =>
      let v := if 0 <=? e then Z.pos m * 2 ^ e else Z.pos m / 2 ^ (- e) in
      let n := if s then - v else v in
      if (INT_MIN <=? n) && (n <=? INT_MAX) then Some n else None
  | _ => None
  end.

(** The literals [60.0f], [2.0f] and [0.5f]. *)
Definition f60 : float := float_of_Z 60.
Definition f2 : float := float_of_Z 2.
Definition f0_5 : float := S754_finite false 8388608 (-24).

(** The local variables [chroma], [hue], [id], [x], [base] and [m]. *)
Definition hsl_chroma (hsl : vec3) : float :=
  fmul (fsub fone (fabs (fsub (fmul f2 (vz hsl)) fone))) (vy hsl).

Definition hsl_hue (hsl : vec3) : float := fdiv (vx hsl) f60.

(** [a % b] on [int] truncates towards zero: [Z.rem]. *)
Definition hsl_id (hsl : vec3) : option Z :=
  match int_of_float (ffloor (hsl_hue hsl)) with
  | Some n => Some (Z.rem n 6)
  | None => None
  end.

Definition hsl_x (hsl : vec3) : float :=
  fmul (hsl_chroma hsl)
       (fsub fone (fabs (fsub (ffmod (hsl_hue hsl) f2) fone))).

Definition hsl_base (chroma x : float) (id : Z) : vec3 :=
  match id with
  | 0 => Vec3 chroma x fzero
  | 1 => Vec3 x chroma fzero
  | 2 => Vec3 fzero chroma x
  | 3 => Vec3 fzero x chroma
  | 4 => Vec3 x fzero chroma
  | 5 => Vec3 chroma fzero x
  | _ => Vec3 fzero fzero fzero
  end.

Definition hsl_m (hsl : vec3) : float :=
  fsub (vz hsl) (fmul (hsl_chroma hsl) f0_5).

(** [m + base] adds the scalar to each component. *)
Definition hslToRgb (hsl : vec3) : option vec3 :=
  match hsl_id hsl with
  | Some id =>
      let base := hsl_base (hsl_chroma hsl) (hsl_x hsl) id in
      let m := hsl_m hsl in
      Some (Vec3 (fadd m (vx base)) (fadd m (vy base)) (fadd m (vz base)))
  | None => None
  end.

(** A zero, or a well-formed number below [2^K] in magnitude. *)
Definition small (K : Z) (x : float) : Prop :=
  match x with
  | S754_zero _ => True
  | S754_finite _ m e => valid x = true /\ digits (Z.pos m) + e <= K
  | _ => False
  end.

(** The sign of [x] is [s], unless [x] is a zero or NaN. *)
Definition signed (s : bool) (x : float) : Prop :=
  match x with
  | S754_finite s' _ _ => s' = s
  | S754_infinity s' => s' = s
  | _ => True
  end.

(** ** Shadow map passes (engine/renderers/shadowmaps/VarianceShadowMapArray.cpp)

    [draw] renders the objects of the scene into one layer of a texture
    array per light (six per point light).  The OpenGL state is not
    modelled: a pass is the sequence of calls it makes on [GLUtilities], on
    the framebuffer [_map], on [_program] and on [_blur].  Lights, bounding
    boxes and the frustum test are the engine's. *)

Record ShadowEngine := mkShadowEngine {
  (** [Light] and [PointLight], as far as the passes read them *)
  ShadowLight : Type;
  castsShadow : ShadowLight -> bool;
  vp : ShadowLight -> mat4;
  (** [light->vpFaces()[i]], for a face [i] below 6 *)
  vpFaces : ShadowLight -> nat -> mat4;
  position : ShadowLight -> vec3;
  farPlane : ShadowLight -> float;
  BoundingBox : Type;
  (** [Frustum(vp).intersects(box)] *)
  frustum_intersects : mat4 -> BoundingBox -> bool;
  (** the decoders the scene's objects were read with *)
  decoders : Decoders;
  (** [_mesh->bbox.transformed(_model)], [Object::boundingBox] *)
  boundingBox : Object.t decoders -> BoundingBox
}.

(** The calls of a pass. *)
Inductive GLCall (G : ShadowEngine) :=
  | setDepthState (test write : bool)
  | setBlendState (blend : bool)
  | setCullState (cull : bool)
  | setViewport
  | useProgram
  (** [_map->bind(layer)] *)
  | bindLayer (layer : nat)
  | clearColorAndDepth
  | uniform_bool (name : string) (value : bool)
  | uniform_mat4 (name : string) (value : mat4)
  | uniform_vec3 (name : string) (value : vec3)
  | uniform_float (name : string) (value : float)
  (** [bindTexture(object.textures()[0], 0)]; [None] when the object has no
      texture, where [textures()[0]] has no defined behaviour *)
  | bindTexture (texture : option (TextureInfos (decoders G)))
  | drawMesh (mesh : MeshInfos (decoders G))
  (** [_blur->process(_map->texture(), *_map)] *)
  | blurProcess.
Arguments setDepthState {G}.
Arguments setBlendState {G}.
Arguments setCullState {G}.
Arguments setViewport {G}.
Arguments useProgram {G}.
Arguments bindLayer {G}.
Arguments clearColorAndDepth {G}.
Arguments uniform_bool {G}.
Arguments uniform_mat4 {G}.
Arguments uniform_vec3 {G}.
Arguments uniform_float {G}.
Arguments bindTexture {G}.
Arguments drawMesh {G}.
Arguments blurProcess {G}.

Section ShadowMaps.

Context {G : ShadowEngine}.
Variable objects : list (Object.t (decoders G)).




(** [VarianceShadowMapCubeArray::draw], lines 95-113: one object on the
    face of matrix [face]. *)
Definition draw_object_cube (face : mat4) (object : Object.t (decoders G)) : list (GLCall G) :=
  if negb (Object._castShadow object) then []
  else if negb (frustum_intersects G face (boundingBox G object)) then []
  else
    [setCullState (negb (Object._twoSided object));
     uniform_mat4 "mvp" (mat_mul face (Object._model object));
     uniform_mat4 "m" (Object._model object);
     uniform_bool "hasMask" (Object._masked object)]
    ++ (if Object._masked object then [bindTexture (Object._textures object !! 0%nat)] else [])
    ++ [drawMesh (Object._mesh object)].

(** Lines 89-114: face [i] of the light of index [lid]. *)
Definition draw_face (lid : nat) (faces : nat -> mat4) (i : nat) : list (GLCall G) :=
  [bindLayer (lid * 6 + i); clearColorAndDepth]
  ++ flat_map (draw_object_cube (faces i)) objects.

(** Lines 78-115. *)
Definition draw_light_cube (lid : nat) (light : ShadowLight G) : list (GLCall G) :=
  if negb (castsShadow G light) then []
  else
    [uniform_vec3 "lightPositionWorld" (position G light);
     uniform_float "lightFarPlane" (farPlane G light)]
    ++ flat_map (draw_face lid (vpFaces G light)) (seq 0 6).

(** Lines 70-118. *)
Definition draw_cube (lights : list (ShadowLight G)) : list (GLCall G) :=
  [setDepthState true true; setCullState true; setBlendState false;
   setViewport; useProgram]
  ++ concat (imap draw_light_cube lights)
  ++ [blurProcess].

End ShadowMaps.

(** The layers a pass binds, and the meshes it draws, in order. *)
Definition bound_layers {G : ShadowEngine} (calls : list (GLCall G)) : list nat :=
  omap (fun c => match c with bindLayer layer => Some layer | _ => None end) calls.


(** ** The rest of [main] (raytracerdemo/main.cpp, lines 97-219)

    Past line 89 [main] loads the scene, renders an image of
    [config.size] with [config.samples] samples per pixel and paths of
    [config.depth] bounces, and saves it at [config.outputPath].  The scene
    loader and the camera are the engine's: the loaded scene with its ray
    caster, the camera and the seeded generator are given.  Nothing is said
    of a negative size ([Image]'s constructor is not in the sources): the
    run has no result then. *)
Definition main_render {E : Engine} {R : Random} (scene : Scene E) (camera : Camera)
    (seed : Rng R) (config : RaytracerConfig.t) : option (string * Image) :=
  let w := fst (RaytracerConfig.size config) in
  let h := snd (RaytracerConfig.size config) in
  if (0 <=? w) && (0 <=? h) then
    Some (RaytracerConfig.outputPath config,
          fst (render scene camera
                 (Z.to_nat (RaytracerConfig.samples config))
                 (Z.to_nat (RaytracerConfig.depth config))
                 (Z.to_nat w) (Z.to_nat h) seed))
  else None.

(** ** Key events ([Renderer::keyPressed], Renderer.cpp, lines 259-269)

    The renderer forwards key events to the camera and reloads the
    resources when P is released.  [GLFW_RELEASE], [GLFW_PRESS] and
    [GLFW_KEY_P] are GLFW's constants. *)

Definition GLFW_RELEASE : Z := 0.
Definition GLFW_PRESS : Z := 1.
Definition GLFW_KEY_P : Z := 80.

(** The calls [keyPressed] makes: [_camera.key(key, pressed)] and
    [Resources::manager().reload()]. *)
Inductive KeyCall :=
  | camera_key (key : Z) (pressed : bool)
  | resources_reload.

Definition keyPressed (key action : Z) : list KeyCall :=
  if action =? GLFW_PRESS then [camera_key key true]
  else if action =? GLFW_RELEASE then
    if key =? GLFW_KEY_P then [resources_reload]
    else [camera_key key false]
  else [].

(** The calls made over a sequence of events (key, action). *)
Definition keyEvents (events : list (Z * Z)) : list KeyCall :=
  flat_map (fun e => keyPressed (fst e) (snd e)) events.

(** * The arithmetic on a few values *)

Example fone_is_one : float_of_Z 1 = fone.
Proof. reflexivity. Qed.

Example zero_div_zero : fdiv fzero (float_of_nat 0) = fnan.
Proof. reflexivity. Qed.

Example inv_gamma_value : inv_gamma = S754_finite false 15252014 (-25).
Proof. reflexivity. Qed.

Example normalize_zero : normalize (vec3_of fzero) = vec3_of fnan.
Proof. reflexivity. Qed.

Example pow_of_zero (pw : float -> float -> float) : powf pw fzero inv_gamma = fzero.
Proof. reflexivity. Qed.

Example pow_of_nan (pw : float -> float -> float) : powf pw fnan inv_gamma = fnan.
Proof. reflexivity. Qed.

(** * Loops and the image buffer *)

Lemma for_loop_S {S : Type} (n : nat) (body : nat -> S -> S) (s : S) :
  for_loop (Datatypes.S n) body s = body n (for_loop n body s).
Proof.
  unfold for_loop. rewrite seq_S, fold_left_app. reflexivity.
Qed.

(** The loop rule: an invariant indexed by the number of iterations done. *)
Lemma for_loop_invariant {S : Type} (I : nat -> S -> Prop) (n : nat)
      (body : nat -> S -> S) (s : S) :
  I O s ->
  (forall i st, (i < n)%nat -> I i st -> I (Datatypes.S i) (body i st)) ->
  I n (for_loop n body s).
Proof.
  intros H0 Hstep. induction n as [|n IH].
  - exact H0.
  - rewrite for_loop_S. apply Hstep; [lia|].
    apply IH. intros i st Hi. apply Hstep. lia.
Qed.

Lemma forParallel_from_zero {S : Type} (n : nat) (worker : nat -> S -> S) (s : S) :
  forParallel 0 n worker s = for_loop n worker s.
Proof.
  unfold forParallel, for_loop. rewrite Nat.sub_0_r. reflexivity.
Qed.

Lemma wf_Image_new (w h : nat) : wf_image (Image_new w h).
Proof. unfold wf_image, Image_new. simpl. apply length_replicate. Qed.

Lemma pixel_index_lt (img : Image) (x y : nat) :
  wf_image img -> (x < width img)%nat -> (y < height img)%nat ->
  (pixel_index img x y < length (pixels img))%nat.
Proof.
  unfold wf_image, pixel_index. intros -> Hx Hy.
  assert ((1 + y) * width img <= height img * width img)%nat
    by (apply Nat.mul_le_mono_r; lia).
  lia.
Qed.

Lemma pixel_index_inj (img : Image) (x y x' y' : nat) :
  (x < width img)%nat -> (x' < width img)%nat ->
  pixel_index img x y = pixel_index img x' y' -> x = x' /\ y = y'.
Proof.
  unfold pixel_index. intros Hx Hx' Heq.
  destruct (Nat.lt_trichotomy y y') as [Hlt|[Heq'|Hgt]].
  - assert ((1 + y) * width img <= y' * width img)%nat
      by (apply Nat.mul_le_mono_r; lia). lia.
  - subst y'. lia.
  - assert ((1 + y') * width img <= y * width img)%nat
      by (apply Nat.mul_le_mono_r; lia). lia.
Qed.

Lemma width_set_rgb img x y c : width (set_rgb img x y c) = width img.
Proof. reflexivity. Qed.

Lemma height_set_rgb img x y c : height (set_rgb img x y c) = height img.
Proof. reflexivity. Qed.

Lemma wf_set_rgb img x y c : wf_image img -> wf_image (set_rgb img x y c).
Proof. unfold wf_image, set_rgb. simpl. rewrite length_insert. auto. Qed.

Lemma rgb_set_rgb_same img x y c :
  wf_image img -> (x < width img)%nat -> (y < height img)%nat ->
  rgb (set_rgb img x y c) x y = c.
Proof.
  intros Hwf Hx Hy. unfold rgb, set_rgb, pixel_index. simpl.
  rewrite list_lookup_insert_eq; [reflexivity|].
  apply (pixel_index_lt img x y); assumption.
Qed.

Lemma rgb_set_rgb_other img x y c x' y' :
  (x < width img)%nat -> (x' < width img)%nat -> (x <> x' \/ y <> y') ->
  rgb (set_rgb img x y c) x' y' = rgb img x' y'.
Proof.
  intros Hx Hx' Hne. unfold rgb, set_rgb. simpl.
  change (pixel_index (mkImage (width img) (height img) _) x' y')
    with (pixel_index img x' y').
  rewrite list_lookup_insert_ne; [reflexivity|].
  intros Heq. apply pixel_index_inj in Heq; [|assumption..]. lia.
Qed.

Lemma rgb_Image_new (w h x y : nat) : rgb (Image_new w h) x y = vec3_of fzero.
Proof.
  unfold rgb, Image_new. simpl.
  destruct (replicate (w * h) (vec3_of fzero) !! _) as [c|] eqn:Hl; [|reflexivity].
  apply lookup_replicate in Hl. simpl. tauto.
Qed.

(** Writing back the value a pixel already holds changes nothing. *)
Lemma set_rgb_id img x y :
  wf_image img -> (x < width img)%nat -> (y < height img)%nat ->
  set_rgb img x y (rgb img x y) = img.
Proof.
  intros Hwf Hx Hy. unfold set_rgb, rgb. destruct img as [w h px]. simpl in *.
  f_equal.
  destruct (px !! pixel_index (mkImage w h px) x y) as [c|] eqn:Hl.
  - simpl. apply list_insert_id. exact Hl.
  - apply lookup_ge_None in Hl.
    pose proof (pixel_index_lt (mkImage w h px) x y Hwf Hx Hy). simpl in *. lia.
Qed.

(** Two images of the same shape that agree at every position are equal. *)
Lemma image_ext (a b : Image) :
  width a = width b -> height a = height b -> wf_image a -> wf_image b ->
  (forall x y, (x < width a)%nat -> (y < height a)%nat -> rgb a x y = rgb b x y) ->
  a = b.
Proof.
  destruct a as [wa ha pa], b as [wb hb pb]. unfold wf_image, rgb, pixel_index. simpl.
  intros <- <- Ha Hb Hpix. f_equal.
  apply list_eq_same_length with (n := (wa * ha)%nat); [assumption|assumption|].
  intros i va vb Hi Hva Hvb.
  assert (Hw : (0 < wa)%nat) by (destruct wa; [simpl in Hi; lia|lia]).
  assert (Hx : (i mod wa < wa)%nat) by (apply Nat.mod_upper_bound; lia).
  assert (Hy : (i / wa < ha)%nat) by (apply Nat.Div0.div_lt_upper_bound; lia).
  specialize (Hpix (i mod wa)%nat (i / wa)%nat Hx Hy).
  replace (i / wa * wa + i mod wa)%nat with i in Hpix
    by (rewrite (Nat.div_mod_eq i wa) at 1; lia).
  rewrite Hva, Hvb in Hpix. exact Hpix.
Qed.

(** Two runs of a loop, kept in step by a relation. *)
Lemma for_loop_rel {S1 S2 : Type} (Rel : nat -> S1 -> S2 -> Prop) (n : nat)
      (body1 : nat -> S1 -> S1) (body2 : nat -> S2 -> S2) (s1 : S1) (s2 : S2) :
  Rel O s1 s2 ->
  (forall i a b, (i < n)%nat -> Rel i a b -> Rel (Datatypes.S i) (body1 i a) (body2 i b)) ->
  Rel n (for_loop n body1 s1) (for_loop n body2 s2).
Proof.
  intros H0 Hstep. induction n as [|n IH].
  - exact H0.
  - rewrite !for_loop_S. apply Hstep; [lia|].
    apply IH. intros i a b Hi. apply Hstep. lia.
Qed.

(** * The normalisation and gamma pass *)

Section GammaPass.

Context {E : Engine}.
Variable samples : nat.

Lemma gamma_row_spec (y : nat) (img : Image) :
  wf_image img -> (y < height img)%nat ->
  same_shape (gamma_row (E := E) samples y img) img /\
  forall x' y', (x' < width img)%nat ->
    rgb (gamma_row (E := E) samples y img) x' y' =
    if decide (y' = y) then gamma_encode (E := E) samples (rgb img x' y') else rgb img x' y'.
Proof.
  intros Hwf Hy. unfold gamma_row.
  pose (I := fun (i : nat) (st : Image) =>
    same_shape st img /\
    forall x' y', (x' < width img)%nat ->
      rgb st x' y' =
      if decide (y' = y /\ (x' < i)%nat) then gamma_encode (E := E) samples (rgb img x' y')
      else rgb img x' y').
  assert (HI : I (width img) (for_loop (width img) (normalize_pixel (E := E) samples y) img)).
  { apply for_loop_invariant.
    - split; [repeat split; auto|]. intros x' y' _.
      destruct (decide _) as [[_ H]|]; [lia|reflexivity].
    - intros i st Hi [(Hw & Hh & Hwf') Hpix]. split.
      + unfold normalize_pixel. repeat split; simpl; auto using wf_set_rgb.
      + intros x' y' Hx'. unfold normalize_pixel.
        destruct (decide (i = x' /\ y = y')) as [[-> ->]|Hne].
        * rewrite rgb_set_rgb_same by (auto; lia).
          rewrite Hpix by lia.
          destruct (decide (y' = y' /\ (x' < x')%nat)) as [[_ ?]|_]; [lia|].
          destruct (decide (y' = y' /\ (x' < Datatypes.S x')%nat)) as [_|Hn]; [|lia].
          reflexivity.
        * rewrite rgb_set_rgb_other;
            [ | lia | lia | destruct (decide (i = x')); [right|left]; tauto ].
          rewrite Hpix by lia.
          destruct (decide (y' = y /\ (x' < i)%nat)) as [[-> ?]|Hn1];
            destruct (decide (_ /\ (x' < Datatypes.S i)%nat)) as [[? ?]|Hn2];
            try reflexivity; try lia. }
  destruct HI as [Hshape Hpix]. split; [exact Hshape|].
  intros x' y' Hx'. rewrite Hpix by lia.
  destruct (decide (y' = y /\ (x' < width img)%nat)) as [[-> _]|Hn];
    destruct (decide (_ = y)) as [?|?]; try reflexivity; try lia; tauto.
Qed.

Lemma gamma_pass_spec (img : Image) :
  wf_image img ->
  same_shape (gamma_pass (E := E) samples img) img /\
  forall x y, (x < width img)%nat -> (y < height img)%nat ->
    rgb (gamma_pass (E := E) samples img) x y = gamma_encode (E := E) samples (rgb img x y).
Proof.
  intros Hwf. unfold gamma_pass. rewrite forParallel_from_zero.
  pose (J := fun (j : nat) (st : Image) =>
    same_shape st img /\
    forall x y, (x < width img)%nat ->
      rgb st x y = if decide (y < j)%nat then gamma_encode (E := E) samples (rgb img x y) else rgb img x y).
  assert (HJ : J (height img) (for_loop (height img) (gamma_row (E := E) samples) img)).
  { apply for_loop_invariant.
    - split; [repeat split; auto|]. intros x y _.
      destruct (decide _); [lia|reflexivity].
    - intros j st Hj [(Hw & Hh & Hwf') Hpix].
      destruct (gamma_row_spec j st Hwf' ltac:(lia)) as [(Hw2 & Hh2 & Hwf2) Hrow].
      split; [repeat split; auto; congruence|].
      intros x y Hx. rewrite Hrow by lia. rewrite !Hpix by lia.
      destruct (decide (y = j)) as [->|Hne].
      + destruct (decide (j < j)%nat); [lia|].
        destruct (decide (j < Datatypes.S j)%nat); [reflexivity|lia].
      + destruct (decide (y < j)%nat); destruct (decide (y < Datatypes.S j)%nat);
          try reflexivity; lia. }
  destruct HJ as [Hshape Hpix]. split; [exact Hshape|].
  intros x y Hx Hy. rewrite Hpix by lia.
  destruct (decide _); [reflexivity|lia].
Qed.

End GammaPass.

(** * The shading pass *)

Lemma set_rgb_set_rgb img x y a b :
  set_rgb (set_rgb img x y a) x y b = set_rgb img x y b.
Proof.
  unfold set_rgb. simpl.
  change (pixel_index (mkImage (width img) (height img) _) x y)
    with (pixel_index img x y).
  rewrite list_insert_insert_eq. reflexivity.
Qed.

Section ShadingPass.

Context {E : Engine} {R : Random}.
Variable scene : Scene E.
Variable camera : Camera.
Variables samples depth : nat.

Lemma accumulate_pixel_snoc old colors c :
  accumulate_pixel old (colors ++ [c]) = vadd (accumulate_pixel old colors) c.
Proof. unfold accumulate_pixel. rewrite fold_left_app. reflexivity. Qed.

Lemma shade_samples_spec (n x y : nat) (img : Image) (g : Rng R) :
  wf_image img -> (x < width img)%nat -> (y < height img)%nat ->
  for_loop n (shade_sample scene camera depth x y) (img, g) =
  (set_rgb img x y
     (accumulate_pixel (rgb img x y) (fst (samples_of scene camera depth n (width img) (height img) x y g))),
   snd (samples_of scene camera depth n (width img) (height img) x y g)).
Proof.
  intros Hwf Hx Hy. unfold samples_of. induction n as [|n IH].
  - simpl. rewrite set_rgb_id by assumption. reflexivity.
  - rewrite !for_loop_S, IH. clear IH.
    destruct (for_loop n _ ([], g)) as [cs g1].
    unfold shade_sample, sample_step. simpl.
    destruct (trace_sample _ _ _ _ _ _ _ g1) as [c g2]. simpl.
    rewrite rgb_set_rgb_same by assumption.
    rewrite set_rgb_set_rgb, accumulate_pixel_snoc. reflexivity.
Qed.

(** Row [y]: shape kept, the other rows untouched, and in row [y] each
    pixel gains its own samples. *)
Lemma shading_row_spec (y : nat) (img : Image) (g : Rng R) :
  wf_image img -> (y < height img)%nat ->
  let w := width img in
  let h := height img in
  let s' := shading_row scene camera samples depth y (img, g) in
  same_shape (fst s') img /\
  snd s' = row_rng scene camera samples depth w h y g w /\
  forall x' y', (x' < w)%nat ->
    rgb (fst s') x' y' =
    if decide (y' = y)
    then accumulate_pixel (rgb img x' y') (fst (pixel_samples scene camera samples depth w h x' y (row_rng scene camera samples depth w h y g x')))
    else rgb img x' y'.
Proof.
  intros Hwf Hy w h. unfold shading_row. simpl fst.
  pose (I := fun (i : nat) (st : Image * Rng R) =>
    same_shape (fst st) img /\
    snd st = row_rng scene camera samples depth w h y g i /\
    forall x' y', (x' < w)%nat ->
      rgb (fst st) x' y' =
      if decide (y' = y /\ (x' < i)%nat)
      then accumulate_pixel (rgb img x' y') (fst (pixel_samples scene camera samples depth w h x' y (row_rng scene camera samples depth w h y g x')))
      else rgb img x' y').
  assert (HI : I w (for_loop w
    (fun x => for_loop samples (shade_sample scene camera depth x y)) (img, g))).
  { apply for_loop_invariant.
    - split; [repeat split; auto|]. split; [reflexivity|]. intros x' y' _.
      destruct (decide _) as [[_ H]|]; [lia|reflexivity].
    - intros i [st gi] Hi [(Hw & Hh & Hwf') [Hg Hpix]]. simpl in *.
      rewrite shade_samples_spec by (auto; lia). simpl.
      rewrite Hw, Hh. fold (pixel_samples scene camera samples depth w h i y gi). subst gi.
      unfold I. simpl fst. simpl snd.
      split; [split; [|split]; simpl; auto using wf_set_rgb|].
      split; [unfold row_rng; rewrite for_loop_S; reflexivity|].
      intros x' y' Hx'.
      destruct (decide (i = x' /\ y = y')) as [[-> ->]|Hne].
      + rewrite rgb_set_rgb_same by (auto; lia).
        rewrite Hpix by lia.
        destruct (decide (y' = y' /\ (x' < x')%nat)) as [[_ ?]|_]; [lia|].
        destruct (decide (y' = y' /\ (x' < Datatypes.S x')%nat)) as [_|Hn]; [|lia].
        reflexivity.
      + rewrite rgb_set_rgb_other;
          [ | lia | lia | destruct (decide (i = x')); [right|left]; tauto ].
        rewrite Hpix by lia.
        destruct (decide (y' = y /\ (x' < i)%nat)) as [[-> ?]|Hn1];
          destruct (decide (_ /\ (x' < Datatypes.S i)%nat)) as [[? ?]|Hn2];
          try reflexivity; try lia. }
  destruct HI as [Hshape [Hg Hpix]]. split; [exact Hshape|]. split; [exact Hg|].
  intros x' y' Hx'. rewrite Hpix by lia.
  destruct (decide (y' = y /\ (x' < w)%nat)) as [[-> _]|Hn];
    destruct (decide (_ = y)) as [?|?]; try reflexivity; try lia; tauto.
Qed.

(** The whole pass: every pixel holds what it held plus its samples. *)
Lemma shading_pass_spec (img : Image) (g : Rng R) :
  wf_image img ->
  let s' := shading_pass scene camera samples depth img g in
  same_shape (fst s') img /\
  snd s' = pass_rng scene camera samples depth (width img) (height img) g (height img) /\
  forall x y, (x < width img)%nat -> (y < height img)%nat ->
    rgb (fst s') x y = accumulated scene camera samples depth img g x y.
Proof.
  intros Hwf. unfold shading_pass. rewrite forParallel_from_zero.
  set (w := width img). set (h := height img).
  pose (J := fun (j : nat) (st : Image * Rng R) =>
    same_shape (fst st) img /\
    snd st = pass_rng scene camera samples depth w h g j /\
    forall x y, (x < w)%nat ->
      rgb (fst st) x y = if decide (y < j)%nat then accumulated scene camera samples depth img g x y else rgb img x y).
  assert (HJ : J h (for_loop h (shading_row scene camera samples depth) (img, g))).
  { apply for_loop_invariant.
    - split; [repeat split; auto|]. split; [reflexivity|]. intros x y _.
      destruct (decide _); [lia|reflexivity].
    - intros j [st gj] Hj [(Hw & Hh & Hwf') [Hg Hpix]]. simpl in *.
      destruct (shading_row_spec j st gj Hwf' ltac:(lia)) as [(Hw2 & Hh2 & Hwf2) [Hg2 Hrow]].
      rewrite Hw, Hh in *. fold w h in Hg2, Hrow.
      unfold J. simpl fst. simpl snd.
      split; [split; [|split]; auto; congruence|].
      split; [rewrite Hg2, Hg; unfold pass_rng; rewrite for_loop_S; reflexivity|].
      intros x y Hx. rewrite Hrow by lia. rewrite !Hpix by lia.
      destruct (decide (y = j)) as [->|Hne].
      + destruct (decide (j < j)%nat); [lia|].
        destruct (decide (j < Datatypes.S j)%nat); [|lia].
        unfold accumulated. fold w h. rewrite Hg. reflexivity.
      + destruct (decide (y < j)%nat); destruct (decide (y < Datatypes.S j)%nat);
          try reflexivity; lia. }
  destruct HJ as [Hshape [Hg Hpix]]. split; [exact Hshape|]. split; [exact Hg|].
  intros x y Hx Hy. rewrite Hpix by lia.
  destruct (decide _); [reflexivity|lia].
Qed.

End ShadingPass.

(** * binary32 arithmetic: rounding, well-formedness, sign and order

    Facts about [SpecFloat]'s rounding at precision 24, proved from its
    definitions: what [shr_fexp] does to a mantissa, that the results of
    [fadd] and [fmul] on well-formed operands are well-formed, and that adding
    a value that is not negative never yields a smaller value. *)


Lemma fexp32_eq d : fexp32 d = Z.max (d - 24) (-149).
Proof. reflexivity. Qed.

Lemma digits2_pos_size p : digits2_pos p = Pos.size p.
Proof. induction p; simpl; congruence. Qed.

Lemma digits_log2 p : digits (Z.pos p) = Z.log2 (Z.pos p) + 1.
Proof.
  unfold digits. simpl. rewrite digits2_pos_size.
  destruct p; simpl; try rewrite Pos2Z.inj_succ; lia.
Qed.

Lemma digits_nonneg m : 0 <= digits m.
Proof. destruct m; simpl; lia. Qed.

Lemma digits_pos m : 0 < m -> 0 < digits m.
Proof. destruct m; simpl; lia. Qed.

Lemma digits_bounds m : 0 < m -> 2 ^ (digits m - 1) <= m < 2 ^ digits m.
Proof.
  intros Hm. destruct m as [|p|p]; try lia.
  rewrite digits_log2. pose proof (Z.log2_spec (Z.pos p) Hm) as H.
  replace (Z.log2 (Z.pos p) + 1 - 1) with (Z.log2 (Z.pos p)) by lia.
  replace (Z.log2 (Z.pos p) + 1) with (Z.succ (Z.log2 (Z.pos p))) by lia.
  exact H.
Qed.

Lemma digits_le_mono a b : 0 < a -> a <= b -> digits a <= digits b.
Proof.
  intros Ha Hab. destruct a as [|p|p]; try lia. destruct b as [|q|q]; try lia.
  rewrite !digits_log2. pose proof (Z.log2_le_mono _ _ Hab). lia.
Qed.

Lemma digits_mul_pow2 m k : 0 < m -> 0 <= k -> digits (m * 2 ^ k) = digits m + k.
Proof.
  intros Hm Hk. assert (0 < m * 2 ^ k) by (apply Z.mul_pos_pos; [lia|apply Z.pow_pos_nonneg; lia]).
  destruct m as [|p|p]; try lia. destruct (Z.pos p * 2 ^ k) as [|q|q] eqn:Hq; try lia.
  rewrite !digits_log2, <- Hq, Z.log2_mul_pow2 by lia. lia.
Qed.

Lemma digits_mul a b : 0 < a -> 0 < b -> digits a + digits b - 1 <= digits (a * b).
Proof.
  intros Ha Hb. assert (0 < a * b) by (apply Z.mul_pos_pos; lia).
  destruct a as [|p|p]; try lia. destruct b as [|q|q]; try lia.
  pose proof (Z.log2_mul_below (Z.pos p) (Z.pos q) Ha Hb) as Hl.
  change (Z.pos p * Z.pos q) with (Z.pos (p * q)) in *.
  rewrite !digits_log2. lia.
Qed.

Lemma digits_succ m : 0 < m -> digits (m + 1) <= digits m + 1.
Proof.
  intros Hm. destruct m as [|p|p]; try lia.
  change (Z.pos p + 1) with (Z.pos (p + 1)).
  rewrite !digits_log2. pose proof (Z.log2_succ_le (Z.pos p)) as Hl.
  change (Z.succ (Z.pos p)) with (Z.pos p + 1) in Hl.
  change (Z.pos p + 1) with (Z.pos (p + 1)) in Hl. lia.
Qed.

(** Shifting right by fewer bits than the number has: the quotient is
    positive and loses that many digits. *)
Lemma digits_shiftr m n :
  0 < m -> 0 <= n < digits m ->
  0 < m / 2 ^ n /\ digits (m / 2 ^ n) = digits m - n.
Proof.
  intros Hm [Hn Hlt]. pose proof (digits_bounds m Hm) as [Hlo _].
  assert (Hpow : 2 ^ n <= m).
  { apply Z.le_trans with (2 ^ (digits m - 1)); [|exact Hlo].
    apply Z.pow_le_mono_r; lia. }
  assert (Hq : 0 < m / 2 ^ n).
  { apply Z.div_str_pos. split; [apply Z.pow_pos_nonneg; lia|exact Hpow]. }
  split; [exact Hq|].
  destruct m as [|p|p]; try lia.
  destruct (Z.pos p / 2 ^ n) as [|q|q] eqn:Hd; try lia.
  rewrite !digits_log2, <- Hd, <- Z.shiftr_div_pow2 by lia.
  rewrite Z.log2_shiftr by lia. rewrite digits_log2 in Hlt. lia.
Qed.

Lemma shiftr_all m n : 0 <= m -> digits m <= n -> m / 2 ^ n = 0.
Proof.
  intros Hm Hn. destruct (Z.eq_dec m 0) as [->|Hne].
  - apply Z.div_0_l. apply Z.pow_nonzero; [lia|]. pose proof (digits_nonneg 0). simpl in *. lia.
  - apply Z.div_small. pose proof (digits_bounds m ltac:(lia)) as [_ Hhi].
    split; [lia|]. apply Z.lt_le_trans with (2 ^ digits m); [exact Hhi|].
    apply Z.pow_le_mono_r; lia.
Qed.

(** *** [shr]: the mantissa after the shift *)

Lemma iter_pos_iter {A : Type} (f : A -> A) (p : positive) (x : A) :
  SpecFloat.iter_pos f p x = Pos.iter f x p.
Proof.
  revert x. induction p as [p IH|p IH|]; intros x; simpl.
  - rewrite !IH. rewrite <- !Pos.iter_swap. reflexivity.
  - rewrite !IH. reflexivity.
  - reflexivity.
Qed.

Lemma shr_1_m mrs : 0 <= shr_m mrs -> shr_m (shr_1 mrs) = shr_m mrs / 2.
Proof.
  destruct mrs as [m r s]. simpl. intros Hm.
  destruct m as [|[p|p|]|p]; simpl; try lia; try reflexivity.
  - rewrite Pos2Z.inj_xI. apply Z.div_unique with 1; lia.
  - rewrite Pos2Z.inj_xO. apply Z.div_unique with 0; lia.
Qed.

Lemma shr_iter_m p mrs :
  0 <= shr_m mrs -> shr_m (SpecFloat.iter_pos shr_1 p mrs) = shr_m mrs / 2 ^ Z.pos p.
Proof.
  intros Hm. rewrite iter_pos_iter. induction p using Pos.peano_ind.
  - simpl. rewrite shr_1_m by assumption. reflexivity.
  - rewrite Pos.iter_succ, shr_1_m.
    + rewrite IHp, Pos2Z.inj_succ, Z.pow_succ_r by lia.
      rewrite Z.div_div by (try apply Z.pow_pos_nonneg; lia).
      f_equal. lia.
    + rewrite IHp. apply Z.div_pos; [assumption|apply Z.pow_pos_nonneg; lia].
Qed.

Lemma shr_spec mrs e n :
  0 <= shr_m mrs ->
  shr_m (fst (shr mrs e n)) = shr_m mrs / 2 ^ Z.max n 0 /\
  snd (shr mrs e n) = e + Z.max n 0.
Proof.
  intros Hm. destruct n as [|p|p]; simpl.
  - rewrite Z.div_1_r. split; [reflexivity|lia].
  - rewrite shr_iter_m by assumption. split; reflexivity.
  - rewrite Z.div_1_r. split; [reflexivity|lia].
Qed.

Lemma shr_m_of_loc m l : shr_m (shr_record_of_loc m l) = m.
Proof. destruct l as [|[]]; reflexivity. Qed.

Lemma round_nearest_even_bounds m l :
  m <= round_nearest_even m l <= m + 1.
Proof.
  destruct l as [|[]]; simpl; try lia. destruct (Z.even m); lia.
Qed.

Lemma fexp32_mono a b : a <= b -> fexp32 a <= fexp32 b.
Proof. rewrite !fexp32_eq. lia. Qed.

(** [shr_fexp] on a mantissa that needs no shift to the left: the exponent
    becomes the format's exponent for the number, the mantissa is divided
    accordingly, and the pair is canonical. *)
Lemma shr_fexp_spec m e l :
  0 <= m -> e <= fexp32 (digits m + e) ->
  let r := shr_fexp prec emax m e l in
  snd r = fexp32 (digits m + e) /\
  shr_m (fst r) = m / 2 ^ (fexp32 (digits m + e) - e) /\
  0 <= shr_m (fst r) /\
  fexp32 (digits (shr_m (fst r)) + snd r) = snd r.
Proof.
  intros Hm Hpre. unfold shr_fexp. fold (digits m). fold (fexp32 (digits m + e)).
  set (n := fexp32 (digits m + e) - e).
  destruct (shr_spec (shr_record_of_loc m l) e n) as [Hsm Hse].
  { rewrite shr_m_of_loc. exact Hm. }
  rewrite shr_m_of_loc in Hsm. simpl.
  replace (Z.max n 0) with n in * by lia.
  rewrite Hsm, Hse.
  assert (Hpow : 0 < 2 ^ n) by (apply Z.pow_pos_nonneg; lia).
  split; [unfold n; lia|]. split; [reflexivity|].
  split; [apply Z.div_pos; lia|].
  replace (e + n) with (fexp32 (digits m + e)) by (unfold n; lia).
  destruct (Z.eq_dec m 0) as [->|Hne].
  - rewrite Z.div_0_l by lia. change (digits 0) with 0 in *.
    revert Hpre. rewrite !fexp32_eq. lia.
  - destruct (Z_lt_le_dec n (digits m)) as [Hlt|Hge].
    + destruct (digits_shiftr m n ltac:(lia) ltac:(lia)) as [_ Hd].
      rewrite Hd. f_equal. unfold n. lia.
    + rewrite shiftr_all by lia. change (digits 0) with 0.
      unfold n in Hge. revert Hge. rewrite !fexp32_eq. lia.
Qed.

(** The shape of a rounded result.  [m1] is the mantissa after the first
    shift, at the exponent [e1] of the format. *)
Lemma binary_round_aux_spec sx mx ex lx :
  0 < mx -> ex <= fexp32 (digits mx + ex) ->
  let e1 := fexp32 (digits mx + ex) in
  let m1 := mx / 2 ^ (e1 - ex) in
  let r := binary_round_aux prec emax sx mx ex lx in
  (r = S754_zero sx /\ m1 = 0) \/
  r = S754_infinity sx \/
  exists m e, r = S754_finite sx m e /\ valid r = true /\
              ((e = e1 /\ m1 <= Z.pos m) \/ e1 < e).
Proof.
  intros Hmx Hpre e1 m1 r. unfold r, binary_round_aux.
  pose proof (shr_fexp_spec mx ex lx ltac:(lia) Hpre) as H1.
  destruct (shr_fexp prec emax mx ex lx) as [mrs' e'] eqn:E1.
  simpl in H1. destruct H1 as (He' & Hm' & Hm'pos & Hcan1).
  fold e1 in He', Hm'. fold m1 in Hm'. subst e'.
  set (m2 := round_nearest_even (shr_m mrs') (loc_of_shr_record mrs')).
  pose proof (round_nearest_even_bounds (shr_m mrs') (loc_of_shr_record mrs')) as Hrne.
  fold m2 in Hrne. rewrite Hm' in Hrne, Hcan1.
  assert (Hm1 : 0 <= m1) by lia.
  assert (Hd12 : digits m1 <= digits m2).
  { destruct (Z.eq_dec m1 0) as [->|]; [apply digits_nonneg|apply digits_le_mono; lia]. }
  assert (Hpre2 : e1 <= fexp32 (digits m2 + e1)).
  { rewrite <- Hcan1 at 1. apply fexp32_mono. lia. }
  pose proof (shr_fexp_spec m2 e1 loc_Exact ltac:(lia) Hpre2) as H2.
  destruct (shr_fexp prec emax m2 e1 loc_Exact) as [mrs'' e''] eqn:E2.
  simpl in H2. destruct H2 as (He'' & Hm'' & Hm''pos & Hcan3).
  set (e3 := fexp32 (digits m2 + e1)) in *.
  assert (Hm3pos : 0 < m2 -> 0 < shr_m mrs'').
  { intros Hm2. rewrite Hm''.
    destruct (digits_shiftr m2 (e3 - e1) Hm2) as [Hq _]; [|exact Hq].
    split; [lia|]. pose proof (digits_pos m2 Hm2).
    unfold e3. revert Hcan1. rewrite !fexp32_eq. lia. }
  destruct (shr_m mrs'') as [|m3|m3] eqn:Em3.
  - left. split; [reflexivity|]. destruct (Z.eq_dec m1 0); [assumption|].
    exfalso. assert (0 < m2) by lia. specialize (Hm3pos ltac:(lia)). lia.
  - destruct (Z.leb_spec e'' (emax - prec)) as [Hle|Hgt].
    + right. right. exists m3, e''. split; [reflexivity|]. split.
      * unfold valid. simpl. unfold bounded, canonical_mantissa.
        apply andb_true_intro. split; [|apply Z.leb_le; exact Hle].
        apply Z.eqb_eq. exact Hcan3.
      * destruct (Z.eq_dec e'' e1) as [Heq|Hne]; [left|right; lia].
        split; [exact Heq|].
        assert (Hz : e3 - e1 = 0) by lia.
        rewrite Hz, Z.pow_0_r, Z.div_1_r in Hm''. lia.
    + right. left. reflexivity.
  - lia.
Qed.

Lemma iter_xO_pow m d : Z.pos (Pos.iter xO m d) = Z.pos m * 2 ^ Z.pos d.
Proof.
  induction d using Pos.peano_ind.
  - simpl. lia.
  - rewrite Pos.iter_succ, Pos2Z.inj_xO, IHd, Pos2Z.inj_succ, Z.pow_succ_r by lia. lia.
Qed.

(** [shl_align] towards the format's exponent leaves a mantissa that needs
    no further shift to the left, and the same number. *)
Lemma shl_align_spec m e :
  let E := fexp32 (digits (Z.pos m) + e) in
  let mz := fst (shl_align m e E) in
  let ez := snd (shl_align m e E) in
  ez <= e /\ Z.pos mz = Z.pos m * 2 ^ (e - ez) /\
  digits (Z.pos mz) + ez = digits (Z.pos m) + e /\
  ez <= fexp32 (digits (Z.pos mz) + ez) /\
  (e <= E -> mz = m /\ ez = e).
Proof.
  intros E mz ez. unfold mz, ez, shl_align.
  destruct (E - e) as [|d|d] eqn:Hd; cbn [fst snd].
  - rewrite Z.sub_diag, Z.pow_0_r. fold E. repeat split; try lia.
  - rewrite Z.sub_diag, Z.pow_0_r. fold E. repeat split; try lia.
  - assert (He : e - E = Z.pos d) by lia. rewrite He, iter_xO_pow.
    rewrite digits_mul_pow2 by lia.
    replace (digits (Z.pos m) + Z.pos d + E) with (digits (Z.pos m) + e) by lia.
    fold E. repeat split; try lia.
Qed.

Lemma binary_round_unfold sx m e :
  binary_round prec emax sx m e =
  binary_round_aux prec emax sx
    (Z.pos (fst (shl_align m e (fexp32 (digits (Z.pos m) + e)))))
    (snd (shl_align m e (fexp32 (digits (Z.pos m) + e)))) loc_Exact.
Proof.
  unfold binary_round.
  change (SpecFloat.fexp prec emax (Z.pos (digits2_pos m) + e))
    with (fexp32 (digits (Z.pos m) + e)).
  destruct (shl_align m e _) as [mz ez]. reflexivity.
Qed.

Lemma binary_round_no_shift sx m e :
  e <= fexp32 (digits (Z.pos m) + e) ->
  binary_round prec emax sx m e = binary_round_aux prec emax sx (Z.pos m) e loc_Exact.
Proof.
  intros Hpre. rewrite binary_round_unfold.
  destruct (shl_align_spec m e) as (_ & _ & _ & _ & Hno).
  destruct (Hno Hpre) as [-> ->]. reflexivity.
Qed.

Lemma binary_round_cases sx m e :
  let r := binary_round prec emax sx m e in
  valid r = true /\
  (r = S754_zero sx \/ r = S754_infinity sx \/ exists m' e', r = S754_finite sx m' e').
Proof.
  intros r. unfold r. rewrite binary_round_unfold.
  destruct (shl_align_spec m e) as (_ & _ & _ & Hpre & _).
  destruct (binary_round_aux_spec sx _ _ loc_Exact (Pos2Z.is_pos _) Hpre)
    as [[-> _]|[->|(m' & e' & Hr & Hv & _)]].
  - split; [reflexivity|]. left. reflexivity.
  - split; [reflexivity|]. right. left. reflexivity.
  - split; [exact Hv|]. right. right. exists m', e'. exact Hr.
Qed.

(** [float(n)] of a positive integer is a positive number or +infinity. *)
Lemma float_of_pos_shape p :
  (exists m e, float_of_Z (Z.pos p) = S754_finite false m e) \/
  float_of_Z (Z.pos p) = S754_infinity false.
Proof.
  unfold float_of_Z, binary_normalize. rewrite binary_round_unfold.
  destruct (shl_align_spec p 0) as (Hez & Hmz & Hdig & Hpre & Hno).
  set (mz := fst (shl_align p 0 _)) in *. set (ez := snd (shl_align p 0 _)) in *.
  destruct (binary_round_aux_spec false (Z.pos mz) ez loc_Exact (Pos2Z.is_pos _) Hpre)
    as [[_ Hz]|[->|(m' & e' & -> & _)]].
  - exfalso.
    assert (Hq : 0 < Z.pos mz / 2 ^ (fexp32 (digits (Z.pos mz) + ez) - ez)).
    { apply digits_shiftr; [lia|]. split; [lia|].
      pose proof (digits_pos (Z.pos mz) ltac:(lia)).
      pose proof (digits_pos (Z.pos p) ltac:(lia)).
      revert Hpre. rewrite !fexp32_eq. lia. }
    lia.
  - right. reflexivity.
  - left. eauto.
Qed.

(** *** Sign: what is not negative *)

Lemma notneg_iff x :
  notneg x = true <->
  match x with
  | S754_finite s _ _ | S754_infinity s => s = false
  | _ => True
  end.
Proof.
  unfold notneg, flt, SFltb. destruct x as [s|s| |s m e]; simpl; try tauto;
    destruct s; simpl; intuition congruence.
Qed.

Lemma binary_round_aux_sign mx ex lx :
  notneg (binary_round_aux prec emax false mx ex lx) = true.
Proof.
  unfold binary_round_aux.
  destruct (shr_fexp prec emax mx ex lx) as [mrs' e'].
  destruct (shr_fexp prec emax _ e' loc_Exact) as [mrs'' e''].
  destruct (shr_m mrs''); [reflexivity| |reflexivity].
  destruct (e'' <=? emax - prec); reflexivity.
Qed.

Lemma fmul_notneg x y : notneg x = true -> notneg y = true -> notneg (fmul x y) = true.
Proof.
  intros Hx Hy. apply notneg_iff in Hx, Hy.
  destruct x as [sx|sx| |sx mx ex]; destruct y as [sy|sy| |sy my ey];
    simpl in *; subst; try reflexivity.
  apply binary_round_aux_sign.
Qed.

Lemma fadd_notneg x y : notneg x = true -> notneg y = true -> notneg (fadd x y) = true.
Proof.
  intros Hx Hy. apply notneg_iff in Hx, Hy.
  destruct x as [sx|sx| |sx mx ex]; destruct y as [sy|sy| |sy my ey];
    simpl in *; subst; try reflexivity.
  - destruct sx, sy; reflexivity.
  - unfold fadd, SFadd, cond_Zopp, binary_normalize.
    rewrite <- Pos2Z.inj_add. rewrite binary_round_unfold.
    apply binary_round_aux_sign.
Qed.

Lemma fmax_zero_notneg x : notneg (fmax x fzero) = true.
Proof.
  unfold fmax. destruct (flt x fzero) eqn:H; [reflexivity|].
  unfold notneg. rewrite H. reflexivity.
Qed.

(** *** Well-formedness is kept by [fmul] and [fadd] *)

Lemma valid_finite s m e :
  valid (S754_finite s m e) = true ->
  fexp32 (digits (Z.pos m) + e) = e /\ e <= 104.
Proof.
  unfold valid. simpl. unfold bounded, canonical_mantissa.
  intros H. apply andb_prop in H. destruct H as [Hc Hb].
  apply Z.eqb_eq in Hc. apply Z.leb_le in Hb. split; [exact Hc|exact Hb].
Qed.

Lemma fmul_valid x y : valid x = true -> valid y = true -> valid (fmul x y) = true.
Proof.
  intros Hx Hy.
  destruct x as [sx|sx| |sx mx ex]; destruct y as [sy|sy| |sy my ey]; try reflexivity.
  apply valid_finite in Hx, Hy. destruct Hx as [Hcx _]. destruct Hy as [Hcy _].
  unfold fmul, SFmul.
  assert (Hpre : ex + ey <= fexp32 (digits (Z.pos (mx * my)) + (ex + ey))).
  { pose proof (digits_mul (Z.pos mx) (Z.pos my) ltac:(lia) ltac:(lia)) as Hd.
    change (Z.pos mx * Z.pos my) with (Z.pos (mx * my)) in Hd.
    pose proof (digits_pos (Z.pos mx) ltac:(lia)).
    pose proof (digits_pos (Z.pos my) ltac:(lia)).
    revert Hcx Hcy. rewrite !fexp32_eq. lia. }
  destruct (binary_round_aux_spec (xorb sx sy) _ _ loc_Exact (Pos2Z.is_pos _) Hpre)
    as [[-> _]|[->|(m' & e' & _ & Hv & _)]]; [reflexivity|reflexivity|exact Hv].
Qed.

Lemma binary_normalize_valid z e : valid (binary_normalize prec emax z e false) = true.
Proof.
  destruct z as [|p|p]; simpl; [reflexivity| |]; apply binary_round_cases.
Qed.

Lemma fadd_valid x y : valid x = true -> valid y = true -> valid (fadd x y) = true.
Proof.
  intros Hx Hy.
  destruct x as [sx|sx| |sx mx ex]; destruct y as [sy|sy| |sy my ey];
    try reflexivity; try assumption.
  - destruct sx, sy; reflexivity.
  - destruct sx, sy; reflexivity.
  - unfold fadd, SFadd. apply binary_normalize_valid.
Qed.

(** *** Adding what is not negative never gives less *)

Lemma shl_align_value m e e' :
  e' <= e -> Z.pos (fst (shl_align m e e')) = Z.pos m * 2 ^ (e - e').
Proof.
  intros Hle. unfold shl_align. destruct (e' - e) as [|d|d] eqn:Hd; cbn [fst].
  - replace (e - e') with 0 by lia. lia.
  - lia.
  - rewrite iter_xO_pow. f_equal. f_equal. lia.
Qed.

Lemma flt_irrefl x : flt x x = false.
Proof.
  unfold flt, SFltb. destruct x as [s|s| |s m e]; simpl; try reflexivity.
  - destruct s; reflexivity.
  - destruct s; rewrite Z.compare_refl;
      change (Pos.compare_cont Eq m m) with (Pos.compare m m);
      rewrite Pos.compare_refl; reflexivity.
Qed.

Lemma fadd_not_less x y :
  valid x = true -> notneg x = true -> notneg y = true ->
  flt (fadd x y) x = false.
Proof.
  intros Hv Hx Hy. apply notneg_iff in Hx, Hy.
  destruct x as [sx|sx| |sx mx ex]; destruct y as [sy|sy| |sy my ey];
    simpl in Hx, Hy; subst; try reflexivity;
    try (destruct sx; reflexivity); try (destruct sy; reflexivity);
    try (destruct sx, sy; reflexivity).
  - (* x + 0 = x *) apply (flt_irrefl (S754_finite false mx ex)).
  - (* two positive numbers *)
    apply valid_finite in Hv. destruct Hv as [Hcx _].
    unfold fadd, SFadd, cond_Zopp, binary_normalize.
    set (ez := Z.min ex ey).
    rewrite <- Pos2Z.inj_add.
    set (mz := (fst (shl_align mx ex ez) + fst (shl_align my ey ez))%positive).
    assert (Hmz : Z.pos mx * 2 ^ (ex - ez) <= Z.pos mz).
    { unfold mz. rewrite Pos2Z.inj_add, (shl_align_value mx ex ez) by (unfold ez; lia). lia. }
    assert (Hpow : 0 < 2 ^ (ex - ez)) by (apply Z.pow_pos_nonneg; unfold ez; lia).
    assert (Hdig : digits (Z.pos mx) + ex <= digits (Z.pos mz) + ez).
    { pose proof (digits_le_mono (Z.pos mx * 2 ^ (ex - ez)) (Z.pos mz)
                    (Z.mul_pos_pos _ _ (Pos2Z.is_pos mx) Hpow) Hmz) as Hd.
      rewrite digits_mul_pow2 in Hd by (unfold ez; lia). lia. }
    assert (Hex : ex <= fexp32 (digits (Z.pos mz) + ez)).
    { rewrite <- Hcx at 1. apply fexp32_mono. exact Hdig. }
    rewrite binary_round_no_shift by (unfold ez in *; lia).
    pose proof (binary_round_aux_spec false (Z.pos mz) ez loc_Exact (Pos2Z.is_pos _)
                  ltac:(unfold ez in *; lia)) as Hspec.
    cbv zeta in Hspec.
    set (e1 := fexp32 (digits (Z.pos mz) + ez)) in *.
    assert (Hm1 : e1 = ex -> Z.pos mx <= Z.pos mz / 2 ^ (e1 - ez)).
    { intros ->. apply Z.div_le_lower_bound; lia. }
    assert (Hm1pos : 0 < Z.pos mz / 2 ^ (e1 - ez)).
    { destruct (Z.eq_dec e1 ex) as [Heq|Hne]; [specialize (Hm1 Heq); lia|].
      apply digits_shiftr; [lia|]. split; [unfold ez in *; lia|].
      pose proof (digits_pos (Z.pos mx) ltac:(lia)).
      unfold e1 in *. revert Hex Hne Hcx. rewrite !fexp32_eq. lia. }
    destruct Hspec as [[_ Hz]|[->|(m & e & -> & _ & Hme)]]; [lia|reflexivity|].
    unfold flt, SFltb, SFcompare.
    destruct (Z.compare_spec e ex) as [Heq|Hlt|Hgt]; [|lia|reflexivity].
    subst e. destruct Hme as [[He1 Hm]|?]; [|lia].
    change (Pos.compare_cont Eq m mx) with (Pos.compare m mx).
    destruct (Pos.compare_spec m mx) as [?|Hlt|?]; try reflexivity.
    specialize (Hm1 (eq_sym He1)). lia.
Qed.

(** *** The comparisons on values that are not NaN

    [notneg] and "not less" are the negations of the program's [<].  On
    numbers (anything but NaN) they are [0 <= x] and [old <= new]. *)

Lemma SFcompare_swap a b : SFcompare b a = option_map CompOpp (SFcompare a b).
Proof.
  destruct a as [sa|sa| |sa ma ea]; destruct b as [sb|sb| |sb mb eb]; simpl;
    try reflexivity; try (destruct sa; reflexivity); try (destruct sb; reflexivity);
    try (destruct sa, sb; reflexivity).
  destruct sa, sb; simpl; try reflexivity;
    rewrite (Z.compare_antisym ea eb);
    change (Pos.compare_cont Eq mb ma) with (Pos.compare mb ma);
    change (Pos.compare_cont Eq ma mb) with (Pos.compare ma mb);
    rewrite (Pos.compare_antisym ma mb);
    destruct (ea ?= eb); simpl; try reflexivity;
    destruct (ma ?= mb)%positive; reflexivity.
Qed.

Lemma not_less_le a b : flt a b = false -> a <> fnan -> b <> fnan -> fle b a = true.
Proof.
  unfold flt, fle, SFltb, SFleb. rewrite (SFcompare_swap a b).
  intros Hlt Ha Hb.
  destruct (SFcompare a b) as [[| |]|] eqn:Hc; simpl; try reflexivity; try discriminate.
  destruct a, b; simpl in Hc; try discriminate; try (exfalso; apply Ha; reflexivity);
    exfalso; apply Hb; reflexivity.
Qed.

Lemma notneg_le x : notneg x = true -> x <> fnan -> fle fzero x = true.
Proof.
  unfold notneg. intros H Hx. apply not_less_le; [|exact Hx|discriminate].
  destruct (flt x fzero); [discriminate|reflexivity].
Qed.

(** * The rendered image, pixel by pixel *)

Section Render.

Context {E : Engine} {R : Random}.
Variable scene : Scene E.
Variable camera : Camera.
Variables samples depth : nat.

Lemma fst_render (w h : nat) (g : Rng R) :
  fst (render scene camera samples depth w h g) =
  gamma_pass (E := E) samples (fst (shading_pass scene camera samples depth (Image_new w h) g)).
Proof.
  unfold render. destruct (shading_pass _ _ _ _ _ _) as [img g']. reflexivity.
Qed.

Lemma shaded_shape (w h : nat) (g : Rng R) :
  let img := fst (shading_pass scene camera samples depth (Image_new w h) g) in
  width img = w /\ height img = h /\ wf_image img.
Proof.
  destruct (shading_pass_spec scene camera samples depth (Image_new w h) g
              (wf_Image_new w h)) as [(Hw & Hh & Hwf) _].
  simpl in *. auto.
Qed.

(** Every pixel of the output: its accumulated samples, averaged and
    gamma encoded. *)
Lemma render_pixel (w h x y : nat) (g : Rng R) :
  (x < w)%nat -> (y < h)%nat ->
  rgb (fst (render scene camera samples depth w h g)) x y =
  gamma_encode (E := E) samples
    (accumulate_pixel (vec3_of fzero)
       (fst (pixel_samples scene camera samples depth w h x y
               (row_rng scene camera samples depth w h y
                  (pass_rng scene camera samples depth w h g y) x)))).
Proof.
  intros Hx Hy. rewrite fst_render.
  destruct (shaded_shape w h g) as (Hw & Hh & Hwf).
  destruct (gamma_pass_spec (E := E) samples _ Hwf) as [_ Hpix].
  rewrite Hpix by lia.
  destruct (shading_pass_spec scene camera samples depth (Image_new w h) g
              (wf_Image_new w h)) as (_ & _ & Hacc).
  simpl in Hacc. rewrite Hacc by assumption.
  unfold accumulated. simpl. rewrite rgb_Image_new. reflexivity.
Qed.

(** A property of every traced sample holds of all samples of a pixel. *)
Lemma samples_of_Forall (P : vec3 -> Prop) (w h x y : nat) :
  (forall g : Rng R, P (fst (trace_sample scene camera depth w h x y g))) ->
  forall (n : nat) (g : Rng R), Forall P (fst (samples_of scene camera depth n w h x y g)).
Proof.
  intros HP n g. unfold samples_of. induction n as [|n IH].
  - constructor.
  - rewrite for_loop_S. destruct (for_loop n _ _) as [cs g1]. unfold sample_step.
    simpl in *. specialize (HP g1).
    destruct (trace_sample _ _ _ _ _ _ _ g1) as [c g2]. simpl in *.
    apply Forall_app. split; [exact IH|]. constructor; [exact HP|constructor].
Qed.

End Render.

(** * The claims *)

(** ** C1: a ray that finds nothing *)

(** Line 150 tests [depth], the configured bound, which is never zero inside
    the loop: a miss leaves the sample colour as it is, at any bounce. *)
Lemma miss_keeps_colour {E : Engine} {R : Random}
    (scene : Scene E) (depth : nat) (ndcPos : vec2) (did : nat) (st : PathState R) :
  depth <> O ->
  hit E (intersects scene (rayPos st) (rayDir st)) = false ->
  bounce scene depth ndcPos did st = (st, false).
Proof.
  intros Hd Hmiss. unfold bounce. rewrite Hmiss. simpl. unfold on_miss.
  destruct depth; [contradiction|]. simpl. destruct st. reflexivity.
Qed.

Lemma first_miss_is_black {E : Engine} {R : Random}
    (scene : Scene E) (camera : Camera) (depth : nat) (ndcPos : vec2) (g : Rng R) :
  let st0 := primary_ray (R := R) camera ndcPos g in
  hit E (intersects scene (rayPos st0) (rayDir st0)) = false ->
  sampleColor (path_loop scene depth ndcPos depth 0 st0) = vec3_of fzero.
Proof.
  intros st0 Hmiss. destruct depth as [|d]; [reflexivity|].
  simpl. rewrite miss_keeps_colour by (auto; lia). reflexivity.
Qed.

(** C1 at the failing input: nothing to hit, a white background, depth 1.
    The first ray (bounce index 0) of the sample misses, and the sample
    colour is black, not the background's white; so is the pixel. *)
Theorem C1_first_bounce_miss_is_not_background :
  let ndcPos := Vec2 Demo.fhalf Demo.fhalf in
  let st0 := primary_ray (R := Demo.lcg) Demo.camera ndcPos 42 in
  hit Demo.engine (intersects Demo.empty_scene (rayPos st0) (rayDir st0)) = false
  /\ backgroundMode Demo.empty_scene = COLOR
  /\ backgroundColor Demo.empty_scene = Demo.white
  /\ sampleColor (path_loop Demo.empty_scene 1 ndcPos 1 0 st0) = Demo.black
  /\ rgb (fst (shading_pass (R := Demo.lcg) Demo.empty_scene Demo.camera 1 1
                 (Image_new 1 1) 42)) 0 0 = Demo.black.
Proof.
  cbv zeta. split; [reflexivity|]. split; [reflexivity|]. split; [reflexivity|].
  split; [vm_compute; reflexivity|]. vm_compute. reflexivity.
Qed.

(** ** C2: throughput *)

Section Throughput.

Context {E : Engine} {R : Random}.
Variable scene : Scene E.
Variable depth : nat.

Lemma bounce_hit_terms (ndcPos : vec2) (did : nat) (st : PathState R) :
  hit E (intersects scene (rayPos st) (rayDir st)) = true ->
  snd (bounce scene depth ndcPos did st) = true /\
  (attenColor (fst (bounce scene depth ndcPos did st)),
   sampleColor (fst (bounce scene depth ndcPos did st)))
  = accumulate (attenColor st, sampleColor st) (hit_terms scene st).
Proof.
  intros Hhit. unfold bounce, hit_terms, accumulate. rewrite Hhit. cbn [negb].
  destruct (Z.of_nat did <? size_t_sub depth 1).
  - destruct (Random_sampleSphere R (rng st)) as [s g']. simpl. auto.
  - simpl. auto.
Qed.

(** The loop folds the hits of the path, in order, with [accumulate]. *)
Lemma path_loop_accumulates (ndcPos : vec2) (fuel did : nat) (st : PathState R) :
  depth <> O ->
  (attenColor (path_loop scene depth ndcPos fuel did st),
   sampleColor (path_loop scene depth ndcPos fuel did st))
  = fold_left accumulate (path_hits scene depth ndcPos fuel did st)
              (attenColor st, sampleColor st).
Proof.
  intros Hd. revert did st. induction fuel as [|fuel IH]; intros did st.
  - reflexivity.
  - cbn [path_loop path_hits].
    destruct (hit E (intersects scene (rayPos st) (rayDir st))) eqn:Hhit; cbn [negb].
    + destruct (bounce_hit_terms ndcPos did st Hhit) as [Hc Hacc].
      destruct (bounce scene depth ndcPos did st) as [st' c]. simpl in Hc, Hacc. subst c.
      cbn [fold_left fst]. rewrite <- Hacc. apply IH.
    + rewrite miss_keeps_colour by assumption. reflexivity.
Qed.

End Throughput.

(** C2, as stated, fails: over a black floor (base colour 0) lit by one
    light, one bounce deep, the program's sample is black, while accumulating
    [throughput * illumination] before the throughput is multiplied by the
    base colour gives the illumination itself, white. *)
Lemma C2_throughput_order_counterexample :
  let scene := Demo.floor_scene Demo.black [Demo.sun] in
  let ndcPos := Vec2 Demo.fhalf Demo.fhalf in
  let st0 := primary_ray (R := Demo.lcg) Demo.camera ndcPos 42 in
  path_hits scene 1 ndcPos 1 0 st0 = [(Demo.black, Demo.white)]
  /\ sampleColor (path_loop scene 1 ndcPos 1 0 st0) = Demo.black
  /\ snd (fold_left spec_accumulate (path_hits scene 1 ndcPos 1 0 st0)
            (vec3_of fone, vec3_of fzero)) = Demo.white
  /\ sampleColor (path_loop scene 1 ndcPos 1 0 st0)
     <> snd (fold_left spec_accumulate (path_hits scene 1 ndcPos 1 0 st0)
               (vec3_of fone, vec3_of fzero)).
Proof.
  cbv zeta. split; [vm_compute; reflexivity|]. split; [vm_compute; reflexivity|].
  split; [vm_compute; reflexivity|]. vm_compute. discriminate.
Qed.

Section OneSample.

Context {E : Engine} {R : Random}.
Variable scene : Scene E.
Variable camera : Camera.

(** One bounce allowed and a ray that hits: one term is added. *)
Lemma one_bounce_hit (ndcPos : vec2) (st : PathState R) :
  hit E (intersects scene (rayPos st) (rayDir st)) = true ->
  sampleColor (path_loop scene 1 ndcPos 1 0 st)
  = vadd (sampleColor st)
         (vmul (vmul (attenColor st) (fst (hit_terms scene st))) (snd (hit_terms scene st))).
Proof.
  intros Hhit. cbn [path_loop].
  destruct (bounce_hit_terms scene 1 ndcPos 0 st Hhit) as [Hc Hacc].
  destruct (bounce scene 1 ndcPos 0 st) as [st' c]. cbn [fst snd] in Hc, Hacc. subst c.
  unfold accumulate in Hacc. cbn [fst snd] in Hacc. congruence.
Qed.

Lemma one_sample_one_bounce (w h x y : nat) (g : Rng R) :
  let st := sample_ray camera w h x y g in
  hit E (intersects scene (rayPos st) (rayDir st)) = true ->
  fst (trace_sample scene camera 1 w h x y g)
  = vadd (vec3_of fzero)
         (vmul (vmul (vec3_of fone) (fst (hit_terms scene st))) (snd (hit_terms scene st))).
Proof.
  cbv zeta. unfold sample_ray, trace_sample.
  destruct (Random_Float R g) as [jx g1]. destruct (Random_Float R g1) as [jy g2].
  intros Hhit. cbn [fst]. rewrite (one_bounce_hit _ _ Hhit). reflexivity.
Qed.

(** The illumination under a single light that reaches the hit point. *)
Lemma single_light (st : PathState R) (l : Light) (d : vec3) (a : float) :
  lights scene = [l] ->
  visible l (hit_position scene st) = Some (d, a) ->
  snd (hit_terms scene st)
  = vadd (vec3_of fzero)
         (smul (fmul a (fmax (dot (hit_normal scene st) d) fzero)) (intensity l)).
Proof.
  intros Hl Hv. unfold hit_terms, compute_lighting. cbn [snd]. rewrite Hl.
  cbn [fold_left]. unfold light_step. fold (hit_position scene st). rewrite Hv. reflexivity.
Qed.

(** With one sample per pixel the accumulator holds [0 +] that sample. *)
Lemma one_sample_pixel (depth w h x y : nat) (g0 : Rng R) :
  (x < w)%nat -> (y < h)%nat ->
  rgb (fst (shading_pass scene camera 1 depth (Image_new w h) g0)) x y
  = vadd (vec3_of fzero)
      (fst (trace_sample scene camera depth w h x y
              (row_rng scene camera 1 depth w h y (pass_rng scene camera 1 depth w h g0 y) x))).
Proof.
  intros Hx Hy.
  destruct (shading_pass_spec scene camera 1 depth (Image_new w h) g0 (wf_Image_new w h))
    as (_ & _ & Hacc).
  cbn [width height Image_new] in Hacc. rewrite Hacc by assumption.
  unfold accumulated. cbn [width height Image_new]. rewrite rgb_Image_new.
  unfold pixel_samples, samples_of. rewrite for_loop_S. unfold for_loop at 1. cbn [seq fold_left].
  unfold sample_step. cbn [fst snd].
  destruct (trace_sample _ _ _ _ _ _ _ _) as [c g']. reflexivity.
Qed.

End OneSample.

(** C2, amended.  For every traced sample the throughput starts at 1 and the
    sample colour at 0; at each bounce that hits, the throughput is first
    multiplied by the hit's base colour (the texture value raised channel by
    channel to the power 2.2) and the sample colour then gains
    throughput * illumination, so that the first hit already contributes
    base colour * illumination.  Consequently with [depth = 1] a sample whose
    ray hits is [0 + (1 * base) * illumination]; and with [samples = 1] and
    [depth = 1], for every image size and every pixel whose sample hits, the
    pixel the shading pass leaves (the pre-gamma value) is [0 +] that, which
    under a single light that reaches the hit point is
    [0 + (0 + (1 * base) * (0 + (attenuation * max(dot(n, d), 0)) * intensity))]:
    base colour times cosine times intensity. *)
Theorem C2_throughput_multiplied_then_accumulated {E : Engine} {R : Random}
    (scene : Scene E) (camera : Camera) (depth : nat) (ndcPos : vec2) (g : Rng R) :
  let st0 := primary_ray (R := R) camera ndcPos g in
  attenColor st0 = vec3_of fone
  /\ sampleColor st0 = vec3_of fzero
  /\ (forall st : PathState R,
        fst (hit_terms scene st) =
        vpow (pow_fin E)
             (let h := intersects scene (rayPos st) (rayDir st) in
              let uv := interpolateUV E h (objectMesh scene (meshId E h)) in
              rgbl E (objectTexture scene (meshId E h)) (v2x uv) (v2y uv))
             (vec3_of f2_2))
  /\ sampleColor (path_loop scene depth ndcPos depth 0 st0)
     = snd (fold_left accumulate (path_hits scene depth ndcPos depth 0 st0)
              (vec3_of fone, vec3_of fzero))
  /\ (depth = 1%nat ->
      hit E (intersects scene (rayPos st0) (rayDir st0)) = true ->
      sampleColor (path_loop scene depth ndcPos depth 0 st0)
      = vadd (vec3_of fzero)
             (vmul (vmul (vec3_of fone) (fst (hit_terms scene st0)))
                   (snd (hit_terms scene st0))))
  /\ (forall (w h x y : nat) (g0 : Rng R), (x < w)%nat -> (y < h)%nat ->
      let pixel := rgb (fst (shading_pass scene camera 1 1 (Image_new w h) g0)) x y in
      let st := sample_ray camera w h x y
                  (row_rng scene camera 1 1 w h y (pass_rng scene camera 1 1 w h g0 y) x) in
      hit E (intersects scene (rayPos st) (rayDir st)) = true ->
      pixel = vadd (vec3_of fzero)
                (vadd (vec3_of fzero)
                   (vmul (vmul (vec3_of fone) (fst (hit_terms scene st)))
                         (snd (hit_terms scene st))))
      /\ forall (l : Light) (d : vec3) (a : float),
           lights scene = [l] ->
           visible l (hit_position scene st) = Some (d, a) ->
           pixel = vadd (vec3_of fzero)
                     (vadd (vec3_of fzero)
                        (vmul (vmul (vec3_of fone) (fst (hit_terms scene st)))
                              (vadd (vec3_of fzero)
                                 (smul (fmul a (fmax (dot (hit_normal scene st) d) fzero))
                                       (intensity l)))))).
Proof.
  intros st0. split; [reflexivity|]. split; [reflexivity|]. split; [reflexivity|].
  assert (Hfold : sampleColor (path_loop scene depth ndcPos depth 0 st0)
     = snd (fold_left accumulate (path_hits scene depth ndcPos depth 0 st0)
              (vec3_of fone, vec3_of fzero))).
  { destruct (Nat.eq_dec depth O) as [->|Hd]; [reflexivity|].
    change (vec3_of fone, vec3_of fzero) with (attenColor st0, sampleColor st0).
    rewrite <- (path_loop_accumulates scene depth ndcPos depth 0 st0 Hd). reflexivity. }
  split; [exact Hfold|]. split.
  - intros -> Hhit. rewrite Hfold. cbn [path_hits]. rewrite Hhit. reflexivity.
  - intros w h x y g0 Hx Hy pixel st Hhit.
    assert (Hpix : pixel = vadd (vec3_of fzero)
                (vadd (vec3_of fzero)
                   (vmul (vmul (vec3_of fone) (fst (hit_terms scene st)))
                         (snd (hit_terms scene st))))).
    { unfold pixel. rewrite one_sample_pixel by assumption.
      rewrite (one_sample_one_bounce scene camera w h x y _ Hhit). reflexivity. }
    split; [exact Hpix|].
    intros l d a Hl Hv. rewrite Hpix, (single_light scene st l d a Hl Hv). reflexivity.
Qed.

(** The scenario of the specification: a floor facing the light, the light
    straight above it with intensity 1 and attenuation 1, one sample, one
    bounce, a 1 by 1 image.  The sample's ray hits the floor; the normal and
    the light direction are both (0, 0, 1), cosine 1.  The floor's texture is
    1/2 and the demo's libm squares it: base colour 1/4.  The pixel left by
    the shading pass is that base colour (times cosine 1, times intensity
    1). *)
Lemma C2_witness :
  let scene := Demo.floor_scene (vec3_of Demo.fhalf) [Demo.sun] in
  let st := sample_ray (R := Demo.lcg) Demo.camera 1 1 0 0 42 in
  let quarter := fmul Demo.fhalf Demo.fhalf in
  hit Demo.engine (intersects scene (rayPos st) (rayDir st)) = true
  /\ lights scene = [Demo.sun]
  /\ visible Demo.sun (hit_position scene st) = Some (Demo.up, fone)
  /\ hit_normal scene st = Demo.up
  /\ dot Demo.up Demo.up = fone
  /\ intensity Demo.sun = vec3_of fone
  /\ fst (hit_terms scene st) = vec3_of quarter
  /\ rgb (fst (shading_pass (R := Demo.lcg) scene Demo.camera 1 1 (Image_new 1 1) 42)) 0 0
     = vec3_of quarter.
Proof.
  cbv zeta.
  assert (Hhit : hit Demo.engine
            (intersects (Demo.floor_scene (vec3_of Demo.fhalf) [Demo.sun])
               (rayPos (sample_ray (R := Demo.lcg) Demo.camera 1 1 0 0 42))
               (rayDir (sample_ray (R := Demo.lcg) Demo.camera 1 1 0 0 42))) = true)
    by (vm_compute; reflexivity).
  split; [exact Hhit|]. split; [reflexivity|]. split; [reflexivity|].
  split; [reflexivity|]. split; [vm_compute; reflexivity|]. split; [reflexivity|].
  split; [vm_compute; reflexivity|].
  destruct (C2_throughput_multiplied_then_accumulated (R := Demo.lcg)
              (Demo.floor_scene (vec3_of Demo.fhalf) [Demo.sun]) Demo.camera 1
              (Vec2 Demo.fhalf Demo.fhalf) 42) as (_ & _ & _ & _ & _ & H).
  destruct (H 1%nat 1%nat 0%nat 0%nat 42 ltac:(lia) ltac:(lia) Hhit) as [_ Hone].
  rewrite (Hone Demo.sun Demo.up fone eq_refl eq_refl).
  vm_compute. reflexivity.
Defined.

(** ** C3: no bounce allowed *)

Lemma accumulate_zeros (cs : list vec3) :
  Forall (fun c => c = vec3_of fzero) cs ->
  accumulate_pixel (vec3_of fzero) cs = vec3_of fzero.
Proof.
  unfold accumulate_pixel. induction 1 as [|c cs -> _ IH]; [reflexivity|exact IH].
Qed.

Lemma zero_over_count (n : nat) :
  n <> O -> fdiv fzero (float_of_nat n) = fzero.
Proof.
  intros Hn. unfold float_of_nat.
  destruct (Z.of_nat n) as [|p|p] eqn:Hz; try lia.
  destruct (float_of_pos_shape p) as [(m & e & ->)| ->]; reflexivity.
Qed.

Lemma gamma_encode_zero {E : Engine} (n : nat) :
  n <> O -> gamma_encode (E := E) n (vec3_of fzero) = vec3_of fzero.
Proof.
  intros Hn. unfold gamma_encode, vpow, vdivs, vmap, vmap2, vec3_of. cbn [vx vy vz].
  rewrite (zero_over_count n Hn). reflexivity.
Qed.

Lemma trace_sample_depth_zero {E : Engine} {R : Random}
    (scene : Scene E) (camera : Camera) (w h x y : nat) (g : Rng R) :
  fst (trace_sample scene camera 0 w h x y g) = vec3_of fzero.
Proof.
  unfold trace_sample.
  destruct (Random_Float R g) as [jx g1]. destruct (Random_Float R g1) as [jy g2].
  reflexivity.
Qed.

(** C3, as stated, fails: over a white background, with [depth = 0] and one
    sample, the pixel is black and not the background's value (white, which
    averaging over one sample and gamma encoding leave white). *)
Lemma C3_zero_depth_counterexample :
  backgroundColor Demo.empty_scene = Demo.white
  /\ gamma_encode (E := Demo.engine) 1 (vadd (vec3_of fzero) (backgroundColor Demo.empty_scene))
     = Demo.white
  /\ rgb (fst (render (R := Demo.lcg) Demo.empty_scene Demo.camera 1 0 1 1 42)) 0 0
     = Demo.black
  /\ rgb (fst (render (R := Demo.lcg) Demo.empty_scene Demo.camera 1 0 1 1 42)) 0 0
     <> gamma_encode (E := Demo.engine) 1
          (vadd (vec3_of fzero) (backgroundColor Demo.empty_scene)).
Proof.
  split; [reflexivity|]. split; [vm_compute; reflexivity|].
  split; [vm_compute; reflexivity|]. vm_compute. discriminate.
Qed.

(** C3, amended.  With [depth = 0] the path loop runs no iteration: no ray
    is cast and the background is never looked up.  Every sample is zero, so
    with at least one sample per pixel every pixel of the output is +0 in
    every channel, whatever the scene and its background. *)
Theorem C3_zero_depth_gives_black {E : Engine} {R : Random}
    (scene : Scene E) (camera : Camera) (samples w h : nat) (g : Rng R) (x y : nat) :
  samples <> O -> (x < w)%nat -> (y < h)%nat ->
  rgb (fst (render scene camera samples 0 w h g)) x y = vec3_of fzero.
Proof.
  intros Hs Hx Hy. rewrite render_pixel by assumption.
  rewrite accumulate_zeros.
  - apply gamma_encode_zero. exact Hs.
  - apply samples_of_Forall. intros g'. apply trace_sample_depth_zero.
Qed.

Lemma C3_witness :
  3%nat <> O /\ (1 < 2)%nat /\ (0 < 2)%nat /\
  rgb (fst (render (R := Demo.lcg) Demo.empty_scene Demo.camera 3 0 2 2 42)) 1 0
    = vec3_of fzero.
Proof.
  split; [lia|]. split; [lia|]. split; [lia|].
  apply (C3_zero_depth_gives_black (R := Demo.lcg) Demo.empty_scene Demo.camera 3 2 2 42 1 0); lia.
Defined.

(** ** C4: no samples *)

(** C4, as stated, fails: with [samples = 0] the pixel of a 1x1 image is not
    black; the unguarded division 0/0 makes every channel NaN. *)
Lemma C4_zero_samples_counterexample :
  rgb (fst (render (R := Demo.lcg) Demo.empty_scene Demo.camera 0 5 1 1 42)) 0 0
    = vec3_of fnan
  /\ rgb (fst (render (R := Demo.lcg) Demo.empty_scene Demo.camera 0 5 1 1 42)) 0 0
    <> vec3_of fzero.
Proof.
  split; [vm_compute; reflexivity|]. vm_compute. discriminate.
Qed.

(** C4, amended.  With [samples = 0] the shading pass adds nothing, so every
    accumulator is still zero; the normalisation pass divides it by
    [float(0)] without any guard, and every channel of every pixel of the
    output is NaN (0/0, which the power leaves NaN). *)
Theorem C4_zero_samples_gives_nan {E : Engine} {R : Random}
    (scene : Scene E) (camera : Camera) (depth w h : nat) (g : Rng R) (x y : nat) :
  (x < w)%nat -> (y < h)%nat ->
  rgb (fst (shading_pass scene camera 0 depth (Image_new w h) g)) x y = vec3_of fzero /\
  fdiv fzero (float_of_nat 0) = fnan /\
  rgb (fst (render scene camera 0 depth w h g)) x y = vec3_of fnan.
Proof.
  intros Hx Hy. split; [|split; [reflexivity|]].
  - destruct (shading_pass_spec scene camera 0 depth (Image_new w h) g
                (wf_Image_new w h)) as (_ & _ & Hacc).
    simpl in Hacc. rewrite Hacc by assumption.
    unfold accumulated. simpl. rewrite rgb_Image_new. reflexivity.
  - rewrite render_pixel by assumption. reflexivity.
Qed.

Lemma C4_witness :
  (1 < 2)%nat /\ (0 < 2)%nat /\
  rgb (fst (render (R := Demo.lcg) (Demo.floor_scene Demo.white [Demo.sun])
              Demo.camera 0 3 2 2 42)) 1 0 = vec3_of fnan.
Proof.
  split; [lia|]. split; [lia|].
  apply (C4_zero_samples_gives_nan (R := Demo.lcg)
           (Demo.floor_scene Demo.white [Demo.sun]) Demo.camera 3 2 2 42 1 0); lia.
Defined.

(** ** C5: the next ray *)

Lemma size_t_sub_one (depth : nat) :
  depth <> O -> Z.of_nat depth < 2 ^ 64 -> size_t_sub depth 1 = Z.of_nat depth - 1.
Proof.
  intros Hd Hlt. unfold size_t_sub. apply Z.mod_small. lia.
Qed.

(** C5, as stated, fails: at a bounce that is not the last one, with the
    normal (0, 0, 1) and the sphere sample (0, 0, -1), the sum is the zero
    vector; the generator has been asked once (its state is the one after a
    single draw) and the next direction is NaN in every component. *)
Lemma C5_no_resampling_counterexample :
  let scene := Demo.floor_scene Demo.white [Demo.sun] in
  let st := Demo.down_ray 5 in
  let st' := fst (bounce scene 3 (Vec2 Demo.fhalf Demo.fhalf) 0 st) in
  hit Demo.engine (intersects scene (rayPos st) (rayDir st)) = true
  /\ (1 < 3)%nat
  /\ vadd Demo.up (fst (Random_sampleSphere Demo.lcg (rng st))) = vec3_of fzero
  /\ rng st' = snd (Random_sampleSphere Demo.lcg (rng st))
  /\ rayDir st' = vec3_of fnan.
Proof.
  cbv zeta. split; [reflexivity|]. split; [lia|]. split; [reflexivity|].
  split; vm_compute; reflexivity.
Qed.

(** C5, amended.  At every bounce that hits and is not the last allowed one
    ([did + 1 < depth]), the next ray starts at the hit point
    [rayPos + dist * rayDir] and its direction is
    [normalize(normal + s)] for [s] the result of exactly one call of
    [Random::sampleSphere]: the generator advances by that one draw, and
    nothing is drawn again, whatever the sum is. *)
Theorem C5_next_ray_from_one_draw {E : Engine} {R : Random}
    (scene : Scene E) (depth : nat) (ndcPos : vec2) (did : nat) (st : PathState R) :
  hit E (intersects scene (rayPos st) (rayDir st)) = true ->
  Z.of_nat depth < 2 ^ 64 ->
  (did + 1 < depth)%nat ->
  let h := intersects scene (rayPos st) (rayDir st) in
  let p := vadd (rayPos st) (smul (dist E h) (rayDir st)) in
  let n := interpolateNormal E h (objectMesh scene (meshId E h)) in
  let draw := Random_sampleSphere R (rng st) in
  let st' := fst (bounce scene depth ndcPos did st) in
  rayPos st' = p /\ rayDir st' = normalize (vadd n (fst draw)) /\ rng st' = snd draw.
Proof.
  intros Hhit Hsz Hdid h p n draw st'. unfold st', bounce. rewrite Hhit. cbn [negb].
  rewrite size_t_sub_one by lia.
  destruct (Z.ltb_spec (Z.of_nat did) (Z.of_nat depth - 1)) as [_|Hge]; [|lia].
  fold draw. destruct draw as [s g']. simpl. auto.
Qed.

Lemma C5_witness :
  let scene := Demo.floor_scene Demo.white [Demo.sun] in
  let st := Demo.down_ray 4 in
  let st' := fst (bounce scene 3 (Vec2 Demo.fhalf Demo.fhalf) 1 st) in
  rayPos st' = vec3_of fzero
  /\ rayDir st' = normalize (vadd Demo.up (Demo.axis 4))
  /\ rng st' = Demo.lcg_next 4.
Proof.
  cbv zeta.
  pose proof (C5_next_ray_from_one_draw (R := Demo.lcg)
                (Demo.floor_scene Demo.white [Demo.sun]) 3 (Vec2 Demo.fhalf Demo.fhalf) 1
                (Demo.down_ray 4) eq_refl eq_refl ltac:(lia)) as H.
  cbv zeta in H. exact H.
Defined.

(** ** C6: the illumination at a hit point *)

(** C6.  The illumination term at a hit point is the sum, over the lights
    whose visibility query succeeds, of
    attenuation * max(dot(normal, direction), 0) * intensity, starting from
    zero and taken in the order of the light list; the lights whose query
    fails contribute nothing: dropping them from the list leaves the sum
    exactly as it is.  The loop is a total function, no error arises.  This
    is the illumination the path loop uses at the hit of every ray, with the
    hit point and the interpolated normal. *)
Theorem C6_illumination_sums_visible_lights {E : Engine} (scene : Scene E) (p n : vec3) :
  compute_lighting scene p n =
    fold_left (add_contribution n) (visible_lights (lights scene) p) (vec3_of fzero)
  /\ compute_lighting scene p n =
    fold_left (light_step p n) (List.filter (reaches p) (lights scene)) (vec3_of fzero)
  /\ (forall (R : Random) (st : PathState R),
        let h := intersects scene (rayPos st) (rayDir st) in
        let hit_point := vadd (rayPos st) (smul (dist E h) (rayDir st)) in
        let normal := interpolateNormal E h (objectMesh scene (meshId E h)) in
        snd (hit_terms scene st) =
        fold_left (add_contribution normal) (visible_lights (lights scene) hit_point)
                  (vec3_of fzero)).
Proof.
  assert (Hsum : forall p n,
    compute_lighting scene p n =
      fold_left (add_contribution n) (visible_lights (lights scene) p) (vec3_of fzero)
    /\ compute_lighting scene p n =
      fold_left (light_step p n) (List.filter (reaches p) (lights scene)) (vec3_of fzero)).
  { clear p n. intros p n. unfold compute_lighting. generalize (vec3_of fzero) as acc.
    induction (lights scene) as [|l ls IH]; intros acc; simpl; [split; reflexivity|].
    unfold reaches at 1. unfold light_step at 2 4.
    destruct (visible l p) as [[d a]|] eqn:Hv; simpl.
    - unfold light_step at 4. rewrite Hv. apply IH.
    - apply IH. }
  destruct (Hsum p n) as [H1 H2]. split; [exact H1|]. split; [exact H2|].
  intros R st h hit_point normal. unfold hit_terms. cbn [snd].
  apply (Hsum hit_point normal).
Qed.

(** One light out of three reaches nothing: the sum is that of the other
    two. *)
Example illumination_skips_hidden_light :
  compute_lighting (Demo.floor_scene Demo.white [Demo.sun; Demo.hidden; Demo.sun])
                   (vec3_of fzero) Demo.up
  = vec3_of Demo.ftwo.
Proof. vm_compute. reflexivity. Qed.

(** ** C7: averaging and gamma encoding *)

(** C7.  For every pixel of the image, the emitted value is the colour
    accumulated by the shading pass, divided by [float(samples)] and then
    raised, channel by channel, to the power [1.0f/2.2f]; nothing clamps the
    quotient before or after the power, whatever its size. *)
Theorem C7_average_then_gamma_unclamped {E : Engine} {R : Random}
    (scene : Scene E) (camera : Camera) (samples depth w h : nat) (g : Rng R) (x y : nat) :
  (x < w)%nat -> (y < h)%nat ->
  let accumulated := rgb (fst (shading_pass scene camera samples depth (Image_new w h) g)) x y in
  rgb (fst (render scene camera samples depth w h g)) x y =
  Vec3 (powf (pow_fin E) (fdiv (vx accumulated) (float_of_nat samples)) inv_gamma)
       (powf (pow_fin E) (fdiv (vy accumulated) (float_of_nat samples)) inv_gamma)
       (powf (pow_fin E) (fdiv (vz accumulated) (float_of_nat samples)) inv_gamma).
Proof.
  intros Hx Hy accumulated. rewrite fst_render.
  destruct (shaded_shape scene camera samples depth w h g) as (Hw & Hh & Hwf).
  destruct (gamma_pass_spec (E := E) samples _ Hwf) as [_ Hpix].
  rewrite Hpix by lia. reflexivity.
Qed.

(** Two suns over a white floor, one sample, one bounce: the accumulated
    value 2 is not clamped to 1; it goes through the power as it is (the
    demo's libm squares: 2 / 1 gives 4). *)
Lemma C7_witness :
  (0 < 1)%nat /\ (0 < 1)%nat /\
  rgb (fst (shading_pass (R := Demo.lcg) (Demo.floor_scene Demo.white [Demo.sun; Demo.sun])
              Demo.camera 1 1 (Image_new 1 1) 42)) 0 0 = vec3_of Demo.ftwo /\
  rgb (fst (render (R := Demo.lcg) (Demo.floor_scene Demo.white [Demo.sun; Demo.sun])
              Demo.camera 1 1 1 1 42)) 0 0 = vec3_of (float_of_Z 4).
Proof.
  split; [lia|]. split; [lia|]. split; [vm_compute; reflexivity|].
  rewrite (C7_average_then_gamma_unclamped (R := Demo.lcg)
             (Demo.floor_scene Demo.white [Demo.sun; Demo.sun]) Demo.camera 1 1 1 1 42 0 0)
    by lia.
  vm_compute. reflexivity.
Defined.

(** ** C8: rows *)

Lemma log_rows (l : list nat) (acc : list nat) :
  fold_left (fun log y => log ++ [y]) l acc = acc ++ l.
Proof.
  revert acc. induction l as [|y l IH]; intros acc; simpl.
  - rewrite app_nil_r. reflexivity.
  - rewrite IH, <- app_assoc. reflexivity.
Qed.

(** Whatever the worker, the scheduler invokes it once for every index of
    the interval, in increasing order, and for nothing else. *)
Lemma forParallel_logged {S : Type} (low high : nat) (worker : nat -> S -> S)
    (s : S) (log : list nat) :
  forParallel low high (logged worker) (s, log)
  = (forParallel low high worker s, log ++ seq low (high - low)).
Proof.
  unfold forParallel. generalize (seq low (high - low)) as rows.
  intros rows. revert s log. induction rows as [|y rows IH]; intros s log.
  - cbn [fold_left]. rewrite app_nil_r. reflexivity.
  - cbn [fold_left]. unfold logged at 2. cbn [fst snd].
    rewrite IH, <- app_assoc. reflexivity.
Qed.

Section Rows.

Context {E : Engine} {R : Random}.
Variable scene : Scene E.
Variable camera : Camera.
Variables samples depth : nat.

(** After the shading pass, row [y] holds what its worker computes from the
    image the pass started with, run from the generator state in which the
    pass reaches the row. *)
Lemma shading_pass_row (img : Image) (g : Rng R) (x y : nat) :
  wf_image img -> (x < width img)%nat -> (y < height img)%nat ->
  rgb (fst (shading_pass scene camera samples depth img g)) x y
  = rgb (fst (shading_row scene camera samples depth y
                (img, pass_rng scene camera samples depth (width img) (height img) g y))) x y.
Proof.
  intros Hwf Hx Hy.
  destruct (shading_pass_spec scene camera samples depth img g Hwf) as (_ & _ & Hacc).
  cbv zeta in Hacc. rewrite Hacc by assumption.
  destruct (shading_row_spec scene camera samples depth y img
              (pass_rng scene camera samples depth (width img) (height img) g y) Hwf Hy)
    as (_ & _ & Hrow).
  cbv zeta in Hrow. rewrite Hrow by assumption.
  destruct (decide (y = y)); [reflexivity|contradiction].
Qed.

Lemma gamma_pass_row (img : Image) (x y : nat) :
  wf_image img -> (x < width img)%nat -> (y < height img)%nat ->
  rgb (gamma_pass (E := E) samples img) x y = rgb (gamma_row (E := E) samples y img) x y.
Proof.
  intros Hwf Hx Hy.
  destruct (gamma_pass_spec (E := E) samples img Hwf) as [_ Hpix].
  destruct (gamma_row_spec (E := E) samples y img Hwf Hy) as [_ Hrow].
  rewrite Hpix, Hrow by assumption.
  destruct (decide (y = y)); [reflexivity|contradiction].
Qed.

End Rows.

(** C8.  In the shading pass and in the normalisation pass alike, the worker
    of row [y] keeps the image's shape, leaves every pixel of every other row
    exactly as it was (it writes row [y] only), and what it leaves in row [y]
    depends on the image only through row [y] (it reads row [y] only: on two
    images that agree on that row it produces the same row, and the shading
    worker leaves the generator in the same state).  Both passes hand their
    worker to the scheduler over [0, height): run with the worker made to
    record its row, the scheduler gives the result of the pass and the record
    of every row index of the interval, each once; and in the image a pass
    leaves, every row [y'] of [0, height) is the row that the worker of
    [y'] computes from the image the pass started with (in the shading pass
    from the generator state in which the pass reaches the row): no row is
    skipped, none is worked on twice, and no worker's result is disturbed by
    the workers of the other rows. *)
Theorem C8_row_workers_touch_their_row_only {E : Engine} {R : Random}
    (scene : Scene E) (camera : Camera) (samples depth : nat)
    (img img2 : Image) (g : Rng R) (y : nat) :
  wf_image img -> wf_image img2 ->
  width img2 = width img -> height img2 = height img ->
  (y < height img)%nat ->
  (forall x, (x < width img)%nat -> rgb img2 x y = rgb img x y) ->
  let shade := shading_row scene camera samples depth y in
  let encode := gamma_row (E := E) samples y in
  (same_shape (fst (shade (img, g))) img /\ same_shape (encode img) img)
  /\ (forall x' y', (x' < width img)%nat -> y' <> y ->
        rgb (fst (shade (img, g))) x' y' = rgb img x' y'
        /\ rgb (encode img) x' y' = rgb img x' y')
  /\ (forall x', (x' < width img)%nat ->
        rgb (fst (shade (img2, g))) x' y = rgb (fst (shade (img, g))) x' y
        /\ rgb (encode img2) x' y = rgb (encode img) x' y)
  /\ snd (shade (img2, g)) = snd (shade (img, g))
  /\ forParallel 0 (height img) (fun y log => log ++ [y]) [] = seq 0 (height img)
  /\ forParallel 0 (height img) (logged (shading_row scene camera samples depth)) ((img, g), [])
     = (shading_pass scene camera samples depth img g, seq 0 (height img))
  /\ forParallel 0 (height img) (logged (gamma_row (E := E) samples)) (img, [])
     = (gamma_pass (E := E) samples img, seq 0 (height img))
  /\ (forall x' y', (x' < width img)%nat -> (y' < height img)%nat ->
        rgb (fst (shading_pass scene camera samples depth img g)) x' y'
        = rgb (fst (shading_row scene camera samples depth y'
                      (img, pass_rng scene camera samples depth (width img) (height img) g y')))
              x' y'
        /\ rgb (gamma_pass (E := E) samples img) x' y'
           = rgb (gamma_row (E := E) samples y' img) x' y').
Proof.
  intros Hwf Hwf2 Hw Hh Hy Hrow shade encode.
  destruct (shading_row_spec scene camera samples depth y img g Hwf Hy)
    as (Hs1 & Hg1 & Hp1).
  destruct (shading_row_spec scene camera samples depth y img2 g Hwf2 ltac:(lia))
    as (Hs2 & Hg2 & Hp2).
  destruct (gamma_row_spec (E := E) samples y img Hwf Hy) as (Hs3 & Hp3).
  destruct (gamma_row_spec (E := E) samples y img2 Hwf2 ltac:(lia)) as (Hs4 & Hp4).
  cbv zeta in Hp1, Hp2, Hg1, Hg2. rewrite Hw, Hh in *.
  split; [split; assumption|]. split; [|split; [|split; [|split; [|split; [|split]]]]].
  - intros x' y' Hx' Hne. unfold shade, encode.
    rewrite Hp1, Hp3 by assumption.
    destruct (decide (y' = y)); [contradiction|]. split; reflexivity.
  - intros x' Hx'. unfold shade, encode.
    rewrite Hp1, Hp2, Hp3, Hp4 by assumption.
    destruct (decide (y = y)); [|contradiction].
    rewrite Hrow by assumption. split; reflexivity.
  - unfold shade. rewrite Hg1, Hg2. reflexivity.
  - unfold forParallel. rewrite log_rows, Nat.sub_0_r. reflexivity.
  - rewrite forParallel_logged, Nat.sub_0_r. reflexivity.
  - rewrite forParallel_logged, Nat.sub_0_r. reflexivity.
  - intros x' y' Hx' Hy'. split.
    + apply shading_pass_row; assumption.
    + apply gamma_pass_row; assumption.
Qed.

(** Two 2 by 2 images that differ in row 0 only, and the workers of row 1;
    the shading pass over the first image does change row 1. *)
Lemma C8_witness :
  let scene := Demo.floor_scene Demo.white [Demo.sun] in
  let img := Image_new 2 2 in
  let img2 := set_rgb (Image_new 2 2) 1 0 Demo.white in
  let shade := shading_row (R := Demo.lcg) scene Demo.camera 2 2 1 in
  let encode := gamma_row (E := Demo.engine) 2 1 in
  rgb img2 1 0 <> rgb img 1 0
  /\ rgb (fst (shading_pass (R := Demo.lcg) scene Demo.camera 2 2 img 42)) 1 1
     <> rgb img 1 1
  /\ (same_shape (fst (shade (img, 42))) img /\ same_shape (encode img) img)
  /\ (forall x' y', (x' < width img)%nat -> y' <> 1%nat ->
        rgb (fst (shade (img, 42))) x' y' = rgb img x' y'
        /\ rgb (encode img) x' y' = rgb img x' y')
  /\ (forall x', (x' < width img)%nat ->
        rgb (fst (shade (img2, 42))) x' 1 = rgb (fst (shade (img, 42))) x' 1
        /\ rgb (encode img2) x' 1 = rgb (encode img) x' 1)
  /\ snd (shade (img2, 42)) = snd (shade (img, 42))
  /\ forParallel 0 (height img) (fun y log => log ++ [y]) [] = seq 0 (height img)
  /\ forParallel 0 (height img) (logged (shading_row (R := Demo.lcg) scene Demo.camera 2 2))
       ((img, 42), [])
     = (shading_pass (R := Demo.lcg) scene Demo.camera 2 2 img 42, seq 0 (height img))
  /\ forParallel 0 (height img) (logged (gamma_row (E := Demo.engine) 2)) (img, [])
     = (gamma_pass (E := Demo.engine) 2 img, seq 0 (height img))
  /\ (forall x' y', (x' < width img)%nat -> (y' < height img)%nat ->
        rgb (fst (shading_pass (R := Demo.lcg) scene Demo.camera 2 2 img 42)) x' y'
        = rgb (fst (shading_row (R := Demo.lcg) scene Demo.camera 2 2 y'
                      (img, pass_rng (R := Demo.lcg) scene Demo.camera 2 2
                              (width img) (height img) 42 y')))
              x' y'
        /\ rgb (gamma_pass (E := Demo.engine) 2 img) x' y'
           = rgb (gamma_row (E := Demo.engine) 2 y' img) x' y').
Proof.
  cbv zeta. split; [vm_compute; discriminate|]. split; [vm_compute; discriminate|].
  apply (C8_row_workers_touch_their_row_only (R := Demo.lcg)
           (Demo.floor_scene Demo.white [Demo.sun]) Demo.camera 2 2
           (Image_new 2 2) (set_rgb (Image_new 2 2) 1 0 Demo.white) 42 1).
  - reflexivity.
  - reflexivity.
  - reflexivity.
  - reflexivity.
  - simpl. lia.
  - intros x Hx. simpl in Hx. destruct x as [|[|x]]; [reflexivity|reflexivity|lia].
Defined.

(** ** C9: the image is a function of the random values drawn *)

Section Determinism.

Context {E : Engine}.
Variable scene : Scene E.
Variable camera : Camera.
Variables samples depth : nat.

(** Two generators, and a relation between their states that is kept by
    every draw and under which the values drawn are the same. *)
Variables R1 R2 : Random.
Variable sim : Rng R1 -> Rng R2 -> Prop.
Hypothesis sim_Float : forall g1 g2, sim g1 g2 ->
  fst (Random_Float R1 g1) = fst (Random_Float R2 g2) /\
  sim (snd (Random_Float R1 g1)) (snd (Random_Float R2 g2)).
Hypothesis sim_sampleSphere : forall g1 g2, sim g1 g2 ->
  fst (Random_sampleSphere R1 g1) = fst (Random_sampleSphere R2 g2) /\
  sim (snd (Random_sampleSphere R1 g1)) (snd (Random_sampleSphere R2 g2)).

Lemma bounce_sim (ndcPos : vec2) (did : nat) (a : PathState R1) (b : PathState R2) :
  path_sim sim a b ->
  path_sim sim (fst (bounce scene depth ndcPos did a)) (fst (bounce scene depth ndcPos did b)) /\
  snd (bounce scene depth ndcPos did a) = snd (bounce scene depth ndcPos did b).
Proof.
  intros (Hp & Hd & Hc & Ha & Hg). unfold bounce. rewrite Hp, Hd, Hc, Ha.
  destruct (negb (hit E (intersects scene (rayPos b) (rayDir b)))).
  - simpl. unfold path_sim. simpl. repeat split; auto.
  - destruct (Z.of_nat did <? size_t_sub depth 1).
    + destruct (sim_sampleSphere _ _ Hg) as [Hs Hg'].
      destruct (Random_sampleSphere R1 (rng a)) as [s1 g1'].
      destruct (Random_sampleSphere R2 (rng b)) as [s2 g2'].
      simpl in *. subst s2. unfold path_sim. simpl. repeat split; auto.
    + simpl. unfold path_sim. simpl. repeat split; auto.
Qed.

Lemma path_loop_sim (ndcPos : vec2) (fuel did : nat) (a : PathState R1) (b : PathState R2) :
  path_sim sim a b ->
  path_sim sim (path_loop scene depth ndcPos fuel did a) (path_loop scene depth ndcPos fuel did b).
Proof.
  revert did a b. induction fuel as [|fuel IH]; intros did a b Hab; [exact Hab|].
  cbn [path_loop]. destruct (bounce_sim ndcPos did a b Hab) as [Hst Hc].
  destruct (bounce scene depth ndcPos did a) as [a' ca].
  destruct (bounce scene depth ndcPos did b) as [b' cb].
  simpl in Hst, Hc. subst cb. destruct ca; [apply IH; exact Hst|exact Hst].
Qed.

Lemma trace_sample_sim (w h x y : nat) (g1 : Rng R1) (g2 : Rng R2) :
  sim g1 g2 ->
  fst (trace_sample scene camera depth w h x y g1)
    = fst (trace_sample scene camera depth w h x y g2) /\
  sim (snd (trace_sample scene camera depth w h x y g1))
      (snd (trace_sample scene camera depth w h x y g2)).
Proof.
  intros Hg. unfold trace_sample.
  destruct (sim_Float _ _ Hg) as [Hjx Hg1].
  destruct (Random_Float R1 g1) as [jx1 g1']. destruct (Random_Float R2 g2) as [jx2 g2'].
  simpl in Hjx, Hg1. subst jx2.
  destruct (sim_Float _ _ Hg1) as [Hjy Hg2].
  destruct (Random_Float R1 g1') as [jy1 g1'']. destruct (Random_Float R2 g2') as [jy2 g2''].
  simpl in Hjy, Hg2. subst jy2. cbn [fst snd].
  assert (Hst : path_sim sim (primary_ray (R := R1) camera (ndc_of w h x y jx1 jy1) g1'')
                         (primary_ray (R := R2) camera (ndc_of w h x y jx1 jy1) g2'')).
  { unfold path_sim, primary_ray. simpl. repeat split; auto. }
  apply (path_loop_sim (ndc_of w h x y jx1 jy1) depth 0) in Hst.
  destruct Hst as (_ & _ & Hc & _ & Hr). split; assumption.
Qed.

Lemma shade_sample_sim (x y sid : nat) (a : Image * Rng R1) (b : Image * Rng R2) :
  pass_sim sim a b ->
  pass_sim sim (shade_sample scene camera depth x y sid a)
           (shade_sample scene camera depth x y sid b).
Proof.
  destruct a as [img1 g1], b as [img2 g2]. intros [Hi Hg]. simpl in Hi, Hg. subst img2.
  unfold shade_sample.
  destruct (trace_sample_sim (width img1) (height img1) x y g1 g2 Hg) as [Hc Hg'].
  destruct (trace_sample scene camera depth _ _ x y g1) as [c1 g1'].
  destruct (trace_sample scene camera depth _ _ x y g2) as [c2 g2'].
  simpl in Hc, Hg'. subst c2. split; [reflexivity|exact Hg'].
Qed.

Lemma shading_row_sim (y : nat) (a : Image * Rng R1) (b : Image * Rng R2) :
  pass_sim sim a b ->
  pass_sim sim (shading_row scene camera samples depth y a)
           (shading_row scene camera samples depth y b).
Proof.
  intros Hab. unfold shading_row. destruct Hab as [Hi Hg]. rewrite Hi.
  apply (for_loop_rel (fun _ => pass_sim sim)); [split; assumption|].
  intros x a' b' _ Hab'.
  apply (for_loop_rel (fun _ => pass_sim sim)); [exact Hab'|].
  intros sid a'' b'' _. apply shade_sample_sim.
Qed.

Lemma render_sim (w h : nat) (g1 : Rng R1) (g2 : Rng R2) :
  sim g1 g2 ->
  pass_sim sim (render scene camera samples depth w h g1)
           (render scene camera samples depth w h g2).
Proof.
  intros Hg. unfold render, shading_pass.
  assert (Hpass : pass_sim sim
    (forParallel 0 (height (Image_new w h)) (shading_row scene camera samples depth)
                 (Image_new w h, g1))
    (forParallel 0 (height (Image_new w h)) (shading_row scene camera samples depth)
                 (Image_new w h, g2))).
  { rewrite !forParallel_from_zero.
    apply (for_loop_rel (fun _ => pass_sim sim)); [split; [reflexivity|exact Hg]|].
    intros y a b _. apply shading_row_sim. }
  destruct (forParallel _ _ _ (Image_new w h, g1)) as [img1 g1'].
  destruct (forParallel _ _ _ (Image_new w h, g2)) as [img2 g2'].
  destruct Hpass as [Hi Hg']. simpl in Hi, Hg'. subst img2. split; [reflexivity|exact Hg'].
Qed.

End Determinism.

(** *** The rows in any order *)

Section GammaRows.

Context {E : Engine}.
Variable samples : nat.



End GammaRows.

Section ShadingRows.

Context {E : Engine} {R : Random}.
Variable scene : Scene E.
Variable camera : Camera.
Variables samples depth : nat.





End ShadingRows.

Section DeterminismInOrder.

Context {E : Engine}.
Variable scene : Scene E.
Variable camera : Camera.
Variables samples depth : nat.
Variables R1 R2 : Random.
Variable sim : Rng R1 -> Rng R2 -> Prop.
Hypothesis sim_Float : forall g1 g2, sim g1 g2 ->
  fst (Random_Float R1 g1) = fst (Random_Float R2 g2) /\
  sim (snd (Random_Float R1 g1)) (snd (Random_Float R2 g2)).
Hypothesis sim_sampleSphere : forall g1 g2, sim g1 g2 ->
  fst (Random_sampleSphere R1 g1) = fst (Random_sampleSphere R2 g2) /\
  sim (snd (Random_sampleSphere R1 g1)) (snd (Random_sampleSphere R2 g2)).


End DeterminismInOrder.



(** ** C10: radiance is never negative and never decreases *)



Lemma good_fadd x y : good x -> good y -> good (fadd x y).
Proof. intros [? ?] [? ?]. split; [apply fadd_valid|apply fadd_notneg]; assumption. Qed.

Lemma good_fmul x y : good x -> good y -> good (fmul x y).
Proof. intros [? ?] [? ?]. split; [apply fmul_valid|apply fmul_notneg]; assumption. Qed.

Lemma good_fmax x : valid x = true -> good (fmax x fzero).
Proof.
  intros Hv. split; [|apply fmax_zero_notneg].
  unfold fmax. destruct (flt x fzero); [reflexivity|exact Hv].
Qed.

Lemma good_valid x : good x -> valid x = true.
Proof. intros [H _]. exact H. Qed.

Lemma good_zero : good fzero.
Proof. split; reflexivity. Qed.

Lemma good_one : good fone.
Proof. split; reflexivity. Qed.

Lemma dot_valid a b : vvalid a -> vvalid b -> valid (dot a b) = true.
Proof.
  intros (? & ? & ?) (? & ? & ?). unfold dot.
  repeat first [apply fadd_valid | apply fmul_valid]; assumption.
Qed.

Lemma powf_good (pw : float -> float -> float) x :
  (forall a b, good a -> good (pw a b)) -> good x -> good (powf pw x f2_2).
Proof.
  intros Hpw Hx. unfold powf. destruct (is_one x); [exact good_one|].
  unfold f2_2. destruct x as [s|s| |s m e].
  - split; reflexivity.
  - destruct Hx as [_ Hn]. apply notneg_iff in Hn. simpl in Hn. subst s. split; reflexivity.
  - split; reflexivity.
  - pose proof Hx as [_ Hn]. apply notneg_iff in Hn. simpl in Hn. subst s.
    simpl. apply Hpw. exact Hx.
Qed.

Lemma vgood_vadd a b : vgood a -> vgood b -> vgood (vadd a b).
Proof. intros (? & ? & ?) (? & ? & ?). repeat split; apply good_fadd; assumption. Qed.

Lemma vgood_vmul a b : vgood a -> vgood b -> vgood (vmul a b).
Proof. intros (? & ? & ?) (? & ? & ?). repeat split; apply good_fmul; assumption. Qed.

Lemma vgood_smul s a : good s -> vgood a -> vgood (smul s a).
Proof. intros ? (? & ? & ?). repeat split; apply good_fmul; assumption. Qed.

Lemma vgood_zero : vgood (vec3_of fzero).
Proof. repeat split. Qed.

Lemma vgood_one : vgood (vec3_of fone).
Proof. repeat split. Qed.

Lemma vnot_less_refl a : vnot_less a a.
Proof. repeat split; apply flt_irrefl. Qed.

Lemma vnot_less_vadd a b : vgood a -> vgood b -> vnot_less (vadd a b) a.
Proof.
  intros ([? ?] & [? ?] & [? ?]) ([? ?] & [? ?] & [? ?]).
  repeat split; simpl; apply fadd_not_less; assumption.
Qed.

Section Radiance.

Context {E : Engine} {R : Random}.
Variable scene : Scene E.
Variable camera : Camera.
Variable depth : nat.
Hypothesis inputs : nonneg_inputs scene.

Lemma light_step_good (p n acc : vec3) (l : Light) :
  In l (lights scene) -> vvalid n -> vgood acc -> vgood (light_step p n acc l).
Proof.
  intros Hin Hn Hacc. destruct inputs as (_ & _ & _ & Hl).
  destruct (Hl l Hin) as [Hint Hvis]. unfold light_step.
  destruct (visible l p) as [[d a]|] eqn:Hv; [|exact Hacc].
  destruct (Hvis p d a Hv) as [Ha Hd].
  apply vgood_vadd; [exact Hacc|]. apply vgood_smul; [|exact Hint].
  apply good_fmul; [exact Ha|]. apply good_fmax. apply dot_valid; assumption.
Qed.

Lemma compute_lighting_good (p n : vec3) :
  vvalid n -> vgood (compute_lighting scene p n).
Proof.
  intros Hn. unfold compute_lighting.
  assert (Hall : forall l, In l (lights scene) -> In l (lights scene)) by auto.
  revert Hall. generalize (lights scene) at 1 3 as ls.
  generalize vgood_zero. generalize (vec3_of fzero) as acc.
  intros acc Hacc ls. revert acc Hacc. induction ls as [|l ls IH]; intros acc Hacc Hall.
  - exact Hacc.
  - simpl. apply IH.
    + apply light_step_good; [apply Hall; left; reflexivity|exact Hn|exact Hacc].
    + intros l' Hl'. apply Hall. right. exact Hl'.
Qed.

Lemma hit_terms_good (st : PathState R) :
  vgood (fst (hit_terms scene st)) /\ vgood (snd (hit_terms scene st)).
Proof.
  destruct inputs as (Htex & Hpow & Hnorm & _). unfold hit_terms. cbn [fst snd]. split.
  - destruct (Htex (meshId E (intersects scene (rayPos st) (rayDir st)))
                   (v2x (interpolateUV E (intersects scene (rayPos st) (rayDir st))
                           (objectMesh scene (meshId E (intersects scene (rayPos st) (rayDir st))))))
                   (v2y (interpolateUV E (intersects scene (rayPos st) (rayDir st))
                           (objectMesh scene (meshId E (intersects scene (rayPos st) (rayDir st)))))))
      as (Hx & Hy & Hz).
    repeat split; apply powf_good; assumption.
  - apply compute_lighting_good. apply Hnorm.
Qed.

(** One iteration keeps throughput and colour well-formed and not negative,
    and the colour after it is not less than before. *)
Lemma bounce_good (ndcPos : vec2) (did : nat) (st : PathState R) :
  depth <> O ->
  vgood (sampleColor st) -> vgood (attenColor st) ->
  let st' := fst (bounce scene depth ndcPos did st) in
  vgood (sampleColor st') /\ vgood (attenColor st') /\
  vnot_less (sampleColor st') (sampleColor st).
Proof.
  intros Hd Hc Ha st'. unfold st'.
  destruct (hit E (intersects scene (rayPos st) (rayDir st))) eqn:Hhit.
  - destruct (bounce_hit_terms scene depth ndcPos did st Hhit) as [_ Hacc].
    unfold accumulate in Hacc. cbn [fst snd] in Hacc.
    injection Hacc as Hatt Hcol. rewrite Hatt, Hcol.
    destruct (hit_terms_good st) as [Hb Hi].
    assert (Ht : vgood (vmul (attenColor st) (fst (hit_terms scene st))))
      by (apply vgood_vmul; assumption).
    assert (Hterm : vgood (vmul (vmul (attenColor st) (fst (hit_terms scene st)))
                                (snd (hit_terms scene st))))
      by (apply vgood_vmul; assumption).
    split; [apply vgood_vadd; assumption|]. split; [exact Ht|].
    apply vnot_less_vadd; assumption.
  - rewrite miss_keeps_colour by assumption. cbn [fst].
    split; [exact Hc|]. split; [exact Ha|]. apply vnot_less_refl.
Qed.

(** After [k] and after [k + 1] iterations of the loop. *)
Lemma path_loop_good (ndcPos : vec2) (k did : nat) (st : PathState R) :
  depth <> O ->
  vgood (sampleColor st) -> vgood (attenColor st) ->
  (vgood (sampleColor (path_loop scene depth ndcPos k did st)) /\
   vgood (attenColor (path_loop scene depth ndcPos k did st))) /\
  vnot_less (sampleColor (path_loop scene depth ndcPos (S k) did st))
            (sampleColor (path_loop scene depth ndcPos k did st)).
Proof.
  intros Hd. revert did st. induction k as [|k IH]; intros did st Hc Ha.
  - split; [split; assumption|]. cbn [path_loop].
    destruct (bounce_good ndcPos did st Hd Hc Ha) as (_ & _ & Hle).
    destruct (bounce scene depth ndcPos did st) as [st' c]. destruct c; exact Hle.
  - destruct (bounce_good ndcPos did st Hd Hc Ha) as (Hc' & Ha' & _).
    change (path_loop scene depth ndcPos (S (S k)) did st)
      with (let '(st', c) := bounce scene depth ndcPos did st in
            if c then path_loop scene depth ndcPos (S k) (S did) st' else st').
    change (path_loop scene depth ndcPos (S k) did st)
      with (let '(st', c) := bounce scene depth ndcPos did st in
            if c then path_loop scene depth ndcPos k (S did) st' else st').
    destruct (bounce scene depth ndcPos did st) as [st' c]. cbn [fst] in Hc', Ha'.
    destruct c.
    + apply IH; assumption.
    + split; [split; assumption|]. apply vnot_less_refl.
Qed.

Lemma trace_sample_good (w h x y : nat) (g : Rng R) :
  vgood (fst (trace_sample scene camera depth w h x y g)).
Proof.
  unfold trace_sample.
  destruct (Random_Float R g) as [jx g1]. destruct (Random_Float R g1) as [jy g2].
  cbn [fst]. destruct (Nat.eq_dec depth O) as [Hz|Hd].
  - rewrite Hz. exact vgood_zero.
  - apply (path_loop_good _ depth 0 _ Hd); [exact vgood_zero|exact vgood_one].
Qed.

Lemma accumulate_pixel_good (old : vec3) (cs : list vec3) :
  vgood old -> Forall vgood cs -> vgood (accumulate_pixel old cs).
Proof.
  unfold accumulate_pixel. intros Hold Hcs. revert old Hold.
  induction Hcs as [|c cs Hc _ IH]; intros old Hold; [exact Hold|].
  simpl. apply IH. apply vgood_vadd; assumption.
Qed.

Lemma samples_of_S (n w h x y : nat) (g : Rng R) :
  fst (samples_of scene camera depth (S n) w h x y g) =
  fst (samples_of scene camera depth n w h x y g) ++
  [fst (trace_sample scene camera depth w h x y
          (snd (samples_of scene camera depth n w h x y g)))].
Proof.
  unfold samples_of. rewrite for_loop_S.
  destruct (for_loop n _ _) as [cs g1]. unfold sample_step. cbn [fst snd].
  destruct (trace_sample scene camera depth w h x y g1) as [c g2]. reflexivity.
Qed.

End Radiance.

(** The demo's lights and floor satisfy the assumption. *)
Lemma demo_inputs (colour : vec3) (ls : list Light) :
  vgood colour ->
  Forall (fun l => l = Demo.sun \/ l = Demo.blaze \/ l = Demo.hidden) ls ->
  nonneg_inputs (Demo.floor_scene colour ls).
Proof.
  intros Hc Hls. split; [|split; [|split]].
  - intros i u v. exact Hc.
  - intros x y Hx. simpl. apply good_fmul; exact Hx.
  - intros h. simpl. repeat split.
  - intros l Hin. simpl in Hin. rewrite Forall_forall in Hls.
    apply list_elem_of_In in Hin.
    destruct (Hls l Hin) as [-> | [-> | ->]]; (split; [repeat split|]);
      intros p d a Hv; simpl in Hv; try discriminate;
      inversion Hv; subst; repeat split.
Qed.

(** *** The accumulator of a pixel, and the image while the pass is under way *)

Section Accumulator.

Context {E : Engine} {R : Random}.
Variable scene : Scene E.
Variable camera : Camera.
Variable depth : nat.
Hypothesis inputs : nonneg_inputs scene.

(** One sample added to a pixel: shape and sign are kept everywhere. *)
Lemma shade_sample_all_good (x y sid : nat) (img0 : Image) (st : Image * Rng R) :
  (x < width img0)%nat -> (y < height img0)%nat ->
  same_shape (fst st) img0 /\ all_good (fst st) ->
  same_shape (fst (shade_sample scene camera depth x y sid st)) img0
  /\ all_good (fst (shade_sample scene camera depth x y sid st)).
Proof.
  destruct st as [img g]. cbn [fst]. intros Hx Hy [(Hw & Hh & Hwf) Hgood].
  unfold shade_sample.
  pose proof (trace_sample_good scene camera depth inputs (width img) (height img) x y g) as Hc.
  destruct (trace_sample scene camera depth (width img) (height img) x y g) as [c g'].
  cbn [fst] in *. split.
  - split; [|split]; [exact Hw|exact Hh|apply wf_set_rgb; exact Hwf].
  - intros x' y' Hx' Hy'. rewrite width_set_rgb in Hx'. rewrite height_set_rgb in Hy'.
    destruct (decide (x = x' /\ y = y')) as [[-> ->]|Hne].
    + rewrite rgb_set_rgb_same by assumption.
      apply vgood_vadd; [apply Hgood; assumption|exact Hc].
    + rewrite rgb_set_rgb_other;
        [ apply Hgood; assumption | lia | lia
        | destruct (decide (x = x')); [right|left]; tauto ].
Qed.

Lemma shade_samples_all_good (x y n : nat) (img0 : Image) (st : Image * Rng R) :
  (x < width img0)%nat -> (y < height img0)%nat ->
  same_shape (fst st) img0 /\ all_good (fst st) ->
  same_shape (fst (for_loop n (shade_sample scene camera depth x y) st)) img0
  /\ all_good (fst (for_loop n (shade_sample scene camera depth x y) st)).
Proof.
  intros Hx Hy Hst.
  apply (for_loop_invariant (fun _ s => same_shape (fst s) img0 /\ all_good (fst s)));
    [exact Hst|].
  intros i s _ Hs. apply shade_sample_all_good; assumption.
Qed.

Lemma shade_pixels_all_good (samples y i : nat) (img0 : Image) (st : Image * Rng R) :
  (i <= width img0)%nat -> (y < height img0)%nat ->
  same_shape (fst st) img0 /\ all_good (fst st) ->
  let st' := for_loop i (fun x => for_loop samples (shade_sample scene camera depth x y)) st in
  same_shape (fst st') img0 /\ all_good (fst st').
Proof.
  intros Hi Hy Hst.
  apply (for_loop_invariant (fun _ s => same_shape (fst s) img0 /\ all_good (fst s)));
    [exact Hst|].
  intros x s Hx Hs. apply shade_samples_all_good; [lia|assumption|exact Hs].
Qed.

Lemma shading_rows_all_good (samples j : nat) (img0 : Image) (st : Image * Rng R) :
  (j <= height img0)%nat ->
  same_shape (fst st) img0 /\ all_good (fst st) ->
  let st' := for_loop j (shading_row scene camera samples depth) st in
  same_shape (fst st') img0 /\ all_good (fst st').
Proof.
  intros Hj Hst.
  apply (for_loop_invariant (fun _ s => same_shape (fst s) img0 /\ all_good (fst s)));
    [exact Hst|].
  intros y s Hy Hs. unfold shading_row.
  destruct Hs as [(Hw & Hh & Hwf) Hgood]. rewrite Hw.
  apply shade_pixels_all_good; [lia|lia|].
  split; [split; [|split]; assumption|exact Hgood].
Qed.

Lemma all_good_Image_new (w h : nat) : all_good (Image_new w h).
Proof. intros x y _ _. rewrite rgb_Image_new. exact vgood_zero. Qed.

(** Every state the shading pass goes through. *)
Lemma pass_state_all_good (samples w h j i n : nat) (g : Rng R) :
  (j < h)%nat -> (i < w)%nat ->
  same_shape (fst (pass_state scene camera samples depth w h j i n g)) (Image_new w h)
  /\ all_good (fst (pass_state scene camera samples depth w h j i n g)).
Proof.
  intros Hj Hi. unfold pass_state.
  assert (H0 : same_shape (fst (Image_new w h, g)) (Image_new w h)
               /\ all_good (fst (Image_new w h, g))).
  { split; [|apply all_good_Image_new].
    split; [reflexivity|]. split; [reflexivity|apply wf_Image_new]. }
  apply (shading_rows_all_good samples j) in H0; [|simpl; lia].
  apply (shade_pixels_all_good samples j i) in H0; [|simpl; lia|simpl; lia].
  apply (shade_samples_all_good i j n) in H0; [|simpl; lia|simpl; lia].
  exact H0.
Qed.

(** The accumulator of a pixel after [n] and after [n + 1] samples. *)
Lemma accumulator_step (img : Image) (g : Rng R) (x y n : nat) :
  wf_image img -> (x < width img)%nat -> (y < height img)%nat ->
  vgood (rgb img x y) ->
  let before := rgb (fst (for_loop n (shade_sample scene camera depth x y) (img, g))) x y in
  let after := rgb (fst (for_loop (S n) (shade_sample scene camera depth x y) (img, g))) x y in
  vgood before /\ vgood after /\ vnot_less after before.
Proof.
  intros Hwf Hx Hy Hold before after. unfold before, after.
  rewrite !shade_samples_spec by assumption. cbn [fst].
  rewrite !rgb_set_rgb_same by assumption.
  assert (Hall : forall m, Forall vgood
            (fst (samples_of scene camera depth m (width img) (height img) x y g))).
  { intros m. apply samples_of_Forall. intros g'. apply trace_sample_good. exact inputs. }
  assert (Hb : vgood (accumulate_pixel (rgb img x y)
             (fst (samples_of scene camera depth n (width img) (height img) x y g))))
    by (apply accumulate_pixel_good; [exact Hold|apply Hall]).
  split; [exact Hb|].
  split; [apply accumulate_pixel_good; [exact Hold|apply Hall]|].
  rewrite samples_of_S, accumulate_pixel_snoc.
  apply vnot_less_vadd; [exact Hb|]. apply trace_sample_good. exact inputs.
Qed.

End Accumulator.

(** C10, as stated, fails on binary32: over a black floor (base colour 0,
    throughput 0) under two lights whose intensities are the largest finite
    number, the illumination overflows to +infinity and the first bounce adds
    0 * infinity: the running colour is NaN, for which [0 <= c] is false. *)
Lemma C10_nan_counterexample :
  let scene := Demo.floor_scene Demo.black [Demo.blaze; Demo.blaze] in
  let ndcPos := Vec2 Demo.fhalf Demo.fhalf in
  let st0 := primary_ray (R := Demo.lcg) Demo.camera ndcPos 42 in
  nonneg_inputs scene
  /\ hit_terms scene st0 = (Demo.black, vec3_of (S754_infinity false))
  /\ sampleColor (path_loop scene 1 ndcPos 1 0 st0) = vec3_of fnan
  /\ fle fzero (vx (sampleColor (path_loop scene 1 ndcPos 1 0 st0))) = false.
Proof.
  cbv zeta. split.
  - apply demo_inputs; [repeat split|].
    repeat (constructor; [auto|]). constructor.
  - split; [vm_compute; reflexivity|]. split; vm_compute; reflexivity.
Qed.

(** C10, amended.  Assume that texture samples, light intensities and
    attenuations are well-formed binary32 values that are not negative (and
    that libm's power of such a value is one, and normals and light
    directions are well-formed).  Then, in the sense of the program's own
    comparisons:
    - along every path, the sample colour after [k] and after [k + 1]
      iterations of the loop is well-formed with [c < 0] false in every
      channel, and the later colour is never less than the earlier one;
    - for every pixel (x, y) of an image that holds such a value there, the
      same holds of [render.rgb(x,y)] after [n] and after [n + 1] runs of
      the sample loop's body (line 198 adds the sample to the pixel);
    - in every state the shading pass goes through ([j] rows done, then [i]
      pixels of the next row, then [n] samples of the next pixel) every
      pixel of the image is well-formed and not negative;
    - so is every pixel at the end of the shading pass.
    A channel may be NaN (zero throughput times an illumination that
    overflowed); NaN is never less than anything.  On channels that are
    numbers the two comparisons read [0 <= c] and [old <= new] ([notneg_le],
    [not_less_le]). *)
Theorem C10_radiance_never_negative_never_decreasing {E : Engine} {R : Random}
    (scene : Scene E) (camera : Camera) (depth : nat) :
  nonneg_inputs scene ->
  (forall (ndcPos : vec2) (g : Rng R) (k : nat), (k < depth)%nat ->
     let st0 := primary_ray (R := R) camera ndcPos g in
     let before := sampleColor (path_loop scene depth ndcPos k 0 st0) in
     let after := sampleColor (path_loop scene depth ndcPos (S k) 0 st0) in
     vgood before /\ vgood after /\ vnot_less after before)
  /\ (forall (img : Image) (g : Rng R) (x y n : nat),
     wf_image img -> (x < width img)%nat -> (y < height img)%nat ->
     vgood (rgb img x y) ->
     let before := rgb (fst (for_loop n (shade_sample scene camera depth x y) (img, g))) x y in
     let after := rgb (fst (for_loop (S n) (shade_sample scene camera depth x y) (img, g))) x y in
     vgood before /\ vgood after /\ vnot_less after before)
  /\ (forall (samples w h j i n : nat) (g : Rng R) (x y : nat),
     (j < h)%nat -> (i < w)%nat -> (x < w)%nat -> (y < h)%nat ->
     vgood (rgb (fst (pass_state scene camera samples depth w h j i n g)) x y))
  /\ (forall (samples w h : nat) (g : Rng R) (x y : nat), (x < w)%nat -> (y < h)%nat ->
     vgood (rgb (fst (shading_pass scene camera samples depth (Image_new w h) g)) x y)).
Proof.
  intros Hin. split; [|split; [|split]].
  - intros ndcPos g k Hk st0 before after.
    assert (Hd : depth <> O) by lia.
    destruct (path_loop_good scene depth Hin ndcPos k 0 st0 Hd vgood_zero vgood_one)
      as [[Hb _] Hle].
    destruct (path_loop_good scene depth Hin ndcPos (S k) 0 st0 Hd vgood_zero vgood_one)
      as [[Ha _] _].
    split; [exact Hb|]. split; [exact Ha|exact Hle].
  - intros img g x y n Hwf Hx Hy Hold.
    apply accumulator_step; assumption.
  - intros samples w h j i n g x y Hj Hi Hx Hy.
    destruct (pass_state_all_good scene camera depth Hin samples w h j i n g Hj Hi)
      as [(Hw & Hh & _) Hall].
    simpl in Hw, Hh. apply Hall; lia.
  - intros samples w h g x y Hx Hy.
    destruct (shading_pass_spec scene camera samples depth (Image_new w h) g
                (wf_Image_new w h)) as (_ & _ & Hacc).
    simpl in Hacc. rewrite Hacc by assumption. unfold accumulated.
    apply accumulate_pixel_good.
    + rewrite rgb_Image_new. exact vgood_zero.
    + apply samples_of_Forall. intros g'. apply trace_sample_good. exact Hin.
Qed.

(** A white floor under the sun, two bounces allowed: the first bounce
    brings the colour from 0 to 1, the second ray leaves the scene and the
    colour stays 1, which is not less.  Each sample is 1: the pixel holds 1
    after one sample and 2 after two, which is not less; the pixel is
    well-formed and not negative while the pass is under way and at its
    end. *)
Lemma C10_witness :
  let scene := Demo.floor_scene Demo.white [Demo.sun] in
  let ndcPos := Vec2 Demo.fhalf Demo.fhalf in
  let st0 := primary_ray (R := Demo.lcg) Demo.camera ndcPos 42 in
  let shade := shade_sample (R := Demo.lcg) scene Demo.camera 2 0 0 in
  nonneg_inputs scene
  /\ sampleColor (path_loop scene 2 ndcPos 1 0 st0) = Demo.white
  /\ sampleColor (path_loop scene 2 ndcPos 2 0 st0) = Demo.white
  /\ vnot_less (sampleColor (path_loop scene 2 ndcPos 2 0 st0))
               (sampleColor (path_loop scene 2 ndcPos 1 0 st0))
  /\ rgb (fst (for_loop 1 shade (Image_new 1 1, 42))) 0 0 = Demo.white
  /\ rgb (fst (for_loop 2 shade (Image_new 1 1, 42))) 0 0 = vec3_of Demo.ftwo
  /\ vnot_less (rgb (fst (for_loop 2 shade (Image_new 1 1, 42))) 0 0)
               (rgb (fst (for_loop 1 shade (Image_new 1 1, 42))) 0 0)
  /\ vgood (rgb (fst (pass_state (R := Demo.lcg) scene Demo.camera 2 2 1 1 0 0 1 42)) 0 0)
  /\ vgood (rgb (fst (shading_pass (R := Demo.lcg) scene Demo.camera 2 2
                        (Image_new 1 1) 42)) 0 0).
Proof.
  cbv zeta.
  assert (Hin : nonneg_inputs (Demo.floor_scene Demo.white [Demo.sun])).
  { apply demo_inputs; [repeat split|].
    repeat (constructor; [auto|]). constructor. }
  destruct (C10_radiance_never_negative_never_decreasing (R := Demo.lcg)
              (Demo.floor_scene Demo.white [Demo.sun]) Demo.camera 2 Hin)
    as (Hpath & Hacc & Hduring & Hpix).
  split; [exact Hin|]. split; [vm_compute; reflexivity|]. split; [vm_compute; reflexivity|].
  split.
  { destruct (Hpath (Vec2 Demo.fhalf Demo.fhalf) 42 1%nat ltac:(lia)) as (_ & _ & Hle).
    exact Hle. }
  split; [vm_compute; reflexivity|]. split; [vm_compute; reflexivity|].
  split.
  { destruct (Hacc (Image_new 1 1) 42 0%nat 0%nat 1%nat) as (_ & _ & Hle).
    - apply wf_Image_new.
    - simpl; lia.
    - simpl; lia.
    - rewrite rgb_Image_new. exact vgood_zero.
    - exact Hle. }
  split.
  - apply (Hduring 2%nat 1%nat 1%nat 0%nat 0%nat 1%nat 42 0%nat 0%nat); lia.
  - apply (Hpix 2%nat 1%nat 1%nat 42 0%nat 0%nat); lia.
Defined.

(** * Further properties of the integrator *)

(** Two loop bodies that agree give the same loop. *)
Lemma for_loop_ext {S : Type} (n : nat) (f g : nat -> S -> S) (s : S) :
  (forall i st, (i < n)%nat -> f i st = g i st) ->
  for_loop n f s = for_loop n g s.
Proof.
  intros H. induction n as [|n IH].
  - reflexivity.
  - rewrite !for_loop_S, IH by (intros; apply H; lia). apply H. lia.
Qed.

Section Background.

Context {E : Engine} {R : Random}.
Variable scene : Scene E.
Variable camera : Camera.
Variables samples depth : nat.
Variable mode : Background.
Variable image : Texture E.
Variable color : vec3.

Lemma bounce_background (ndcPos : vec2) (did : nat) (st : PathState R) :
  depth <> O ->
  bounce (with_background scene mode image color) depth ndcPos did st =
  bounce scene depth ndcPos did st.
Proof.
  intros Hd. unfold bounce, on_miss, compute_lighting. simpl.
  destruct depth; [contradiction|]. reflexivity.
Qed.

Lemma path_loop_background (ndcPos : vec2) (fuel did : nat) (st : PathState R) :
  depth <> O ->
  path_loop (with_background scene mode image color) depth ndcPos fuel did st =
  path_loop scene depth ndcPos fuel did st.
Proof.
  intros Hd. revert did st. induction fuel as [|fuel IH]; intros did st; [reflexivity|].
  cbn [path_loop]. rewrite bounce_background by assumption.
  destruct (bounce scene depth ndcPos did st) as [st' [|]]; [apply IH|reflexivity].
Qed.

Lemma trace_sample_background (w h x y : nat) (g : Rng R) :
  trace_sample (with_background scene mode image color) camera depth w h x y g =
  trace_sample scene camera depth w h x y g.
Proof.
  unfold trace_sample.
  destruct (Random_Float R g) as [jx g1]. destruct (Random_Float R g1) as [jy g2].
  destruct (Nat.eq_dec depth O) as [->|Hd]; [reflexivity|].
  rewrite path_loop_background by assumption. reflexivity.
Qed.

End Background.

(** X1.  The background is never read: replacing the scene's background
    mode, background image and background colour by any others leaves the
    rendered image and the final state of the generator exactly as they
    were, for every scene, camera, image size, number of samples and depth
    (also depth 0, where the path loop has no iteration).  The only reader
    of the background sits under the test [depth == 0] inside a loop that
    runs only when [depth] is at least 1. *)
Theorem X1_background_is_never_read {E : Engine} {R : Random}
    (scene : Scene E) (camera : Camera) (samples depth w h : nat) (g : Rng R)
    (mode : Background) (image : Texture E) (color : vec3) :
  render (with_background scene mode image color) camera samples depth w h g =
  render scene camera samples depth w h g.
Proof.
  unfold render, shading_pass, forParallel.
  assert (Hrow : forall y (s : Image * Rng R),
    shading_row (with_background scene mode image color) camera samples depth y s =
    shading_row scene camera samples depth y s).
  { intros y s. unfold shading_row. apply for_loop_ext. intros x st _.
    apply for_loop_ext. intros sid [img g0] _. unfold shade_sample.
    rewrite trace_sample_background. reflexivity. }
  assert (Hfold : forall l (s : Image * Rng R),
    fold_left (fun st y => shading_row (with_background scene mode image color)
                             camera samples depth y st) l s =
    fold_left (fun st y => shading_row scene camera samples depth y st) l s).
  { induction l as [|y l IH]; intros s; [reflexivity|]. simpl. rewrite Hrow. apply IH. }
  rewrite Hfold. reflexivity.
Qed.

(** ** How many random values a render draws *)

Lemma size_t_sub_le (depth : nat) :
  depth <> O -> size_t_sub depth 1 <= Z.of_nat depth - 1.
Proof.
  intros Hd. unfold size_t_sub. apply Z.mod_le; lia.
Qed.

Section DrawCount.

Context {E : Engine} {R : Random}.
Variable scene : Scene E.
Variable camera : Camera.
Variables samples depth : nat.

Lemma bounce_draws (ndcPos : vec2) (did : nat) (st : PathState (counted R)) :
  depth <> O ->
  let st' := fst (bounce scene depth ndcPos did st) in
  floats (snd (rng st')) = floats (snd (rng st)) /\
  (spheres (snd (rng st')) <=
     spheres (snd (rng st)) + (if decide (did + 1 < depth)%nat then 1 else 0))%nat.
Proof.
  intros Hd. unfold bounce.
  destruct (negb (hit E (intersects scene (rayPos st) (rayDir st)))).
  - simpl. split; [reflexivity|lia].
  - pose proof (size_t_sub_le depth Hd) as Hle.
    destruct (Z.ltb_spec (Z.of_nat did) (size_t_sub depth 1)) as [Hlt|Hge].
    + cbn [Random_sampleSphere counted].
      destruct (Random_sampleSphere R (fst (rng st))) as [s g']. simpl.
      split; [reflexivity|]. destruct (decide _); lia.
    + simpl. split; [reflexivity|lia].
Qed.

Lemma path_loop_draws (ndcPos : vec2) (fuel did : nat) (st : PathState (counted R)) :
  depth <> O ->
  let st' := path_loop scene depth ndcPos fuel did st in
  floats (snd (rng st')) = floats (snd (rng st)) /\
  (spheres (snd (rng st')) <= spheres (snd (rng st)) + Nat.min fuel (depth - 1 - did))%nat.
Proof.
  intros Hd. revert did st. induction fuel as [|fuel IH]; intros did st.
  - simpl. split; [reflexivity|lia].
  - cbn [path_loop]. destruct (bounce_draws ndcPos did st Hd) as [Hf Hs].
    destruct (bounce scene depth ndcPos did st) as [st1 [|]]; simpl in Hf, Hs.
    + destruct (IH (S did) st1) as [Hf2 Hs2]. cbv zeta in Hf2, Hs2. cbv zeta.
      split; [congruence|]. destruct (decide _); lia.
    + cbv zeta. split; [exact Hf|]. destruct (decide _); lia.
Qed.

Lemma trace_sample_draws (w h x y : nat) (g : Rng (counted R)) :
  let g' := snd (trace_sample scene camera depth w h x y g) in
  floats (snd g') = (floats (snd g) + 2)%nat /\
  (spheres (snd g') <= spheres (snd g) + (depth - 1))%nat.
Proof.
  unfold trace_sample. cbn [Random_Float counted].
  destruct (Random_Float R (fst g)) as [jx g1]. cbn [fst snd floats spheres].
  destruct (Random_Float R g1) as [jy g2]. cbn [fst snd floats spheres].
  destruct (Nat.eq_dec depth O) as [Hd|Hd].
  - rewrite Hd. simpl. split; lia.
  - match goal with |- context [path_loop scene depth ?n depth 0 ?s] =>
      destruct (path_loop_draws n depth 0 s Hd) as [Hf Hs] end.
    cbv zeta in Hf, Hs. simpl in Hf, Hs. cbn [fst snd]. split; lia.
Qed.

End DrawCount.

Lemma drawn_refl (depth : nat) {R : Random} (s : Image * Rng (counted R)) :
  drawn depth 0 s s.
Proof. unfold drawn. repeat split; lia. Qed.

Lemma drawn_trans (depth a b : nat) {R : Random} (s0 s1 s2 : Image * Rng (counted R)) :
  drawn depth a s0 s1 -> drawn depth b s1 s2 -> drawn depth (a + b) s0 s2.
Proof.
  unfold drawn. intros (Hw1 & Hh1 & Hf1 & Hs1) (Hw2 & Hh2 & Hf2 & Hs2).
  rewrite Nat.mul_add_distr_r. repeat split; lia.
Qed.

Section DrawnPass.

Context {E : Engine} {R : Random}.
Variable scene : Scene E.
Variable camera : Camera.
Variables samples depth : nat.

Lemma shade_sample_drawn (x y sid : nat) (s : Image * Rng (counted R)) :
  drawn depth 1 s (shade_sample scene camera depth x y sid s).
Proof.
  destruct s as [img g]. unfold shade_sample.
  destruct (trace_sample_draws scene camera depth (width img) (height img) x y g)
    as [Hf Hs].
  destruct (trace_sample _ _ _ _ _ _ _ g) as [c g']. cbv zeta in Hf, Hs.
  unfold drawn. simpl in *. repeat split; lia.
Qed.

Lemma shade_pixel_drawn (x y : nat) (s : Image * Rng (counted R)) :
  drawn depth samples s (for_loop samples (shade_sample scene camera depth x y) s).
Proof.
  apply (for_loop_invariant (fun i st => drawn depth i s st)).
  - apply drawn_refl.
  - intros i st _ Hst. replace (Datatypes.S i) with (i + 1)%nat by lia.
    eapply drawn_trans; [exact Hst|apply shade_sample_drawn].
Qed.

Lemma shading_row_drawn (y : nat) (s : Image * Rng (counted R)) :
  drawn depth (width (fst s) * samples) s (shading_row scene camera samples depth y s).
Proof.
  unfold shading_row.
  apply (for_loop_invariant (fun i st => drawn depth (i * samples) s st)).
  - apply drawn_refl.
  - intros i st _ Hst. replace (Datatypes.S i * samples)%nat with (i * samples + samples)%nat by lia.
    eapply drawn_trans; [exact Hst|apply shade_pixel_drawn].
Qed.

Lemma shading_pass_drawn (img : Image) (g : Rng (counted R)) :
  drawn depth (height img * (width img * samples)) (img, g)
        (shading_pass scene camera samples depth img g).
Proof.
  unfold shading_pass. rewrite forParallel_from_zero.
  apply (for_loop_invariant
           (fun j st => drawn depth (j * (width img * samples)) (img, g) st)).
  - apply drawn_refl.
  - intros j st _ Hst.
    replace (Datatypes.S j * (width img * samples))%nat
      with (j * (width img * samples) + width (fst st) * samples)%nat.
    + eapply drawn_trans; [exact Hst|apply shading_row_drawn].
    + destruct Hst as (Hw & _). rewrite Hw. simpl. lia.
Qed.

End DrawnPass.

(** X2.  A render of a [w] by [h] image draws exactly two jitter values
    ([Random::Float]) per sample, [2 * w * h * samples] in all, and at most
    [depth - 1] sphere samples ([Random::sampleSphere]) per sample: none at
    the last allowed bounce, none after a miss, none in the normalisation
    pass.  Counting the draws changes neither the image nor the final state
    of the generator. *)
Theorem X2_draws_of_a_render {E : Engine} {R : Random}
    (scene : Scene E) (camera : Camera) (samples depth w h : nat) (g : Rng R) :
  let plain := render scene camera samples depth w h g in
  let run := render (R := counted R) scene camera samples depth w h (g, mkDraws 0 0) in
  fst run = fst plain
  /\ fst (snd run) = snd plain
  /\ floats (snd (snd run)) = (2 * (w * h * samples))%nat
  /\ (spheres (snd (snd run)) <= w * h * samples * (depth - 1))%nat.
Proof.
  intros plain run.
  assert (Hsim : pass_sim (fun (a : Rng R) (b : Rng (counted R)) => fst b = a) plain run).
  { apply render_sim.
    - intros g1 g2 <-. cbn [Random_Float counted].
      destruct (Random_Float R (fst g2)) as [v g']. split; reflexivity.
    - intros g1 g2 <-. cbn [Random_sampleSphere counted].
      destruct (Random_sampleSphere R (fst g2)) as [v g']. split; reflexivity.
    - reflexivity. }
  destruct Hsim as [Himg Hg]. split; [symmetry; exact Himg|]. split; [exact Hg|].
  assert (Hsnd : snd run = snd (shading_pass (R := counted R) scene camera samples depth
                                   (Image_new w h) (g, mkDraws 0 0))).
  { unfold run, render. destruct (shading_pass _ _ _ _ _ _) as [img g']. reflexivity. }
  rewrite Hsnd.
  destruct (shading_pass_drawn scene camera samples depth (Image_new w h) (g, mkDraws 0 0))
    as (_ & _ & Hf & Hs).
  cbn [fst snd floats spheres] in Hf, Hs.
  change (height (Image_new w h)) with h in Hf, Hs.
  change (width (Image_new w h)) with w in Hf, Hs.
  replace (w * h * samples)%nat with (h * (w * samples))%nat by lia.
  split; [rewrite Hf; lia|lia].
Qed.

(** ** The last bounce *)

(** X3.  At the last allowed bounce ([did + 1 >= depth], with [depth] at
    least 1) a ray that hits leaves the ray and the generator as they are:
    the origin and the direction are not updated and no sphere sample is
    drawn (line 189); the iteration does not end in [break]. *)
Theorem X3_last_bounce_keeps_the_ray {E : Engine} {R : Random}
    (scene : Scene E) (depth : nat) (ndcPos : vec2) (did : nat) (st : PathState R) :
  hit E (intersects scene (rayPos st) (rayDir st)) = true ->
  (0 < depth <= did + 1)%nat ->
  let st' := fst (bounce scene depth ndcPos did st) in
  rayPos st' = rayPos st /\ rayDir st' = rayDir st /\ rng st' = rng st
  /\ snd (bounce scene depth ndcPos did st) = true.
Proof.
  intros Hhit Hd. cbv zeta. unfold bounce. rewrite Hhit. cbn [negb].
  pose proof (size_t_sub_le depth ltac:(lia)) as Hle.
  destruct (Z.ltb_spec (Z.of_nat did) (size_t_sub depth 1)) as [Hlt|Hge]; [lia|].
  simpl. auto.
Qed.

Lemma X3_witness :
  let scene := Demo.floor_scene Demo.white [Demo.sun] in
  let st := Demo.down_ray 4 in
  let st' := fst (bounce scene 3 (Vec2 Demo.fhalf Demo.fhalf) 2 st) in
  rayPos st' = rayPos st /\ rayDir st' = rayDir st /\ rng st' = 4
  /\ snd (bounce scene 3 (Vec2 Demo.fhalf Demo.fhalf) 2 st) = true.
Proof.
  cbv zeta.
  apply (X3_last_bounce_keeps_the_ray (R := Demo.lcg)
           (Demo.floor_scene Demo.white [Demo.sun]) 3 (Vec2 Demo.fhalf Demo.fhalf) 2
           (Demo.down_ray 4)).
  - reflexivity.
  - lia.
Defined.

(** ** The normalisation pass in any order *)

Section AnyOrder.

Context {E : Engine}.
Variable samples : nat.

Lemma normalize_pixels_spec (order : list (nat * nat)) (img : Image) :
  wf_image img -> List.NoDup order ->
  (forall x y, In (x, y) order -> (x < width img)%nat /\ (y < height img)%nat) ->
  same_shape (normalize_pixels (E := E) samples order img) img /\
  forall x y, (x < width img)%nat -> (y < height img)%nat ->
    (In (x, y) order ->
       rgb (normalize_pixels (E := E) samples order img) x y
       = gamma_encode (E := E) samples (rgb img x y)) /\
    (~ In (x, y) order ->
       rgb (normalize_pixels (E := E) samples order img) x y = rgb img x y).
Proof.
  revert img. induction order as [|[px py] l IH]; intros img Hwf Hnd Hin.
  - split; [repeat split; auto|]. intros x y _ _. split; [intros []|reflexivity].
  - inversion Hnd as [|? ? Hnotin Hnd']; subst.
    destruct (Hin px py (or_introl eq_refl)) as [Hpx Hpy].
    unfold normalize_pixels. cbn [fold_left fst snd].
    set (img1 := normalize_pixel (E := E) samples py px img).
    assert (Hshape1 : same_shape img1 img).
    { unfold img1, normalize_pixel. repeat split; auto using wf_set_rgb. }
    destruct Hshape1 as (Hw1 & Hh1 & Hwf1).
    destruct (IH img1 Hwf1 Hnd') as [(Hw2 & Hh2 & Hwf2) Hpix].
    { intros x y Hxy. rewrite Hw1, Hh1. apply Hin. right. exact Hxy. }
    fold (normalize_pixels (E := E) samples l img1).
    split; [repeat split; auto; congruence|].
    intros x y Hx Hy.
    destruct (Hpix x y ltac:(lia) ltac:(lia)) as [Hyes Hno].
    destruct (decide (x = px /\ y = py)) as [[-> ->]|Hne].
    + split; [intros _|intros Hn; exfalso; apply Hn; left; reflexivity].
      rewrite (Hno Hnotin). unfold img1, normalize_pixel.
      rewrite rgb_set_rgb_same by assumption. reflexivity.
    + assert (Hother : rgb img1 x y = rgb img x y).
      { unfold img1, normalize_pixel. apply rgb_set_rgb_other; [lia|lia|].
        destruct (decide (px = x)) as [Hp|Hp]; [right|left; exact Hp].
        intros Hq. apply Hne. split; congruence. }
      split.
      * intros [Heq|Hl]; [inversion Heq; subst; exfalso; apply Hne; split; reflexivity|].
        rewrite (Hyes Hl), Hother. reflexivity.
      * intros Hn. rewrite Hno, Hother; [reflexivity|]. intros Hl. apply Hn. right. exact Hl.
Qed.

End AnyOrder.

(** X4.  The normalisation and gamma pass gives the same image in whatever
    order its pixel updates run: for every list that holds each position of
    the image exactly once, running the updates of lines 207-208 in the
    order of the list produces the image the row-by-row pass produces.  An
    update reads and writes its own pixel only, so no schedule of the rows
    changes the result. *)
Theorem X4_normalisation_in_any_pixel_order {E : Engine} (samples : nat)
    (order : list (nat * nat)) (img : Image) :
  wf_image img -> List.NoDup order ->
  (forall x y, In (x, y) order <-> (x < width img)%nat /\ (y < height img)%nat) ->
  normalize_pixels (E := E) samples order img = gamma_pass (E := E) samples img.
Proof.
  intros Hwf Hnd Hall.
  destruct (normalize_pixels_spec (E := E) samples order img Hwf Hnd) as [(Hw & Hh & Hwf1) Hpix].
  { intros x y Hxy. apply Hall. exact Hxy. }
  destruct (gamma_pass_spec (E := E) samples img Hwf) as [(Hw2 & Hh2 & Hwf2) Hpix2].
  apply image_ext; try congruence.
  intros x y Hx Hy. rewrite Hw in Hx. rewrite Hh in Hy.
  destruct (Hpix x y Hx Hy) as [Hyes _].
  rewrite Hyes, Hpix2 by (try assumption; apply Hall; split; assumption). reflexivity.
Qed.

Lemma X4_witness :
  let img := set_rgb (set_rgb (Image_new 2 1) 0 0 Demo.white) 1 0 (vec3_of Demo.ftwo) in
  normalize_pixels (E := Demo.engine) 2 [(1, 0); (0, 0)]%nat img
  = gamma_pass (E := Demo.engine) 2 img.
Proof.
  cbv zeta.
  apply (X4_normalisation_in_any_pixel_order (E := Demo.engine) 2 [(1, 0); (0, 0)]%nat).
  - reflexivity.
  - repeat constructor; simpl; intuition congruence.
  - intros x y. simpl. split.
    + intros [H|[H|[]]]; inversion H; subst; lia.
    + intros [Hx Hy]. destruct x as [|[|x]]; destruct y; try lia; auto.
Defined.

(** * The command line *)

Lemma for_each_app {A S : Type} (body : S -> A -> outcome S) (l1 l2 : list A) (s : S) :
  for_each body (l1 ++ l2) s = let! s' := for_each body l1 s in for_each body l2 s'.
Proof.
  revert s. induction l1 as [|x l1 IH]; intros s; [reflexivity|].
  simpl. destruct (body s x) as [s'|e]; simpl; [apply IH|reflexivity].
Qed.

Lemma bind_Returns {A B : Type} (m : outcome A) (k : A -> outcome B) (b : B) :
  bind m k = Returns b -> exists a, m = Returns a /\ k a = Returns b.
Proof.
  destruct m as [a|e]; simpl; [eauto|discriminate].
Qed.

Lemma value_at_0 (v : string) (rest : list string) : value_at (v :: rest) 0 = v.
Proof. reflexivity. Qed.

Ltac case_keys :=
  repeat match goal with
  | |- context [String.eqb ?a ?b] => destruct (String.eqb_spec a b)
  | |- context [(?a <=? ?b)%nat] => destruct (Nat.leb_spec a b)
  end; cbn [andb].

Lemma process_unrecognised (c : RaytracerConfig.t) (arg : KeyValues) :
  unrecognised arg -> RaytracerConfig.process c arg = Returns c.
Proof.
  unfold unrecognised, RaytracerConfig.process. intros [Hnil|(H1 & H2 & H3 & H4 & H5)].
  - rewrite Hnil. simpl. rewrite !andb_false_r. reflexivity.
  - case_keys; try congruence; try reflexivity; destruct H5; congruence || lia.
Qed.

(** X6.  Arguments the constructor does not recognise leave the defaults:
    when every argument has no value, or a key other than "samples",
    "depth", "scene", "output" and "wxh", or is "wxh" with fewer than two
    values, the configuration is 1024 by 1024 pixels, 8 samples, depth 5,
    no scene, and the output path "./test__8_5_1024x1024.png"; nothing is
    thrown. *)
Theorem X6_unrecognised_arguments_leave_the_defaults (rawArguments : list KeyValues) :
  Forall unrecognised rawArguments ->
  RaytracerConfig.new rawArguments =
  Returns (RaytracerConfig.mk (1024, 1024) 8 5 "./test__8_5_1024x1024.png" "").
Proof.
  intros Hall. unfold RaytracerConfig.new.
  assert (H : forall c, for_each RaytracerConfig.process rawArguments c = Returns c).
  { induction Hall as [|a l Ha _ IH]; intros c; [reflexivity|].
    simpl. rewrite process_unrecognised by assumption. apply IH. }
  rewrite H. reflexivity.
Qed.

Lemma X6_witness :
  RaytracerConfig.new
    [argument "samples" []; argument "wxh" ["640"]; argument "verbose" ["1"]] =
  Returns (RaytracerConfig.mk (1024, 1024) 8 5 "./test__8_5_1024x1024.png" "").
Proof.
  apply X6_unrecognised_arguments_leave_the_defaults.
  constructor; [left; reflexivity|].
  constructor; [right; simpl; repeat split; try discriminate; right; lia|].
  constructor; [right; simpl; repeat split; try discriminate; left; discriminate|].
  constructor.
Defined.

(** ** The last value wins *)

Lemma new_Returns (rawArguments : list KeyValues) (cfg : RaytracerConfig.t) :
  RaytracerConfig.new rawArguments = Returns cfg ->
  exists c, for_each RaytracerConfig.process rawArguments RaytracerConfig.initial = Returns c
            /\ cfg = RaytracerConfig.set_default_path c.
Proof.
  unfold RaytracerConfig.new. intros H. apply bind_Returns in H.
  destruct H as (c & Hc & Heq). exists c. split; [exact Hc|]. congruence.
Qed.

Lemma for_each_cons_Returns {A S : Type} (body : S -> A -> outcome S)
    (x : A) (l : list A) (s s2 : S) :
  for_each body (x :: l) s = Returns s2 ->
  exists s1, body s x = Returns s1 /\ for_each body l s1 = Returns s2.
Proof. simpl. apply bind_Returns. Qed.

Lemma for_each_app_Returns {A S : Type} (body : S -> A -> outcome S)
    (l1 l2 : list A) (s s2 : S) :
  for_each body (l1 ++ l2) s = Returns s2 ->
  exists s1, for_each body l1 s = Returns s1 /\ for_each body l2 s1 = Returns s2.
Proof. rewrite for_each_app. apply bind_Returns. Qed.

(** A field is kept by all the arguments that do not set it. *)
Lemma for_each_keeps {A : Type} (field : RaytracerConfig.t -> A) (P : KeyValues -> Prop)
    (l : list KeyValues) (c c' : RaytracerConfig.t) :
  (forall a c1 c2, P a -> RaytracerConfig.process c1 a = Returns c2 -> field c2 = field c1) ->
  Forall P l ->
  for_each RaytracerConfig.process l c = Returns c' -> field c' = field c.
Proof.
  intros Hstep Hall. revert c. induction Hall as [|a l Ha _ IH]; intros c H.
  - simpl in H. congruence.
  - apply for_each_cons_Returns in H. destruct H as (c1 & H1 & H2).
    rewrite (IH _ H2). eapply Hstep; eassumption.
Qed.

Ltac case_keys_in H :=
  repeat match type of H with
  | context [String.eqb ?a ?b] => destruct (String.eqb_spec a b)
  | context [(?a <=? ?b)%nat] => destruct (Nat.leb_spec a b)
  end; cbn [andb] in H.

Ltac stoi_cases H :=
  repeat match type of H with
  | context [stoi ?v] => destruct (stoi v) eqn:?; cbn [bind] in H
  end.

Lemma process_keeps_samples (a : KeyValues) (c1 c2 : RaytracerConfig.t) :
  key a <> "samples" \/ values a = [] ->
  RaytracerConfig.process c1 a = Returns c2 ->
  RaytracerConfig.samples c2 = RaytracerConfig.samples c1.
Proof.
  intros Hk H. unfold RaytracerConfig.process in H.
  destruct Hk as [Hk|Hk].
  - case_keys_in H; try congruence; stoi_cases H; inversion H; reflexivity.
  - rewrite Hk in H. simpl in H. rewrite !andb_false_r in H. congruence.
Qed.

Lemma process_keeps_depth (a : KeyValues) (c1 c2 : RaytracerConfig.t) :
  key a <> "depth" \/ values a = [] ->
  RaytracerConfig.process c1 a = Returns c2 ->
  RaytracerConfig.depth c2 = RaytracerConfig.depth c1.
Proof.
  intros Hk H. unfold RaytracerConfig.process in H.
  destruct Hk as [Hk|Hk].
  - case_keys_in H; try congruence; stoi_cases H; inversion H; reflexivity.
  - rewrite Hk in H. simpl in H. rewrite !andb_false_r in H. congruence.
Qed.

Lemma samples_set_default_path c :
  RaytracerConfig.samples (RaytracerConfig.set_default_path c) = RaytracerConfig.samples c.
Proof. unfold RaytracerConfig.set_default_path. destruct (RaytracerConfig.outputPath c); reflexivity. Qed.

Lemma depth_set_default_path c :
  RaytracerConfig.depth (RaytracerConfig.set_default_path c) = RaytracerConfig.depth c.
Proof. unfold RaytracerConfig.set_default_path. destruct (RaytracerConfig.outputPath c); reflexivity. Qed.

Lemma size_t_of_negative_int (n : Z) :
  INT_MIN <= n < 0 -> size_t_of_int n = 2 ^ 64 + n.
Proof.
  unfold INT_MIN, size_t_of_int. intros Hn.
  rewrite <- (Z.mod_small (2 ^ 64 + n) (2 ^ 64)) by lia.
  rewrite <- (Z.mod_add n 1 (2 ^ 64)) by lia. f_equal. lia.
Qed.

Lemma stoi_range (s : string) (n : Z) : stoi s = Returns n -> INT_MIN <= n <= INT_MAX.
Proof.
  unfold stoi. destruct (read_sign _) as [neg s']. destruct (read_digits s' None) as [v|]; [|discriminate].
  destruct (Z.leb_spec INT_MIN (if neg then - v else v));
    destruct (Z.leb_spec (if neg then - v else v) INT_MAX); simpl; try discriminate.
  intros Heq. inversion Heq. subst. lia.
Qed.

(** X7.  The sample count and the depth come from the last argument of
    their key that carries a value, and are not checked: when the
    constructor returns, the first value [v] of that argument parses
    ([std::stoi]) to an [int] [n] and the field is [size_t(n)], that is [n]
    itself when [n] is not negative (0 included) and [2^64 + n] when it is
    negative; earlier arguments of the same key and further values of the
    argument play no part. *)
Theorem X7_last_count_wins_unchecked (k : string) (field : RaytracerConfig.t -> Z)
    (before after : list KeyValues) (v : string) (rest : list string)
    (cfg : RaytracerConfig.t) :
  (k = "samples" /\ field = RaytracerConfig.samples) \/
  (k = "depth" /\ field = RaytracerConfig.depth) ->
  Forall (fun a => key a <> k \/ values a = []) after ->
  RaytracerConfig.new (before ++ argument k (v :: rest) :: after) = Returns cfg ->
  exists n, stoi v = Returns n
    /\ field cfg = n mod 2 ^ 64
    /\ (0 <= n -> field cfg = n)
    /\ (n < 0 -> field cfg = 2 ^ 64 + n).
Proof.
  intros Hk Hafter Hnew. apply new_Returns in Hnew. destruct Hnew as (c & Hc & ->).
  apply for_each_app_Returns in Hc. destruct Hc as (c1 & _ & Hc).
  apply for_each_cons_Returns in Hc. destruct Hc as (c2 & Hv & Hc).
  unfold RaytracerConfig.process, argument in Hv. cbn [key values length] in Hv.
  assert (Hfield : exists n, stoi v = Returns n /\
            field (RaytracerConfig.set_default_path c) = size_t_of_int n).
  { destruct Hk as [[-> ->]|[-> ->]].
    - change (String.eqb "samples" "samples") with true in Hv. cbn [andb Nat.leb] in Hv.
      rewrite value_at_0 in Hv. apply bind_Returns in Hv. destruct Hv as (n & Hn & Hv).
      inversion Hv; subst c2; clear Hv. exists n. split; [exact Hn|].
      rewrite samples_set_default_path.
      rewrite (for_each_keeps RaytracerConfig.samples _ after _ c
                 process_keeps_samples Hafter Hc). reflexivity.
    - change (String.eqb "depth" "samples") with false in Hv.
      change (String.eqb "depth" "depth") with true in Hv. cbn [andb Nat.leb] in Hv.
      rewrite value_at_0 in Hv. apply bind_Returns in Hv. destruct Hv as (n & Hn & Hv).
      inversion Hv; subst c2; clear Hv. exists n. split; [exact Hn|].
      rewrite depth_set_default_path.
      rewrite (for_each_keeps RaytracerConfig.depth _ after _ c
                 process_keeps_depth Hafter Hc). reflexivity. }
  destruct Hfield as (n & Hn & Hf). exists n. split; [exact Hn|].
  rewrite Hf. pose proof (stoi_range v n Hn) as Hr.
  split; [reflexivity|]. split.
  - intros Hpos. unfold size_t_of_int. apply Z.mod_small. unfold INT_MAX in Hr. lia.
  - intros Hneg. apply size_t_of_negative_int. lia.
Qed.

Lemma X7_witness :
  exists n, stoi "-1" = Returns n
    /\ 18446744073709551615 = n mod 2 ^ 64
    /\ (0 <= n -> 18446744073709551615 = n)
    /\ (n < 0 -> 18446744073709551615 = 2 ^ 64 + n).
Proof.
  apply (X7_last_count_wins_unchecked "samples" RaytracerConfig.samples
           [argument "samples" ["16"]] [argument "scene" ["cornell"]] "-1" []
           (RaytracerConfig.mk (1024, 1024) 18446744073709551615 5
              "./test_cornell_18446744073709551615_5_1024x1024.png" "cornell")).
  - left. split; reflexivity.
  - constructor; [left; discriminate|constructor].
  - vm_compute. reflexivity.
Defined.

(** ** The output path *)

Lemma process_outputPath (a : KeyValues) (c1 c2 : RaytracerConfig.t) :
  RaytracerConfig.process c1 a = Returns c2 ->
  RaytracerConfig.outputPath c2 = RaytracerConfig.outputPath c1 \/
  (key a = "output" /\ values a !! 0%nat = Some (RaytracerConfig.outputPath c2)).
Proof.
  intros H. unfold RaytracerConfig.process in H.
  case_keys_in H; stoi_cases H; inversion H; subst; cbn [RaytracerConfig.outputPath];
    try (left; reflexivity);
    (right; split; [assumption|]; unfold value_at;
     destruct (values a) as [|v0 l]; [simpl in *; lia|reflexivity]).
Qed.

Lemma for_each_outputPath (l : list KeyValues) (c c' : RaytracerConfig.t) :
  for_each RaytracerConfig.process l c = Returns c' ->
  RaytracerConfig.outputPath c' = RaytracerConfig.outputPath c \/
  exists a, In a l /\ key a = "output"
            /\ values a !! 0%nat = Some (RaytracerConfig.outputPath c').
Proof.
  revert c. induction l as [|a l IH]; intros c H.
  - simpl in H. inversion H. left. reflexivity.
  - apply for_each_cons_Returns in H. destruct H as (c1 & H1 & H2).
    destruct (IH _ H2) as [Heq|(b & Hb & Hkb & Hvb)].
    + destruct (process_outputPath _ _ _ H1) as [Heq1|[Hk Hv]].
      * left. congruence.
      * right. exists a. split; [left; reflexivity|]. split; [exact Hk|]. congruence.
    + right. exists b. split; [right; exact Hb|]. split; assumption.
Qed.

Lemma default_path_set_default_path c :
  RaytracerConfig.default_path (RaytracerConfig.set_default_path c)
  = RaytracerConfig.default_path c.
Proof.
  unfold RaytracerConfig.set_default_path. destruct (RaytracerConfig.outputPath c); reflexivity.
Qed.

(** X8.  After construction the output path is never empty: it is the
    first value of an "output" argument, or, when no such argument left a
    non-empty path, the default path built from the final scene name, sample
    count, depth and size (so the default reflects the arguments wherever
    they stand on the command line, and an empty "output" value asks for the
    default). *)
Theorem X8_output_path_is_given_or_default (rawArguments : list KeyValues)
    (cfg : RaytracerConfig.t) :
  RaytracerConfig.new rawArguments = Returns cfg ->
  RaytracerConfig.outputPath cfg <> ""
  /\ (RaytracerConfig.outputPath cfg = RaytracerConfig.default_path cfg
      \/ exists a, In a rawArguments /\ key a = "output"
                   /\ values a !! 0%nat = Some (RaytracerConfig.outputPath cfg)).
Proof.
  intros Hnew. apply new_Returns in Hnew. destruct Hnew as (c & Hc & ->).
  rewrite default_path_set_default_path.
  apply for_each_outputPath in Hc. unfold RaytracerConfig.set_default_path.
  destruct (RaytracerConfig.outputPath c) as [|ch s0] eqn:Hout.
  - cbn [RaytracerConfig.outputPath]. split; [discriminate|left; reflexivity].
  - rewrite Hout. split; [discriminate|].
    destruct Hc as [Heq|Hex]; [discriminate|right; exact Hex].
Qed.

Lemma X8_witness :
  let cfg := RaytracerConfig.mk (64, 48) 8 2 "./test_cornell_8_2_64x48.png" "cornell" in
  RaytracerConfig.outputPath cfg <> ""
  /\ (RaytracerConfig.outputPath cfg = RaytracerConfig.default_path cfg
      \/ exists a, In a [argument "wxh" ["64"; "48"]; argument "output" [""];
                         argument "depth" ["2"]; argument "scene" ["cornell"]]
                   /\ key a = "output"
                   /\ values a !! 0%nat = Some (RaytracerConfig.outputPath cfg)).
Proof.
  cbv zeta. apply X8_output_path_is_given_or_default. vm_compute. reflexivity.
Defined.

(** ** A number that does not parse *)

Lemma process_bad_number (c : RaytracerConfig.t) (a : KeyValues) (e : exception) :
  bad_number a e -> RaytracerConfig.process c a = Throws e.
Proof.
  unfold bad_number, RaytracerConfig.process.
  intros [[Hk (v & Hv & Hs)]|[Hk (v1 & v2 & Hv1 & Hv2 & Hs)]].
  - destruct (values a) as [|v0 l] eqn:Hvals; [discriminate|]. simpl in Hv. inversion Hv; subst v0.
    rewrite value_at_0. cbn [length Nat.leb].
    destruct Hk as [-> | ->].
    + change (String.eqb "samples" "samples") with true. cbn [andb]. rewrite Hs. reflexivity.
    + change (String.eqb "depth" "samples") with false.
      change (String.eqb "depth" "depth") with true. cbn [andb]. rewrite Hs. reflexivity.
  - destruct (values a) as [|w0 [|w1 l]] eqn:Hvals; try discriminate.
    simpl in Hv1, Hv2. inversion Hv1; inversion Hv2; subst. rewrite Hk.
    change (String.eqb "wxh" "samples") with false.
    change (String.eqb "wxh" "depth") with false.
    change (String.eqb "wxh" "scene") with false.
    change (String.eqb "wxh" "output") with false.
    change (String.eqb "wxh" "wxh") with true. cbn [andb length Nat.leb].
    rewrite value_at_0. change (value_at (v1 :: v2 :: l) 1) with v2.
    destruct Hs as [Hs|[(n & Hn) Hs]].
    + rewrite Hs. reflexivity.
    + rewrite Hn, Hs. reflexivity.
Qed.

(** X9.  A number that [std::stoi] rejects aborts the program: when the
    arguments before it are processed without error and the value of
    "samples" or "depth", or one of the two values of "wxh", makes
    [std::stoi] throw, the constructor throws that exception whatever
    follows on the command line, and so does [main], before it looks at the
    help flag or at the scene name: nothing catches it. *)
Theorem X9_bad_number_aborts (before after : list KeyValues) (a : KeyValues) (e : exception)
    (c0 : RaytracerConfig.t) (showHelp : bool) :
  RaytracerConfig.new before = Returns c0 ->
  bad_number a e ->
  RaytracerConfig.new (before ++ a :: after) = Throws e
  /\ main_start showHelp (before ++ a :: after) = Throws e.
Proof.
  intros Hbefore Hbad. apply new_Returns in Hbefore. destruct Hbefore as (c & Hc & _).
  assert (H : RaytracerConfig.new (before ++ a :: after) = Throws e).
  { unfold RaytracerConfig.new. rewrite for_each_app, Hc. cbn [bind for_each].
    rewrite (process_bad_number c a e Hbad). reflexivity. }
  split; [exact H|]. unfold main_start. rewrite H. reflexivity.
Qed.

Lemma X9_witness :
  let args := [argument "scene" ["cornell"]] ++
              argument "wxh" ["640"; "x480"] :: [argument "samples" ["4"]] in
  RaytracerConfig.new args = Throws invalid_argument
  /\ main_start true args = Throws invalid_argument.
Proof.
  cbv zeta.
  apply (X9_bad_number_aborts [argument "scene" ["cornell"]] [argument "samples" ["4"]]
           (argument "wxh" ["640"; "x480"]) invalid_argument
           (RaytracerConfig.mk (1024, 1024) 8 5 "./test_cornell_8_5_1024x1024.png" "cornell")
           true).
  - vm_compute. reflexivity.
  - right. split; [reflexivity|]. exists "640", "x480". simpl.
    split; [reflexivity|]. split; [reflexivity|]. right.
    split; [exists 640; vm_compute; reflexivity|vm_compute; reflexivity].
Defined.

(** ** No scene *)

Lemma process_no_scene (a : KeyValues) (c1 c2 : RaytracerConfig.t) :
  names_no_scene a ->
  RaytracerConfig.scene c1 = "" ->
  RaytracerConfig.process c1 a = Returns c2 ->
  RaytracerConfig.scene c2 = "".
Proof.
  intros Ha Hc H. unfold RaytracerConfig.process in H.
  case_keys_in H; stoi_cases H; inversion H; subst; cbn [RaytracerConfig.scene];
    try assumption;
    (destruct Ha as [Ha|[Ha|Ha]];
     [ congruence
     | destruct (values a); [simpl in *; lia|discriminate]
     | unfold value_at; rewrite Ha; reflexivity ]).
Qed.

(** X10.  Without a scene name [main] returns 1 and renders nothing: when
    the constructor returns, help is not asked for and no argument gives
    "scene" a non-empty first value, [main] logs "Missing scene name." and
    returns 1 at line 88, whatever the other arguments are. *)
Theorem X10_no_scene_named_exits_with_1 (rawArguments : list KeyValues)
    (cfg : RaytracerConfig.t) :
  RaytracerConfig.new rawArguments = Returns cfg ->
  Forall names_no_scene rawArguments ->
  main_start false rawArguments = Returns (Exits 1 ["Missing scene name."]).
Proof.
  intros Hnew Hall. unfold main_start. rewrite Hnew. cbn [bind].
  apply new_Returns in Hnew. destruct Hnew as (c & Hc & ->).
  assert (Hscene : RaytracerConfig.scene c = "").
  { assert (Hgen : forall c0, RaytracerConfig.scene c0 = "" ->
              for_each RaytracerConfig.process rawArguments c0 = Returns c ->
              RaytracerConfig.scene c = "").
    { clear Hc. induction Hall as [|a l Ha _ IH]; intros c0 H0 H.
      - simpl in H. congruence.
      - apply for_each_cons_Returns in H. destruct H as (c1 & H1 & H2).
        apply (IH c1); [|exact H2]. eapply process_no_scene; eassumption. }
    apply (Hgen RaytracerConfig.initial); [reflexivity|exact Hc]. }
  unfold RaytracerConfig.set_default_path.
  destruct (RaytracerConfig.outputPath c); cbn [RaytracerConfig.scene]; rewrite Hscene;
    reflexivity.
Qed.

Lemma X10_witness :
  main_start false [argument "samples" ["4"]; argument "scene" [];
                    argument "output" ["out.png"]]
  = Returns (Exits 1 ["Missing scene name."]).
Proof.
  apply (X10_no_scene_named_exits_with_1 _
           (RaytracerConfig.mk (1024, 1024) 4 5 "out.png" "")).
  - vm_compute. reflexivity.
  - constructor; [left; discriminate|].
    constructor; [right; left; reflexivity|].
    constructor; [left; discriminate|]. constructor.
Defined.

(** ** Arguments with different keys *)

Lemma process_swap (x y : KeyValues) (c c1 c2 : RaytracerConfig.t) :
  key x <> key y ->
  RaytracerConfig.process c x = Returns c1 ->
  RaytracerConfig.process c1 y = Returns c2 ->
  exists c1', RaytracerConfig.process c y = Returns c1'
              /\ RaytracerConfig.process c1' x = Returns c2.
Proof.
  intros Hne Hx Hy. unfold RaytracerConfig.process in *.
  destruct (String.eqb_spec (key x) "samples"); destruct (String.eqb_spec (key y) "samples");
  destruct (String.eqb_spec (key x) "depth"); destruct (String.eqb_spec (key y) "depth");
  destruct (String.eqb_spec (key x) "scene"); destruct (String.eqb_spec (key y) "scene");
  destruct (String.eqb_spec (key x) "output"); destruct (String.eqb_spec (key y) "output");
  destruct (String.eqb_spec (key x) "wxh"); destruct (String.eqb_spec (key y) "wxh");
  try congruence;
  destruct (1 <=? length (values x))%nat; destruct (1 <=? length (values y))%nat;
  destruct (2 <=? length (values x))%nat; destruct (2 <=? length (values y))%nat;
  cbn [andb] in *;
  repeat match goal with
  | H : context [stoi ?v] |- _ => destruct (stoi v); cbn [bind] in *
  end;
  try discriminate;
  inversion Hx; subst; inversion Hy; subst; cbn;
  eexists; split; reflexivity.
Qed.

(** X11.  Two neighbouring arguments with different keys can be swapped:
    when the constructor returns a configuration for a command line, it
    returns the same configuration for the command line with the two
    arguments exchanged.  Only the order of arguments of the same key
    matters. *)
Theorem X11_arguments_with_different_keys_commute (before after : list KeyValues)
    (x y : KeyValues) (cfg : RaytracerConfig.t) :
  key x <> key y ->
  RaytracerConfig.new (before ++ x :: y :: after) = Returns cfg ->
  RaytracerConfig.new (before ++ y :: x :: after) = Returns cfg.
Proof.
  intros Hne Hnew. apply new_Returns in Hnew. destruct Hnew as (c & Hc & ->).
  apply for_each_app_Returns in Hc. destruct Hc as (c0 & Hbefore & Hc).
  apply for_each_cons_Returns in Hc. destruct Hc as (c1 & Hx & Hc).
  apply for_each_cons_Returns in Hc. destruct Hc as (c2 & Hy & Hafter).
  destruct (process_swap x y c0 c1 c2 Hne Hx Hy) as (c1' & Hy' & Hx').
  unfold RaytracerConfig.new. rewrite for_each_app, Hbefore. cbn [bind for_each].
  rewrite Hy'. cbn [bind]. rewrite Hx'. cbn [bind]. rewrite Hafter. reflexivity.
Qed.

Lemma X11_witness :
  RaytracerConfig.new ([argument "scene" ["cornell"]] ++
                       argument "wxh" ["64"; "48"] :: argument "samples" ["2"] ::
                       [argument "samples" ["4"]])
  = Returns (RaytracerConfig.mk (64, 48) 4 5 "./test_cornell_4_5_64x48.png" "cornell").
Proof.
  apply (X11_arguments_with_different_keys_commute
           [argument "scene" ["cornell"]] [argument "samples" ["4"]]
           (argument "samples" ["2"]) (argument "wxh" ["64"; "48"])).
  - discriminate.
  - vm_compute. reflexivity.
Defined.

(** * Directional lights *)

(** NaN is absorbing. *)
Lemma fmul_nan_l x : fmul fnan x = fnan.
Proof. reflexivity. Qed.
Lemma fmul_nan_r x : fmul x fnan = fnan.
Proof. destruct x; reflexivity. Qed.
Lemma fadd_nan_l x : fadd fnan x = fnan.
Proof. reflexivity. Qed.
Lemma fadd_nan_r x : fadd x fnan = fnan.
Proof. destruct x; reflexivity. Qed.
Lemma fsub_nan_l x : fsub fnan x = fnan.
Proof. reflexivity. Qed.
Lemma fsub_nan_r x : fsub x fnan = fnan.
Proof. destruct x; reflexivity. Qed.

Lemma zn_nan : zero_or_nan fnan.
Proof. left. reflexivity. Qed.
Lemma zn_zero s : zero_or_nan (S754_zero s).
Proof. right. exists s. reflexivity. Qed.

Lemma zn_fmul_zero_l s x : zero_or_nan (fmul (S754_zero s) x).
Proof. destruct x; simpl; auto using zn_nan, zn_zero. Qed.
Lemma zn_fmul_zero_r s x : zero_or_nan (fmul x (S754_zero s)).
Proof. destruct x; simpl; auto using zn_nan, zn_zero. Qed.
Lemma zn_fmul_l x y : zero_or_nan x -> zero_or_nan (fmul x y).
Proof. intros [->|[s ->]]; [apply zn_nan|apply zn_fmul_zero_l]. Qed.
Lemma zn_fmul_r x y : zero_or_nan y -> zero_or_nan (fmul x y).
Proof. intros [->|[s ->]]; [rewrite fmul_nan_r; apply zn_nan|apply zn_fmul_zero_r]. Qed.
Lemma zn_fsub x y : zero_or_nan x -> zero_or_nan y -> zero_or_nan (fsub x y).
Proof.
  intros [->|[s ->]] [->|[s' ->]];
    try destruct s; try destruct s'; simpl; auto using zn_nan, zn_zero.
Qed.
Lemma zn_fadd x y : zero_or_nan x -> zero_or_nan y -> zero_or_nan (fadd x y).
Proof.
  intros [->|[s ->]] [->|[s' ->]];
    try destruct s; try destruct s'; simpl; auto using zn_nan, zn_zero.
Qed.

(** The square of a zero is +0; so is a sum of +0. *)
Lemma normalize_degenerate (v : vec3) :
  zero_or_nan (vx v) -> zero_or_nan (vy v) -> zero_or_nan (vz v) ->
  normalize v = vec3_of fnan.
Proof.
  destruct v as [a b c]. simpl.
  intros [->|[sa ->]] [->|[sb ->]] [->|[sc ->]];
    repeat match goal with s : bool |- _ => destruct s end; reflexivity.
Qed.

Lemma cross_nan_l (f : vec3) : cross (vec3_of fnan) f = vec3_of fnan.
Proof. reflexivity. Qed.

Lemma dot_nan_l (v : vec3) : dot (vec3_of fnan) v = fnan.
Proof. reflexivity. Qed.

Lemma v4muls_nan (c : vec4) : v4muls c fnan = nan4.
Proof. unfold v4muls. rewrite !fmul_nan_r. reflexivity. Qed.

Lemma mat_col_nan (m : mat4) (c : vec4) : v4x c = fnan -> mat_col m c = nan4.
Proof.
  intros Hx. unfold mat_col. rewrite Hx, v4muls_nan. reflexivity.
Qed.

(** The view matrix of a direction along the y axis. *)
Lemma lookAt_vertical (sx sz : bool) (y : float) :
  let m := lookAt (vneg (vertical sx sz y)) (Vec3 fzero fzero fzero) (Vec3 fzero fone fzero) in
  rows_s_u_nan m.
Proof.
  intros m. unfold m, lookAt.
  set (eye := vneg (vertical sx sz y)).
  set (f := normalize (vsub (Vec3 fzero fzero fzero) eye)).
  assert (Hfx : zero_or_nan (vx f)).
  { unfold f, normalize, vmuls, vmap. cbn [vx]. apply zn_fmul_l.
    unfold eye. destruct sx; simpl; apply zn_zero. }
  assert (Hfz : zero_or_nan (vz f)).
  { unfold f, normalize, vmuls, vmap. cbn [vz]. apply zn_fmul_l.
    unfold eye. destruct sz; simpl; apply zn_zero. }
  assert (Hs : normalize (cross f (Vec3 fzero fone fzero)) = vec3_of fnan).
  { apply normalize_degenerate; unfold cross; cbn [vx vy vz].
    - apply zn_fsub; [apply zn_fmul_zero_r|apply zn_fmul_r; exact Hfz].
    - apply zn_fsub; [apply zn_fmul_zero_r|apply zn_fmul_zero_l].
    - apply zn_fsub; [apply zn_fmul_l; exact Hfx|apply zn_fmul_zero_l]. }
  rewrite Hs, cross_nan_l, dot_nan_l. repeat split.
Qed.

Lemma mvp_of_nan_view (p v : mat4) : rows_s_u_nan v -> mat_mul p v = nan_matrix.
Proof.
  intros (H0 & H1 & H2 & H3 & _). unfold mat_mul.
  rewrite !mat_col_nan by assumption. reflexivity.
Qed.

(** X12.  A directional light that points along the y axis has no usable
    matrices: for every direction [(+-0, y, +-0)], whatever [y] is (the sun
    at the zenith, [(0, -1, 0)], included), both after construction and
    after [update], the rows [s] and [u] of [_viewMatrix] are NaN in every
    entry and [_mvp] is NaN in all sixteen entries.  [glm::lookAt] is given
    the fixed up vector [(0, 1, 0)]; its cross product with a vertical
    direction is zero, and normalising zero gives NaN. *)
Theorem X12_vertical_light_has_nan_matrices (sx sz : bool) (y : float)
    (color : vec3) (extent near far : float) (l0 : DirectionalLight.t) :
  let d := vertical sx sz y in
  let fresh := DirectionalLight.new d color extent near far in
  let moved := DirectionalLight.update l0 d in
  rows_s_u_nan (DirectionalLight._viewMatrix fresh)
  /\ DirectionalLight._mvp fresh = nan_matrix
  /\ rows_s_u_nan (DirectionalLight._viewMatrix moved)
  /\ DirectionalLight._mvp moved = nan_matrix.
Proof.
  cbv zeta. pose proof (lookAt_vertical sx sz y) as Hv. cbv zeta in Hv.
  unfold DirectionalLight.new, DirectionalLight.update.
  cbn [DirectionalLight._viewMatrix DirectionalLight._mvp].
  split; [exact Hv|]. split; [apply mvp_of_nan_view; exact Hv|].
  split; [exact Hv|apply mvp_of_nan_view; exact Hv].
Qed.

Lemma last_cons_cons {A : Type} (d0 d : A) (ds : list A) :
  List.last (d :: ds) d0 = List.last ds d.
Proof.
  revert d0 d. induction ds as [|d' ds IH]; intros d0 d; [reflexivity|].
  change (List.last (d :: d' :: ds) d0) with (List.last (d' :: ds) d0).
  rewrite !IH. reflexivity.
Qed.

(** A step that rebuilds the state from its argument: the fold ends in the
    state built from the last argument. *)
Lemma fold_left_rebuild {A B : Type} (f : B -> A -> B) (g : A -> B)
    (l : list A) (a0 : A) :
  (forall a a', f (g a) a' = g a') ->
  fold_left f l (g a0) = g (List.last l a0).
Proof.
  intros Hf. revert a0. induction l as [|a l IH]; intros a0; [reflexivity|].
  rewrite last_cons_cons. simpl. rewrite Hf. apply IH.
Qed.

Lemma update_new (d0 d color : vec3) (extent near far : float) :
  DirectionalLight.update (DirectionalLight.new d0 color extent near far) d
  = DirectionalLight.new d color extent near far.
Proof.
  unfold DirectionalLight.update, DirectionalLight.new.
  cbn [DirectionalLight._color DirectionalLight._projectionMatrix]. reflexivity.
Qed.

(** X13.  [update] keeps the light consistent with its direction: after
    any sequence of updates, the light is exactly the light the constructor
    builds for the last direction given, with the original colour, extent
    and planes: [_viewMatrix] and [_mvp] are recomputed from the new
    direction, [_projectionMatrix] and [_color] are never touched, nothing
    of the earlier directions remains. *)
Theorem X13_updates_amount_to_a_fresh_light (d0 : vec3) (ds : list vec3)
    (color : vec3) (extent near far : float) :
  fold_left DirectionalLight.update ds (DirectionalLight.new d0 color extent near far)
  = DirectionalLight.new (List.last ds d0) color extent near far.
Proof.
  apply (fold_left_rebuild DirectionalLight.update
           (fun d => DirectionalLight.new d color extent near far)).
  intros d1 d. apply update_new.
Qed.

(** * Scene objects *)

Section ObjectDecode.

Context {D : Decoders}.
Variable mode : Storage D.

Lemma textures_added (l : list KeyValues) (o : Object.t D) :
  Object._textures
    (fold_left (fun o' paramTex => Object.addTexture o' (decodeTexture D paramTex mode)) l o)
  = Object._textures o ++ map (fun paramTex => decodeTexture D paramTex mode) l.
Proof.
  revert o. induction l as [|p l IH]; intros o; simpl.
  - rewrite app_nil_r. reflexivity.
  - rewrite IH. simpl. rewrite <- app_assoc. reflexivity.
Qed.

Lemma decode_param_textures (o : Object.t D) (param : KeyValues) :
  Object._textures (Object.decode_param mode o param)
  = Object._textures o ++ Object.described_textures mode param.
Proof.
  unfold Object.decode_param, Object.described_textures.
  destruct (String.eqb_spec (key param) "textures") as [Hk|Hk].
  - rewrite Hk. cbn [String.eqb Ascii.eqb Bool.eqb andb]. apply textures_added.
  - destruct (String.eqb_spec (key param) "type");
    destruct (String.eqb_spec (key param) "mesh");
    destruct (String.eqb_spec (key param) "shadows");
    destruct (String.eqb_spec (key param) "animations");
    destruct (String.eqb_spec (key param) "twosided");
    destruct (String.eqb_spec (key param) "masked");
    destruct (negb (length (values param) =? 0)%nat);
    try destruct (Object.types_at Object.types (value_at (values param) 0));
    cbn [andb negb Object._textures]; rewrite ?app_nil_r; reflexivity.
Qed.
Lemma decode_param_material (o : Object.t D) (param : KeyValues) :
  Object._material (Object.decode_param mode o param)
  = default (Object._material o) (Object.named_type param).
Proof.
  unfold Object.decode_param, Object.named_type, value_at.
  destruct (String.eqb_spec (key param) "type") as [Hk|Hk].
  - destruct (values param) as [|v l]; cbn [length Nat.eqb negb andb].
    + rewrite Hk. reflexivity.
    + change ((v :: l) !! 0%nat) with (Some v). cbn [default andb]. unfold id.
      destruct (Object.types_at Object.types v); reflexivity.
  - cbn [andb default].
    destruct (String.eqb_spec (key param) "mesh");
    destruct (String.eqb_spec (key param) "shadows");
    destruct (String.eqb_spec (key param) "textures");
    destruct (String.eqb_spec (key param) "animations");
    destruct (String.eqb_spec (key param) "twosided");
    destruct (String.eqb_spec (key param) "masked");
    destruct (negb (length (values param) =? 0)%nat);
    cbn [andb negb Object._material]; try reflexivity;
    (generalize (elements param); intros l; revert o;
     induction l as [|p l IH]; intros o; [reflexivity|]; simpl; rewrite IH; reflexivity).
Qed.

End ObjectDecode.

(** X14.  [decode] only ever appends textures: after decoding, the
    object's textures are the ones it had, followed by the textures
    described by the elements of every parameter keyed "textures", in the
    order of the description.  Nothing is removed or replaced, so decoding
    a description into an object that already has textures (or decoding
    twice) keeps the old ones in front. *)
Theorem X14_decode_appends_textures {D : Decoders}
    (o : Object.t D) (params : KeyValues) (mode : Storage D) :
  Object._textures (Object.decode o params mode)
  = Object._textures o ++ flat_map (Object.described_textures mode) (elements params).
Proof.
  unfold Object.decode.
  set (o1 := Object.mk _ _ _ _ _ _ _ _).
  change (Object._textures o) with (Object._textures o1).
  generalize o1. clear o1. generalize (elements params). intros l.
  induction l as [|p l IH]; intros o1; simpl.
  - rewrite app_nil_r. reflexivity.
  - rewrite IH, decode_param_textures, <- app_assoc. reflexivity.
Qed.

(** X15.  The object's type after [decode] is the one named by the last
    parameter keyed "type" whose first value is one of Common, PBRRegular,
    PBRParallax and PBRNoUVs; parameters naming an unknown type, or no value
    at all, are skipped without error, and when no parameter names a known
    type the object keeps the type it had. *)
Theorem X15_decode_keeps_the_last_known_type {D : Decoders}
    (o : Object.t D) (params : KeyValues) (mode : Storage D) :
  Object._material (Object.decode o params mode)
  = List.last (omap Object.named_type (elements params)) (Object._material o).
Proof.
  unfold Object.decode.
  set (o1 := Object.mk _ _ _ _ _ _ _ _).
  change (Object._material o) with (Object._material o1).
  generalize o1. clear o1. generalize (elements params). intros l.
  induction l as [|p l IH]; intros o1; [reflexivity|].
  cbn [fold_left omap list_omap]. rewrite IH, decode_param_material.
  destruct (Object.named_type p) as [ty|]; cbn [default]; [|reflexivity].
  unfold id. rewrite last_cons_cons. reflexivity.
Qed.

(** X16.  Animations are applied in the order they were added, each to the
    result of the previous ones: updating an object to which an animation
    was just added gives the model matrix of updating the object without
    it, passed through the new animation; [update] changes no other member
    (and [addAnimation] only the list of animations). *)
Theorem X16_animations_apply_in_the_order_added {D : Decoders}
    (o : Object.t D) (anim : Animation D) (fullTime frameTime : double) :
  Object.update (Object.addAnimation o anim) fullTime frameTime
  = Object.mk (Object._mesh o) (Object._textures o) (Object._animations o ++ [anim])
      (Animation_apply D anim (Object._model (Object.update o fullTime frameTime))
                       fullTime frameTime)
      (Object._material o) (Object._castShadow o) (Object._twoSided o) (Object._masked o).
Proof.
  unfold Object.update, Object.addAnimation. cbn [Object._animations Object._model
    Object._mesh Object._textures Object._material Object._castShadow Object._twoSided
    Object._masked].
  rewrite fold_left_app. reflexivity.
Qed.

(** [decode] on a small description: the unknown type is skipped, the two
    texture lists are appended to the texture the object had. *)
Example decode_example :
  let o := Object.mk (D := text_decoders) "none" ["old"] [] nan_matrix Object.Common
                     true false false in
  let params :=
    mkKeyValues "object" []
      [mkKeyValues "type" ["PBRParallax"] [];
       mkKeyValues "textures" [] [mkKeyValues "albedo" [] []; mkKeyValues "normal" [] []];
       mkKeyValues "type" ["Glass"] [];
       mkKeyValues "mesh" ["sphere"] [];
       mkKeyValues "textures" [] [mkKeyValues "depth" [] []]] in
  let o' := Object.decode o params tt in
  Object._textures o' = ["old"; "albedo"; "normal"; "depth"]
  /\ Object._material o' = Object.PBRParallax
  /\ Object._mesh o' = "sphere".
Proof. cbv zeta. repeat split. Qed.

(** * Frame timing *)

Lemma Timing_frames_snoc (frameTimes : list double) (frameTime : double) (t : Timing) :
  Timing_frames (frameTimes ++ [frameTime]) t =
  match Timing_frames frameTimes t with
  | Some t' => Timing_frame frameTime t'
  | None => None
  end.
Proof. unfold Timing_frames. rewrite fold_left_app. reflexivity. Qed.

(** X17.  The ring of frame times never leaves its vector and holds the
    most recent frames: after any number [n] of frames, both accesses
    [timings[currentTiming]] of every frame were inside the vector (the run
    has a result), the vector still has 20 entries, [currentTiming] is
    [n mod 20], slot [k mod 20] holds [1000.0 * frameTime] of frame [k] for
    each of the last 20 frames, and the slots no frame has written yet hold
    0.0. *)
Theorem X17_timings_hold_the_last_frames (frameTimes : list double) :
  exists t, Timing_frames frameTimes Timing_start = Some t
    /\ length (timings t) = 20%nat
    /\ currentTiming t = Z.of_nat (length frameTimes) mod 20
    /\ (forall (k : nat) (frameTime : double),
          frameTimes !! k = Some frameTime ->
          (length frameTimes <= k + 20)%nat ->
          timings t !! (k mod 20)%nat = Some (dmul d1000 frameTime))
    /\ (forall i : nat, (length frameTimes <= i < 20)%nat -> timings t !! i = Some dzero).
Proof.
  induction frameTimes as [|frameTime frameTimes IH] using rev_ind.
  - exists Timing_start. split; [reflexivity|]. split; [reflexivity|]. split; [reflexivity|].
    split.
    + intros k ft Hk. rewrite lookup_nil in Hk. discriminate.
    + intros i Hi. unfold Timing_start. cbn [timings].
      apply lookup_replicate. split; [reflexivity|].
      change (Z.to_nat frameCount) with 20%nat. lia.
  - destruct IH as (t & Hrun & Hlen & Hcur & Hlast & Hzero).
    rewrite Timing_frames_snoc, Hrun. unfold Timing_frame.
    set (n := length frameTimes) in *.
    assert (Hi : Z.to_nat (currentTiming t) = (n mod 20)%nat).
    { rewrite Hcur. change 20 with (Z.of_nat 20). rewrite <- Nat2Z.inj_mod.
      apply Nat2Z.id. }
    assert (Hlt : (n mod 20 < 20)%nat) by (apply Nat.mod_upper_bound; lia).
    rewrite Hi.
    destruct (timings t !! (n mod 20)%nat) as [old|] eqn:Hold;
      [|apply lookup_ge_None in Hold; lia].
    rewrite list_lookup_insert_eq by lia.
    eexists. split; [reflexivity|]. cbn [timings currentTiming].
    split; [rewrite length_insert; exact Hlen|].
    split.
    { rewrite length_app. cbn [length]. fold n. rewrite Hcur.
      unfold unsigned_int, frameCount.
      pose proof (Z.mod_pos_bound (Z.of_nat n) 20 ltac:(lia)) as Hb.
      rewrite (Z.mod_small (_ + 1) (2 ^ 32)) by lia.
      rewrite Nat2Z.inj_add. change (Z.of_nat 1) with 1.
      rewrite (Z.add_mod (Z.of_nat n) 1 20) by lia. reflexivity. }
    split.
    + intros k ft Hk Hrecent. rewrite length_app in Hrecent. cbn [length] in Hrecent. fold n in Hrecent.
      destruct (decide (k = n)) as [->|Hne].
      * unfold n in Hk. rewrite lookup_app_r in Hk by lia.
        rewrite Nat.sub_diag in Hk. simpl in Hk. inversion Hk; subst.
        apply list_lookup_insert_eq. lia.
      * assert (Hkn : (k < n)%nat).
        { apply lookup_lt_Some in Hk. rewrite length_app in Hk. cbn [length] in Hk. fold n in Hk. lia. }
        rewrite lookup_app_l in Hk by (fold n; lia).
        rewrite list_lookup_insert_ne.
        -- apply Hlast; [exact Hk|lia].
        -- intros Heq.
           pose proof (Nat.div_mod_eq n 20) as Hn. pose proof (Nat.div_mod_eq k 20) as Hk'.
           assert (n / 20 = k / 20 \/ n / 20 >= k / 20 + 1)%nat as [Hq|Hq].
           { assert (k / 20 <= n / 20)%nat by (apply Nat.Div0.div_le_mono; lia). lia. }
           ++ lia.
           ++ pose proof (Nat.mod_upper_bound k 20 ltac:(lia)). lia.
    + intros i Hi'. rewrite length_app in Hi'. cbn [length] in Hi'. fold n in Hi'.
      rewrite list_lookup_insert_ne.
      * apply Hzero. lia.
      * rewrite Nat.mod_small by lia. lia.
Qed.

(** * The colour conversion *)

(** ** Magnitudes: sums and products of small numbers do not overflow *)

Lemma binary_round_aux_shape sx mx ex lx :
  let r := binary_round_aux prec emax sx mx ex lx in
  r = fnan \/ r = S754_zero sx \/ r = S754_infinity sx \/
  exists m e, r = S754_finite sx m e.
Proof.
  cbv zeta. unfold binary_round_aux.
  destruct (shr_fexp prec emax mx ex lx) as [mrs' e'].
  destruct (shr_fexp prec emax _ e' loc_Exact) as [mrs'' e''].
  destruct (shr_m mrs'') as [|m|m]; auto.
  destruct (e'' <=? emax - prec); eauto 6.
Qed.

Lemma digits_le_pow m k : 0 <= m < 2 ^ k -> 0 <= k -> digits m <= k.
Proof.
  intros [Hm Hlt] Hk. destruct (Z.eq_dec m 0) as [->|Hne]; [exact Hk|].
  pose proof (digits_bounds m ltac:(lia)) as [Hlo _].
  destruct (Z_lt_le_dec k (digits m)) as [Hgt|]; [|lia].
  exfalso. assert (2 ^ k <= 2 ^ (digits m - 1)) by (apply Z.pow_le_mono_r; lia). lia.
Qed.

(** Rounding a number below [2^K] gives a number below [2^(K+1)]: no
    overflow as long as [K] is at most 127. *)
Lemma binary_round_aux_small sx mx ex lx K :
  0 < mx -> ex <= fexp32 (digits mx + ex) ->
  digits mx + ex <= K -> -149 <= K <= 127 ->
  small (K + 1) (binary_round_aux prec emax sx mx ex lx).
Proof.
  intros Hmx Hpre HK HKr. unfold binary_round_aux.
  pose proof (shr_fexp_spec mx ex lx ltac:(lia) Hpre) as H1.
  destruct (shr_fexp prec emax mx ex lx) as [mrs' e'] eqn:E1.
  simpl in H1. destruct H1 as (He' & Hm' & Hm'pos & Hcan1).
  set (e1 := fexp32 (digits mx + ex)) in *.
  set (m1 := mx / 2 ^ (e1 - ex)) in *. subst e'.
  set (m2 := round_nearest_even (shr_m mrs') (loc_of_shr_record mrs')).
  pose proof (round_nearest_even_bounds (shr_m mrs') (loc_of_shr_record mrs')) as Hrne.
  fold m2 in Hrne. rewrite Hm' in Hrne, Hcan1.
  assert (He1 : e1 <= K /\ e1 <= 103).
  { unfold e1. rewrite fexp32_eq. lia. }
  assert (Hd1 : 0 < m1 -> digits m1 + e1 <= K).
  { intros Hpos. destruct (Z_lt_le_dec (e1 - ex) (digits mx)) as [Hlt|Hge].
    - destruct (digits_shiftr mx (e1 - ex) Hmx ltac:(lia)) as [_ Hd]. fold m1 in Hd. lia.
    - unfold m1 in Hpos. rewrite shiftr_all in Hpos by lia. lia. }
  assert (Hd2 : digits m2 + e1 <= K + 1).
  { destruct (Z.eq_dec m1 0) as [Hz|Hnz].
    - assert (Hm2 : m2 = 0 \/ m2 = 1) by lia.
      destruct Hm2 as [-> | ->]; [change (digits 0) with 0|change (digits 1) with 1]; lia.
    - assert (Hpos : 0 < m1) by lia. specialize (Hd1 Hpos).
      pose proof (digits_succ m1 Hpos).
      assert (digits m2 <= digits (m1 + 1)).
      { destruct (Z.eq_dec m2 0) as [->|]; [apply digits_nonneg|apply digits_le_mono; lia]. }
      lia. }
  assert (Hm1 : 0 <= m1) by lia.
  assert (Hd12 : digits m1 <= digits m2).
  { destruct (Z.eq_dec m1 0) as [->|]; [apply digits_nonneg|apply digits_le_mono; lia]. }
  assert (Hpre2 : e1 <= fexp32 (digits m2 + e1)).
  { rewrite <- Hcan1 at 1. apply fexp32_mono. lia. }
  pose proof (shr_fexp_spec m2 e1 loc_Exact ltac:(lia) Hpre2) as H2.
  destruct (shr_fexp prec emax m2 e1 loc_Exact) as [mrs'' e''] eqn:E2.
  simpl in H2. destruct H2 as (He'' & Hm'' & Hm''pos & Hcan3).
  set (e3 := fexp32 (digits m2 + e1)) in *.
  assert (He3 : e3 <= 104).
  { unfold e3. rewrite fexp32_eq. lia. }
  destruct (shr_m mrs'') as [|m3|m3] eqn:Em3; [exact I| |lia].
  subst e''. destruct (Z.leb_spec e3 (emax - prec)) as [Hle|Hgt];
    [|unfold emax, prec in Hgt; lia].
  unfold small. split.
  - unfold valid. simpl. unfold bounded, canonical_mantissa.
    apply andb_true_intro. split; [|apply Z.leb_le; exact Hle].
    apply Z.eqb_eq. exact Hcan3.
  - assert (Hm2pos : 0 < m2).
    { destruct (Z.eq_dec m2 0) as [Hz|]; [|lia]. rewrite Hz, Z.div_0_l in Hm''; [lia|].
      apply Z.pow_nonzero; lia. }
    destruct (Z_lt_le_dec (e3 - e1) (digits m2)) as [Hlt|Hge].
    + destruct (digits_shiftr m2 (e3 - e1) Hm2pos ltac:(lia)) as [_ Hd].
      rewrite <- Hm'' in Hd. lia.
    + rewrite shiftr_all in Hm'' by lia. lia.
Qed.

Lemma binary_normalize_small (M e K : Z) (szero : bool) :
  digits (Z.abs M) + e <= K -> -149 <= K <= 127 ->
  small (K + 1) (binary_normalize prec emax M e szero).
Proof.
  intros HK HKr.
  assert (Hround : forall s p, digits (Z.pos p) + e <= K ->
            small (K + 1) (binary_round prec emax s p e)).
  { intros s p Hp. rewrite binary_round_unfold.
    destruct (shl_align_spec p e) as (_ & _ & Hdig & Hpre & _).
    apply binary_round_aux_small; [apply Pos2Z.is_pos|exact Hpre|lia|exact HKr]. }
  destruct M as [|p|p]; simpl; [exact I|apply Hround; exact HK|apply Hround; exact HK].
Qed.

Lemma valid_digits s m e : valid (S754_finite s m e) = true -> digits (Z.pos m) <= 24.
Proof.
  intros Hv. apply valid_finite in Hv. destruct Hv as [Hc _].
  revert Hc. rewrite fexp32_eq. lia.
Qed.

Lemma digits_lt_pow m : 0 <= m -> m < 2 ^ digits m.
Proof.
  intros Hm. destruct (Z.eq_dec m 0) as [->|]; [reflexivity|].
  apply digits_bounds. lia.
Qed.

Lemma fmul_small x y Kx Ky :
  small Kx x -> small Ky y -> -149 <= Kx + Ky <= 127 ->
  small (Kx + Ky + 1) (fmul x y).
Proof.
  intros Hx Hy HK.
  destruct x as [sx|sx| |sx mx ex]; destruct y as [sy|sy| |sy my ey];
    try contradiction; try exact I.
  destruct Hx as [Hvx Hdx]. destruct Hy as [Hvy Hdy].
  apply valid_finite in Hvx, Hvy. destruct Hvx as [Hcx _]. destruct Hvy as [Hcy _].
  unfold fmul, SFmul.
  pose proof (digits_pos (Z.pos mx) ltac:(lia)) as Hpx.
  pose proof (digits_pos (Z.pos my) ltac:(lia)) as Hpy.
  assert (Hpre : ex + ey <= fexp32 (digits (Z.pos (mx * my)) + (ex + ey))).
  { pose proof (digits_mul (Z.pos mx) (Z.pos my) ltac:(lia) ltac:(lia)) as Hd.
    change (Z.pos mx * Z.pos my) with (Z.pos (mx * my)) in Hd.
    revert Hcx Hcy. rewrite !fexp32_eq. lia. }
  assert (Hup : digits (Z.pos (mx * my)) <= digits (Z.pos mx) + digits (Z.pos my)).
  { apply digits_le_pow; [|lia]. split; [lia|].
    rewrite Pos2Z.inj_mul, Z.pow_add_r by lia.
    pose proof (digits_lt_pow (Z.pos mx) ltac:(lia)).
    pose proof (digits_lt_pow (Z.pos my) ltac:(lia)).
    apply Z.mul_lt_mono_nonneg; lia. }
  apply binary_round_aux_small; [apply Pos2Z.is_pos|exact Hpre|lia|lia].
Qed.

Lemma aligned_below (m : positive) (e ez K : Z) :
  ez <= e -> digits (Z.pos m) + e <= K ->
  Z.pos (fst (shl_align m e ez)) < 2 ^ (K - ez).
Proof.
  intros Hle HK. rewrite shl_align_value by exact Hle.
  pose proof (digits_lt_pow (Z.pos m) ltac:(lia)) as Hlt.
  pose proof (digits_pos (Z.pos m) ltac:(lia)) as Hpos.
  apply Z.lt_le_trans with (2 ^ digits (Z.pos m) * 2 ^ (e - ez)).
  - apply Z.mul_lt_mono_pos_r; [apply Z.pow_pos_nonneg; lia|exact Hlt].
  - rewrite <- Z.pow_add_r by lia. apply Z.pow_le_mono_r; lia.
Qed.

Lemma fsub_small x y K :
  small K x -> small K y -> -150 <= K <= 126 ->
  small (K + 2) (fsub x y).
Proof.
  intros Hx Hy HK.
  destruct x as [sx|sx| |sx mx ex]; destruct y as [sy|sy| |sy my ey];
    try contradiction.
  - destruct sx, sy; exact I.
  - destruct Hy as [Hvy Hdy].
    change (small (K + 2) (S754_finite (negb sy) my ey)). split; [exact Hvy|lia].
  - destruct Hx as [Hvx Hdx].
    change (small (K + 2) (S754_finite sx mx ex)). split; [exact Hvx|lia].
  - destruct Hx as [_ Hdx]. destruct Hy as [_ Hdy].
    unfold fsub, SFsub. set (ez := Z.min ex ey).
    pose proof (aligned_below mx ex ez K ltac:(lia) Hdx) as HX.
    pose proof (aligned_below my ey ez K ltac:(lia) Hdy) as HY.
    set (X := Z.pos (fst (shl_align mx ex ez))) in *.
    set (Y := Z.pos (fst (shl_align my ey ez))) in *.
    assert (HXpos : 0 < X) by apply Pos2Z.is_pos.
    assert (HYpos : 0 < Y) by apply Pos2Z.is_pos.
    assert (Hk : 0 <= K - ez).
    { destruct (Z_lt_le_dec (K - ez) 0) as [Hneg|]; [|lia].
      rewrite Z.pow_neg_r in HX by lia. lia. }
    replace (K + 2) with ((K + 1) + 1) by lia.
    apply binary_normalize_small; [|lia].
    assert (Habs : Z.abs (cond_Zopp sx X - cond_Zopp sy Y) < 2 ^ (K + 1 - ez)).
    { replace (K + 1 - ez) with (Z.succ (K - ez)) by lia. rewrite Z.pow_succ_r by lia.
      destruct sx, sy; simpl; lia. }
    pose proof (digits_le_pow (Z.abs (cond_Zopp sx X - cond_Zopp sy Y)) (K + 1 - ez)
                  ltac:(lia) ltac:(lia)).
    lia.
Qed.

Lemma fabs_small x K : small K x -> small K (fabs x).
Proof. destruct x; simpl; auto. Qed.

Lemma fone_small : small 1 fone.
Proof. split; [reflexivity|]. vm_compute. discriminate. Qed.

Lemma f2_small : small 2 f2.
Proof. split; [reflexivity|]. vm_compute. discriminate. Qed.

Lemma small_weaken x K K' : K <= K' -> small K x -> small K' x.
Proof. intros HK. destruct x; simpl; auto. intros [Hv Hd]. split; [exact Hv|lia]. Qed.

(** [fmod(hue, 2)] is below 2 in magnitude. *)
Lemma ffmod_2_small (hue : float) :
  small 127 hue \/ (exists s m e, hue = S754_finite s m e) ->
  small 2 (ffmod hue f2).
Proof.
  intros Hh.
  assert (Hshape : (exists s, hue = S754_zero s) \/ exists s m e, hue = S754_finite s m e).
  { destruct Hh as [Hs|Hf]; [|right; exact Hf].
    destruct hue as [s|s| |s m e]; try contradiction; [left|right]; eauto. }
  destruct Hshape as [[s ->]|(s & m & e & ->)]; [exact I|].
  change f2 with (S754_finite false 8388608 (-22)). unfold ffmod.
  set (ez := Z.min e (-22)).
  set (r := (Z.pos m * 2 ^ (e - ez)) mod (8388608 * 2 ^ (-22 - ez))).
  assert (Hpow : 0 < 2 ^ (-22 - ez)) by (apply Z.pow_pos_nonneg; lia).
  assert (Hr : 0 <= r < 8388608 * 2 ^ (-22 - ez)) by (apply Z.mod_pos_bound; lia).
  assert (Hlt : r < 2 ^ (1 - ez)).
  { replace (1 - ez) with (23 + (-22 - ez)) by lia. rewrite Z.pow_add_r by lia.
    change (2 ^ 23) with 8388608. lia. }
  pose proof (digits_le_pow r (1 - ez) ltac:(lia) ltac:(lia)) as Hd.
  replace 2 with (1 + 1) by lia.
  apply binary_normalize_small; [|lia].
  destruct s; [rewrite Z.abs_opp|]; rewrite Z.abs_eq by lia; lia.
Qed.

Lemma signed_hue (s : bool) (mx : positive) (ex : Z) :
  signed s (fdiv (S754_finite s mx ex) f60).
Proof.
  change f60 with (S754_finite false 15728640 (-18)). unfold fdiv, SFdiv.
  destruct (SFdiv_core_binary prec emax (Z.pos mx) ex 15728640 (-18)) as [[mz ez] lz].
  rewrite xorb_false_r.
  destruct (binary_round_aux_shape s mz ez lz) as [H|[H|[H|(m & e & H)]]];
    rewrite H; simpl; auto.
Qed.

Lemma signed_binary_normalize (s : bool) (z : Z) :
  (if s then z <= 0 else 0 <= z) -> signed s (binary_normalize prec emax z 0 s).
Proof.
  intros Hz. destruct z as [|p|p]; simpl; [exact I| |].
  - destruct s; [lia|].
    destruct (binary_round_cases false p 0) as [_ [H|[H|(m & e & H)]]]; rewrite H; simpl; auto.
  - destruct s; [|lia].
    destruct (binary_round_cases true p 0) as [_ [H|[H|(m & e & H)]]]; rewrite H; simpl; auto.
Qed.

Lemma signed_ffloor (s : bool) (x : float) : signed s x -> signed s (ffloor x).
Proof.
  destruct x as [s'|s'| |s' m e]; cbn [signed ffloor]; auto. intros ->.
  destruct (Z.leb_spec 0 e); [reflexivity|].
  assert (Hq : 0 <= Z.pos m / 2 ^ (- e)) by (apply Z.div_pos; [lia|apply Z.pow_pos_nonneg; lia]).
  destruct s.
  - apply (signed_binary_normalize true). destruct (_ =? 0); lia.
  - apply (signed_binary_normalize false). exact Hq.
Qed.

Lemma int_of_signed (s : bool) (x : float) (n : Z) :
  signed s x -> int_of_float x = Some n -> if s then n <= 0 else 0 <= n.
Proof.
  destruct x as [s'|s'| |s' m e]; simpl; try discriminate.
  - intros _ H. inversion H. destruct s; lia.
  - intros -> H.
    assert (Hv : 0 <= (if 0 <=? e then Z.pos m * 2 ^ e else Z.pos m / 2 ^ (- e))).
    { destruct (Z.leb_spec 0 e).
      - apply Z.mul_nonneg_nonneg; [lia|apply Z.pow_nonneg; lia].
      - apply Z.div_pos; [lia|apply Z.pow_pos_nonneg; lia]. }
    destruct (_ && _); [|discriminate]. inversion H. destruct s; lia.
Qed.

(** X18.  The sector [id] has the sign of the hue, and a negative sector
    has no colour: for a finite hue for which the conversion is defined,
    [id = int(floor(hue / 60)) % 6] lies in [0, 5] when the hue is positive
    and in [-5, 0] when it is negative ([%] truncates towards zero); the
    [switch] has no case for a negative [id], so [base] stays zero and the
    three channels are all [m + 0]: a negative hue is not wrapped around
    the colour circle, it gives a grey unless [floor(hue / 60)] is a
    multiple of 6. *)
Theorem X18_negative_hue_gives_grey (hsl : vec3) (s : bool) (mx : positive) (ex id : Z) :
  vx hsl = S754_finite s mx ex ->
  hsl_id hsl = Some id ->
  (if s then -5 <= id <= 0 else 0 <= id <= 5)
  /\ (id < 0 -> hslToRgb hsl = Some (vec3_of (fadd (hsl_m hsl) fzero))).
Proof.
  intros Hx Hid. split.
  - unfold hsl_id, hsl_hue in Hid. rewrite Hx in Hid.
    destruct (int_of_float _) as [n|] eqn:Hn; [|discriminate].
    inversion Hid; subst id; clear Hid.
    apply (int_of_signed s) in Hn; [|apply signed_ffloor, signed_hue].
    destruct s.
    + pose proof (Z.rem_bound_pos_neg n 6 ltac:(lia) Hn). lia.
    + pose proof (Z.rem_bound_pos n 6 Hn ltac:(lia)). lia.
  - intros Hneg. unfold hslToRgb. rewrite Hid.
    destruct id as [|p|p]; try lia. reflexivity.
Qed.

Lemma X18_witness :
  let hsl := Vec3 (S754_finite true 15728640 (-19)) fone f0_5 in
  (-5 <= -1 <= 0)
  /\ (-1 < 0 -> hslToRgb hsl = Some (vec3_of (fadd (hsl_m hsl) fzero))).
Proof.
  cbv zeta.
  apply (X18_negative_hue_gives_grey
           (Vec3 (S754_finite true 15728640 (-19)) fone f0_5) true 15728640 (-19) (-1)).
  - reflexivity.
  - vm_compute. reflexivity.
Defined.

(** A lightness in (0, 1]. *)
Lemma unit_interval_small (l : float) :
  valid l = true -> flt fzero l = true -> fle l fone = true ->
  exists m e, l = S754_finite false m e /\ small 1 l.
Proof.
  intros Hv Hpos Hle.
  destruct l as [s|s| |s m e]; try (destruct s; discriminate); try discriminate.
  destruct s; [discriminate|]. exists m, e. split; [reflexivity|].
  split; [exact Hv|]. pose proof (valid_digits _ _ _ Hv) as Hd.
  unfold fle, SFleb, SFcompare, fone in Hle. clear Hv Hpos.
  destruct (Z.compare_spec e (-23)) as [He|He|He]; try discriminate.
  - subst e. destruct (Pos.compare_cont Eq m 8388608) eqn:Hc; try discriminate; clear Hle.
    + assert (m = 8388608%positive) by (apply Pos.compare_eq; exact Hc). subst m.
      vm_compute. discriminate.
    + assert (Hlt : Z.pos m < 8388608) by exact Hc. clear Hc.
      assert (digits (Z.pos m) <= 23).
      { apply digits_le_pow; [|clear; lia]. change (2 ^ 23) with 8388608. clear Hd. lia. }
      lia.
  - clear Hle. lia.
Qed.

Lemma zero_fmul_small (s : bool) (x : float) (K : Z) :
  small K x -> exists s', fmul (S754_zero s) x = S754_zero s'.
Proof. destruct x; simpl; try contradiction; eauto. Qed.

Lemma small_fmul_zero (s : bool) (x : float) (K : Z) :
  small K x -> exists s', fmul x (S754_zero s) = S754_zero s'.
Proof. destruct x; simpl; try contradiction; eauto. Qed.

(** The hue, once its sector is defined, is a zero or a finite number. *)
Lemma hue_of_defined_sector (hsl : vec3) (id : Z) :
  hsl_id hsl = Some id ->
  (exists s, hsl_hue hsl = S754_zero s) \/ exists s m e, hsl_hue hsl = S754_finite s m e.
Proof.
  unfold hsl_id. destruct (hsl_hue hsl) as [s|s| |s m e]; simpl; try discriminate; eauto 6.
Qed.

Lemma hsl_base_components (chroma x : float) (id : Z) :
  let base := hsl_base chroma x id in
  (vx base = chroma \/ vx base = x \/ vx base = fzero) /\
  (vy base = chroma \/ vy base = x \/ vy base = fzero) /\
  (vz base = chroma \/ vz base = x \/ vz base = fzero).
Proof.
  unfold hsl_base.
  destruct id as [|[[p|p|]|[p|p|]|]|p]; simpl; try destruct p; simpl; auto 10.
Qed.

(** X19.  Without saturation the colour is the grey of its lightness: for
    a saturation of zero (of either sign), a well-formed lightness [l] in
    (0, 1] and any hue for which the conversion is defined, the result is
    exactly [(l, l, l)], bit for bit: no rounding error is introduced and
    the hue plays no part. *)
Theorem X19_no_saturation_gives_the_lightness (h l : float) (sgn : bool) (rgb : vec3) :
  valid l = true -> flt fzero l = true -> fle l fone = true ->
  hslToRgb (Vec3 h (S754_zero sgn) l) = Some rgb ->
  rgb = vec3_of l.
Proof.
  intros Hv Hpos Hle Hrgb.
  destruct (unit_interval_small l Hv Hpos Hle) as (ml & el & Hl & Hsmall).
  set (hsl := Vec3 h (S754_zero sgn) l) in *.
  unfold hslToRgb in Hrgb. destruct (hsl_id hsl) as [id|] eqn:Hid; [|discriminate].
  (* chroma is a zero *)
  assert (Hchroma : exists c, hsl_chroma hsl = S754_zero c).
  { unfold hsl_chroma, hsl. cbn [vy vz].
    apply (small_fmul_zero sgn _ 8).
    replace 8 with (6 + 2) by lia. apply fsub_small; [|apply fabs_small|lia].
    - apply (small_weaken _ 1); [lia|apply fone_small].
    - replace 6 with (4 + 2) by lia. apply fsub_small; [| |lia].
      + replace 4 with (2 + 1 + 1) by lia.
        apply fmul_small; [apply f2_small|exact Hsmall|lia].
      + apply (small_weaken _ 1); [lia|apply fone_small]. }
  destruct Hchroma as [c Hc].
  (* so is x *)
  assert (Hx : exists c', hsl_x hsl = S754_zero c').
  { unfold hsl_x. rewrite Hc. apply (zero_fmul_small c _ 6).
    replace 6 with (4 + 2) by lia. apply fsub_small; [|apply fabs_small|lia].
    - apply (small_weaken _ 1); [lia|apply fone_small].
    - replace 4 with (2 + 2) by lia. apply fsub_small; [| |lia].
      + apply ffmod_2_small.
        destruct (hue_of_defined_sector hsl id Hid) as [[s Hs]|Hf]; [|right; exact Hf].
        left. rewrite Hs. exact I.
      + apply (small_weaken _ 1); [lia|apply fone_small]. }
  destruct Hx as [c' Hc'].
  (* m is the lightness *)
  assert (Hm : hsl_m hsl = l).
  { unfold hsl_m. rewrite Hc. unfold hsl. cbn [vz]. rewrite Hl. reflexivity. }
  rewrite Hm, Hc, Hc' in Hrgb.
  destruct (hsl_base_components (S754_zero c) (S754_zero c') id) as (H1 & H2 & H3).
  cbv zeta in H1, H2, H3. inversion Hrgb; subst rgb; clear Hrgb.
  assert (Hadd : forall z, z = S754_zero c \/ z = S754_zero c' \/ z = fzero -> fadd l z = l).
  { intros z [-> | [-> | ->]]; rewrite Hl; reflexivity. }
  rewrite (Hadd _ H1), (Hadd _ H2), (Hadd _ H3). reflexivity.
Qed.

Lemma X19_witness :
  let grey := Vec3 (float_of_Z 200) (S754_zero false) f0_5 in
  hslToRgb grey = Some (Vec3 f0_5 f0_5 f0_5)
  /\ Vec3 f0_5 f0_5 f0_5 = vec3_of f0_5.
Proof.
  cbv zeta. split; [vm_compute; reflexivity|].
  apply (X19_no_saturation_gives_the_lightness
           (float_of_Z 200) f0_5 false (Vec3 f0_5 f0_5 f0_5)).
  - reflexivity.
  - reflexivity.
  - reflexivity.
  - vm_compute. reflexivity.
Defined.

(** * Shadow map passes *)

Lemma bound_layers_app {G : ShadowEngine} (a b : list (GLCall G)) :
  bound_layers (a ++ b) = bound_layers a ++ bound_layers b.
Proof. unfold bound_layers. apply omap_app. Qed.


Lemma concat_imap_cons {A B : Type} (f : nat -> A -> list B) (x : A) (l : list A) :
  concat (imap f (x :: l)) = f O x ++ concat (imap (fun i => f (S i)) l).
Proof. reflexivity. Qed.

Section ShadowPasses.

Context {G : ShadowEngine}.
Variable objects : list (Object.t (decoders G)).


Lemma draw_object_cube_layers (face : mat4) (l : list (Object.t (decoders G))) :
  bound_layers (flat_map (draw_object_cube face) l) = [].
Proof.
  induction l as [|o l IH]; [reflexivity|]. simpl. rewrite bound_layers_app, IH, app_nil_r.
  unfold draw_object_cube.
  destruct (negb _); [reflexivity|]. destruct (negb _); [reflexivity|].
  destruct (Object._masked o); reflexivity.
Qed.



Lemma draw_light_cube_layers (lid : nat) (light : ShadowLight G) :
  bound_layers (draw_light_cube objects lid light) =
  if castsShadow G light then map (fun i => lid * 6 + i)%nat (seq 0 6) else [].
Proof.
  unfold draw_light_cube. destruct (castsShadow G light); cbn [negb]; [|reflexivity].
  rewrite bound_layers_app. cbn [bound_layers omap list_omap app].
  generalize (seq 0 6). intros l. induction l as [|i l IH]; [reflexivity|].
  cbn [flat_map map]. rewrite bound_layers_app. fold (@bound_layers G) in IH. rewrite IH.
  unfold draw_face. rewrite bound_layers_app, draw_object_cube_layers. reflexivity.
Qed.

(** The layers bound for the lights from index [a] on, [k] layers each. *)
Lemma layers_of_lights (k : nat) (f : nat -> ShadowLight G -> list (GLCall G))
    (lights : list (ShadowLight G)) (a : nat) :
  (0 < k)%nat ->
  (forall lid light, bound_layers (f lid light) =
     if castsShadow G light then seq (lid * k) k else []) ->
  let layers := bound_layers (concat (imap (fun i => f (a + i)%nat) lights)) in
  List.NoDup layers /\
  forall layer, In layer layers <->
    (a * k <= layer)%nat /\
    exists light, lights !! (layer / k - a)%nat = Some light /\ castsShadow G light = true.
Proof.
  intros Hk Hf. revert a. induction lights as [|light lights IH]; intros a layers.
  - split; [constructor|]. intros layer. split; [intros []|].
    intros (_ & light & Hl & _). rewrite lookup_nil in Hl. discriminate.
  - unfold layers. rewrite concat_imap_cons, bound_layers_app, Hf.
    replace (a + 0)%nat with a by lia.
    assert (Hrest : forall l0 : list (ShadowLight G),
              imap (fun i => f (a + S i)%nat) l0 = imap (fun i => f (S a + i)%nat) l0).
    { intros l0. apply imap_ext. intros i x _. f_equal. lia. }
    rewrite Hrest. destruct (IH (S a)) as [Hnd Hin]. cbv zeta in Hnd, Hin.
    set (rest := bound_layers (concat (imap (fun i => f (S a + i)%nat) lights))) in *.
    assert (Hdiv : forall layer, (a * k <= layer < a * k + k)%nat -> (layer / k = a)%nat).
    { intros layer Hl. symmetry. apply (Nat.div_unique layer k a (layer - a * k)); lia. }
    assert (Hge : forall layer, (S a * k <= layer)%nat -> (S a <= layer / k)%nat).
    { intros layer Hl. apply Nat.div_le_lower_bound; lia. }
    split.
    + destruct (castsShadow G light); [|exact Hnd].
      apply NoDup_ListNoDup. apply NoDup_app. split; [apply NoDup_ListNoDup, List.seq_NoDup|].
      split; [|apply NoDup_ListNoDup; exact Hnd].
      intros layer Hl1 Hl2. apply list_elem_of_In in Hl1, Hl2.
      apply List.in_seq in Hl1. apply Hin in Hl2. destruct Hl2 as [Hl2 _]. lia.
    + intros layer. rewrite List.in_app_iff, Hin. split.
      * intros [Hhere|(Hl & light' & Hlook & Hc)].
        -- destruct (castsShadow G light) eqn:Hc; [|destruct Hhere].
           apply List.in_seq in Hhere. split; [lia|].
           exists light. rewrite (Hdiv layer) by lia. rewrite Nat.sub_diag. auto.
        -- split; [lia|]. exists light'. split; [|exact Hc].
           specialize (Hge layer Hl).
           replace (layer / k - a)%nat with (S (layer / k - S a)) by lia. exact Hlook.
      * intros (Hl & light' & Hlook & Hc).
        destruct (Nat.lt_ge_cases layer (a * k + k)) as [Hlt|Hge'].
        -- left. rewrite (Hdiv layer) in Hlook by lia. rewrite Nat.sub_diag in Hlook.
           simpl in Hlook. inversion Hlook; subst light'. rewrite Hc.
           apply List.in_seq. lia.
        -- right. assert (Hl' : (S a * k <= layer)%nat) by lia.
           split; [exact Hl'|]. exists light'. split; [|exact Hc].
           specialize (Hge layer Hl').
           replace (layer / k - a)%nat with (S (layer / k - S a)) in Hlook by lia.
           exact Hlook.
Qed.

End ShadowPasses.



(** X21.  The cube shadow pass never binds a layer twice and never leaves
    the array: layer [k] is bound exactly when light [k / 6] exists and
    casts shadows, so the six faces of a light use the layers
    [6 * lid .. 6 * lid + 5] and all bound layers lie below
    [6 * lights.size()] (the array is created for [lights.size()] cubes). *)
Theorem X21_cube_layers_are_distinct_and_in_range {G : ShadowEngine}
    (objects : list (Object.t (decoders G))) (lights : list (ShadowLight G)) :
  let layers := bound_layers (draw_cube objects lights) in
  List.NoDup layers
  /\ (forall layer, In layer layers <->
        exists light, lights !! (layer / 6)%nat = Some light /\ castsShadow G light = true)
  /\ Forall (fun layer => (layer < 6 * length lights)%nat) layers.
Proof.
  cbv zeta. unfold draw_cube.
  rewrite !bound_layers_app. cbn [bound_layers omap list_omap app].
  fold (@bound_layers G). rewrite !app_nil_r.
  destruct (layers_of_lights 6 (draw_light_cube objects) lights 0 ltac:(lia)) as [Hnd Hin].
  { intros lid light. rewrite draw_light_cube_layers.
    destruct (castsShadow G light); [|reflexivity].
    cbn [seq map]. repeat (f_equal; try lia). }
  cbv zeta in Hnd, Hin. cbn [Nat.add] in Hnd, Hin.
  assert (Hiff : forall layer,
            In layer (bound_layers (concat (imap (draw_light_cube objects) lights))) <->
            exists light, lights !! (layer / 6)%nat = Some light /\ castsShadow G light = true).
  { intros layer. rewrite Hin, Nat.sub_0_r. split.
    - intros [_ H]. exact H.
    - intros H. split; [lia|exact H]. }
  split; [exact Hnd|]. split; [exact Hiff|].
  apply List.Forall_forall. intros layer Hl. apply Hiff in Hl.
  destruct Hl as (light & Hlook & _). apply lookup_lt_Some in Hlook.
  pose proof (Nat.div_mod_eq layer 6). pose proof (Nat.mod_upper_bound layer 6 ltac:(lia)). lia.
Qed.

(** * From the command line to the image *)

(** X22.  A sample count of 0 given on the command line is rendered as it
    is: when the last "samples" argument that carries a value parses to 0
    and [main] goes on to render, the image saved at [config.outputPath]
    has the configured size and every channel of every pixel of it is NaN.
    The count reaches the division [render.rgb(x,y) / float(samples)]
    without any check. *)
Theorem X22_zero_samples_on_the_command_line {E : Engine} {R : Random}
    (scene : Scene E) (camera : Camera) (seed : Rng R)
    (before after : list KeyValues) (v : string) (rest : list string)
    (config : RaytracerConfig.t) (path : string) (img : Image) (x y : nat) :
  Forall (fun a => key a <> "samples" \/ values a = []) after ->
  stoi v = Returns 0 ->
  main_start false (before ++ argument "samples" (v :: rest) :: after)
    = Returns (Renders config) ->
  main_render scene camera seed config = Some (path, img) ->
  (x < width img)%nat -> (y < height img)%nat ->
  path = RaytracerConfig.outputPath config
  /\ width img = Z.to_nat (fst (RaytracerConfig.size config))
  /\ height img = Z.to_nat (snd (RaytracerConfig.size config))
  /\ rgb img x y = vec3_of fnan.
Proof.
  intros Hafter Hv Hstart Hrender Hx Hy.
  (* the configuration [main] goes on with is the constructor's *)
  unfold main_start in Hstart. apply bind_Returns in Hstart.
  destruct Hstart as (cfg & Hnew & Hstart).
  assert (Hcfg : cfg = config).
  { destruct (RaytracerConfig.scene cfg); inversion Hstart. reflexivity. }
  subst cfg. clear Hstart.
  (* its sample count is 0 *)
  assert (Hsamples : RaytracerConfig.samples config = 0).
  { apply new_Returns in Hnew. destruct Hnew as (c & Hc & ->).
    apply for_each_app_Returns in Hc. destruct Hc as (c1 & _ & Hc).
    apply for_each_cons_Returns in Hc. destruct Hc as (c2 & Hp & Hc).
    unfold RaytracerConfig.process, argument in Hp. cbn [key values length] in Hp.
    change (String.eqb "samples" "samples") with true in Hp. cbn [andb Nat.leb] in Hp.
    rewrite value_at_0, Hv in Hp. cbn [bind] in Hp. inversion Hp; subst c2; clear Hp.
    rewrite samples_set_default_path.
    rewrite (for_each_keeps RaytracerConfig.samples _ after _ c
               process_keeps_samples Hafter Hc). reflexivity. }
  unfold main_render in Hrender. rewrite Hsamples in Hrender.
  destruct (_ && _); [|discriminate]. inversion Hrender; subst path img; clear Hrender.
  change (Z.to_nat 0) with O in *.
  set (depth := Z.to_nat (RaytracerConfig.depth config)) in *.
  set (w := Z.to_nat (fst (RaytracerConfig.size config))) in *.
  set (h := Z.to_nat (snd (RaytracerConfig.size config))) in *.
  destruct (shaded_shape scene camera 0 depth w h seed) as (Hw & Hh & Hwf).
  destruct (gamma_pass_spec (E := E) 0 _ Hwf) as [(Hw2 & Hh2 & _) _].
  rewrite fst_render in Hx, Hy |- *. rewrite Hw2, Hw in Hx. rewrite Hh2, Hh in Hy.
  split; [reflexivity|]. split; [congruence|]. split; [congruence|].
  rewrite <- fst_render. rewrite render_pixel by assumption. reflexivity.
Qed.

Lemma X22_witness :
  let args := [argument "scene" ["floor"]; argument "wxh" ["2"; "2"]]
              ++ argument "samples" ["0"] :: [argument "depth" ["3"]] in
  let config := RaytracerConfig.mk (2, 2) 0 3 "./test_floor_0_3_2x2.png" "floor" in
  let img := fst (render (R := Demo.lcg) (Demo.floor_scene Demo.white [Demo.sun])
                         Demo.camera 0 3 2 2 42) in
  main_start false args = Returns (Renders config)
  /\ "./test_floor_0_3_2x2.png" = RaytracerConfig.outputPath config
  /\ width img = Z.to_nat (fst (RaytracerConfig.size config))
  /\ height img = Z.to_nat (snd (RaytracerConfig.size config))
  /\ rgb img 1 0 = vec3_of fnan.
Proof.
  cbv zeta. split; [vm_compute; reflexivity|].
  apply (X22_zero_samples_on_the_command_line (R := Demo.lcg)
           (Demo.floor_scene Demo.white [Demo.sun]) Demo.camera 42
           [argument "scene" ["floor"]; argument "wxh" ["2"; "2"]]
           [argument "depth" ["3"]] "0" []).
  - constructor; [left; discriminate|constructor].
  - vm_compute. reflexivity.
  - vm_compute. reflexivity.
  - reflexivity.
  - simpl. lia.
  - simpl. lia.
Defined.

(** * Key events *)

(** X23.  The release of P never reaches the camera: over any sequence of
    key events, the camera is told of every key pressed (P included) and of
    the release of every key but P; the release of P reloads the resources
    and returns before the camera is told, and this is the only event that
    reloads them.  Events that are neither a press nor a release (key
    repeats) cause no call. *)
Theorem X23_release_of_P_never_reaches_the_camera (events : list (Z * Z)) :
  let calls := keyEvents events in
  ~ In (camera_key GLFW_KEY_P false) calls
  /\ (forall key, In (key, GLFW_PRESS) events -> In (camera_key key true) calls)
  /\ (forall key, key <> GLFW_KEY_P ->
        In (key, GLFW_RELEASE) events -> In (camera_key key false) calls)
  /\ (In (GLFW_KEY_P, GLFW_RELEASE) events <-> In resources_reload calls).
Proof.
  cbv zeta. unfold keyEvents.
  assert (Hcall : forall key action c, In c (keyPressed key action) <->
            (action = GLFW_PRESS /\ c = camera_key key true)
            \/ (action = GLFW_RELEASE /\ key = GLFW_KEY_P /\ c = resources_reload)
            \/ (action = GLFW_RELEASE /\ key <> GLFW_KEY_P /\ c = camera_key key false)).
  { intros key action c. unfold keyPressed, GLFW_PRESS, GLFW_RELEASE, GLFW_KEY_P.
    destruct (Z.eqb_spec action 1) as [Ha|Ha]; [|destruct (Z.eqb_spec action 0) as [Hb|Hb];
      [destruct (Z.eqb_spec key 80) as [Hk|Hk]|]]; simpl; split;
      try (intros [<-|[]]); try (intros [[? ?]|[(? & ? & ?)|(? & ? & ?)]]); subst;
      auto 6; try lia; try contradiction. }
  assert (Hall : forall c, In c (flat_map (fun e => keyPressed (fst e) (snd e)) events) <->
            exists key action, In (key, action) events /\ In c (keyPressed key action)).
  { intros c. rewrite List.in_flat_map. split.
    - intros ([key action] & He & Hc). exists key, action. auto.
    - intros (key & action & He & Hc). exists (key, action). auto. }
  split; [|split; [|split]].
  - intros Hin. apply Hall in Hin. destruct Hin as (key & action & _ & Hc).
    apply Hcall in Hc. destruct Hc as [[_ Hc]|[(_ & _ & Hc)|(_ & Hk & Hc)]];
      try discriminate. inversion Hc. congruence.
  - intros key He. apply Hall. exists key, GLFW_PRESS. split; [exact He|].
    apply Hcall. left. auto.
  - intros key Hk He. apply Hall. exists key, GLFW_RELEASE. split; [exact He|].
    apply Hcall. right. right. auto.
  - split.
    + intros He. apply Hall. exists GLFW_KEY_P, GLFW_RELEASE. split; [exact He|].
      apply Hcall. right. left. auto.
    + intros Hin. apply Hall in Hin. destruct Hin as (key & action & He & Hc).
      apply Hcall in Hc. destruct Hc as [[_ Hc]|[(-> & -> & _)|(_ & _ & Hc)]];
        try discriminate. exact He.
Qed.
